(** * Fantasy-league core: seeds, brackets, consolation tiers, transaction value

    A shallow embedding of the reconstruction-and-attribution logic of the
    fantasy-football dashboard:

    - [bracket_visualizer.py]: [get_playoff_seeds], [build_tournament_bracket];
    - [history_view.py]: the lower-tier ("toilet bowl") and middle-tier
      ("consolation") filters and the round-2 split of the lower tier;
    - [transactions_helper.py]: [parse_sleeper_transactions],
      [parse_yahoo_transactions], [get_top_faab_pickups];
    - [transactions_combined.py]: the lists of several seasons and the
      moves per team;
    - [app.py]: [calc_player_stats_after_trade] and the trade-analysis loop.

    Conventions of the embedding.
    - A Python [dict] used as a map is a [gmap]; a [set] is a [gset]; a dict
      whose iteration order is observed ([adds], [drops]) is an association
      list.  Where the order of a set is observed ([list(roster_ids)]), it
      is a parameter: any listing of the elements.
    - [d.get(k)] is an [option]; [None] is [None].  A roster identifier is a
      Python [int], here [Z]; the truth test [if x:] on an identifier fails on
      [None] and on [0].
    - Scores are Python floats.  The embedding keeps them as exact integers
      (a score counted in its smallest unit), so rounding is outside the
      model; sums and comparisons are the exact ones.  A running total of
      the code is a float that rounds after every addition: an equation
      between two totals is stated only where both sides add the same values
      in the same order, or for the exact sums. *)

From stdpp Require Import gmap strings list fin_maps sorting pretty.
From Stdlib Require Import ZArith Lia.

Local Open Scope Z_scope.

(** ** Python helpers *)

(** [if x:] for an optional integer: [None] and [0] are falsy. *)
Definition truthy (x : option Z) : bool :=
  match x with
  | Some v => negb (v =? 0)
  | None => false
  end.

(** [x in s] for a value that may be [None] and a set of integers. *)
Definition in_set (x : option Z) (s : gset Z) : bool :=
  match x with
  | Some v => bool_decide (v ∈ s)
  | None => false
  end.

(** [seed_map.get(x)]: the keys of a seed map are integers, so [None] is
    never found. *)
Definition seed_get (seed_map : gmap Z Z) (x : option Z) : option Z :=
  match x with
  | Some v => seed_map !! v
  | None => None
  end.

(** [seed_map.get(x, 0)]. *)
Definition seed_get0 (seed_map : gmap Z Z) (x : option Z) : Z :=
  default 0 (seed_get seed_map x).

(** [seed_map.get(x) == s]. *)
Definition seed_is (seed_map : gmap Z Z) (x : option Z) (s : Z) : bool :=
  bool_decide (seed_get seed_map x = Some s).

(** ** Rosters and seeds ([bracket_visualizer.get_playoff_seeds]) *)

Module Seeds.

(** The fields of a roster dictionary that the core reads.  [fpts] and
    [fpts_decimal] are the whole and the hundredths part of points-for. *)
Record roster := Roster {
  roster_id : Z;
  owner_id : option string;
  wins : Z;
  fpts : Z;
  fpts_decimal : Z
}.

(** One entry of the [standings] list. *)
Record standing := Standing {
  s_roster_id : Z;
  s_wins : Z;
  s_points : Z
}.

(** [fpts + fpts_decimal / 100], counted in hundredths ([fpts_decimal] is the
    two-digit fraction of the feed). *)
Definition points_of (r : roster) : Z := fpts r * 100 + fpts_decimal r.

Definition standing_of (r : roster) : standing :=
  {| s_roster_id := roster_id r; s_wins := wins r; s_points := points_of r |}.

(** Comparison of the sort keys [(wins, points)] as Python tuples. *)
Definition key_lt (a b : standing) : bool :=
  (s_wins a <? s_wins b) || ((s_wins a =? s_wins b) && (s_points a <? s_points b)).

(** [standings.sort(key=..., reverse=True)].  Python's sort is stable, and
    [reverse=True] keeps the input order of equal keys; the result is the
    descending stable sort, written here as an insertion sort: an entry goes
    behind the entries with a strictly larger key only. *)
Fixpoint insert_desc (x : standing) (l : list standing) : list standing :=
  match l with
  | [] => [x]
  | y :: l' => if key_lt x y then y :: insert_desc x l' else x :: l
  end.

Definition sort_desc (l : list standing) : list standing :=
  foldr insert_desc [] l.

(** [for idx, team in enumerate(teams, idx): seed_map[team['roster_id']] = idx] *)
Fixpoint assign_seeds (idx : Z) (teams : list standing) (seed_map : gmap Z Z)
  : gmap Z Z :=
  match teams with
  | [] => seed_map
  | t :: ts => assign_seeds (idx + 1) ts (<[s_roster_id t := idx]> seed_map)
  end.

(** The sorted [standings] list. *)
Definition standings (rosters : list roster) : list standing :=
  sort_desc (standing_of <$> rosters).

Definition get_playoff_seeds (rosters : list roster) : gmap Z Z :=
  assign_seeds 1 (take 12 (standings rosters)) ∅.

(** The seed assignment as the specification states it: every roster has a
    seed in [1..N], every such seed is taken, and no seed is shared, [N]
    being the number of rosters. *)
Definition seeds_bijective (rosters : list roster) (seed_map : gmap Z Z) : Prop :=
  let N := Z.of_nat (length rosters) in
  (∀ ro, ro ∈ rosters → ∃ s, seed_map !! roster_id ro = Some s ∧ 1 ≤ s ≤ N)
  ∧ (∀ s, 1 ≤ s ≤ N → ∃ ro, ro ∈ rosters ∧ seed_map !! roster_id ro = Some s)
  ∧ (∀ ro ro' s, ro ∈ rosters → ro' ∈ rosters →
       seed_map !! roster_id ro = Some s → seed_map !! roster_id ro' = Some s →
       ro = ro').

(** A league of [n] rosters with identifiers [1..n], roster [i] on [n - i]
    wins. *)
Definition league (n : nat) : list roster :=
  (λ i, Roster i None (Z.of_nat n - i) 100 0) <$> seqZ 1 (Z.of_nat n).

End Seeds.

(** ** Bracket matchup records *)

(** A record of the flat bracket feed: [m] matchup id, [r] round, [t1] and
    [t2] the two rosters, [w] winner, [l] loser.  Every field may be absent. *)
Record matchup := Matchup {
  m_m : option Z;
  m_r : option Z;
  m_t1 : option Z;
  m_t2 : option Z;
  m_w : option Z;
  m_l : option Z
}.

(** [sorted(d.keys())] for a dictionary keyed by round number. *)
Definition sorted_keys {A} (d : gmap Z A) : list Z :=
  merge_sort Z.le (elements (dom d)).

(** Grouping of a flat feed by round, as every caller does it:
    [round_num = matchup.get('r', 0)], then append to [rounds_dict[round_num]]. *)
Definition group_step (d : gmap Z (list matchup)) (mt : matchup)
  : gmap Z (list matchup) :=
  let round_num := default 0 (m_r mt) in
  <[round_num := default [] (d !! round_num) ++ [mt]]> d.

Definition group_by_round (bracket : list matchup) : gmap Z (list matchup) :=
  foldl group_step ∅ bracket.

(** The test of the generator in [next(...)] that looks a seed pair up, the
    same expression in the championship and in the lower-tier code. *)
Definition pair_matches (seed_map : gmap Z Z) (p : Z * Z) (mt : matchup) : bool :=
  (seed_is seed_map (m_t1 mt) p.1 && seed_is seed_map (m_t2 mt) p.2)
  || (seed_is seed_map (m_t1 mt) p.2 && seed_is seed_map (m_t2 mt) p.1).

(** [next((m for m in matchups if ...), None)]. *)
Definition find_pair (seed_map : gmap Z Z) (p : Z * Z) (matchups : list matchup)
  : option matchup :=
  List.find (pair_matches seed_map p) matchups.

(** ** Championship bracket ([bracket_visualizer.build_tournament_bracket]) *)

Module Bracket.

(** A node of the structured bracket. *)
Record node := Node {
  team1_id : option Z;
  team2_id : option Z;
  team1_seed : Z;
  team2_seed : Z;
  winner_id : option Z;
  matchup_id : option Z
}.

(** [round_winners]: round -> (matchup id -> winner); the matchup id is
    [matchup.get('m')] and may be [None]. *)
Abbreviation winners_t := (gmap Z (gmap (option Z) Z)).

(** The loop state: [structured_matchups] of the current round and
    [round_winners]. *)
Abbreviation round_state := (list node * winners_t)%type.

Definition expected_pairs : list (Z * Z) := [(1, 8); (4, 5); (2, 7); (3, 6)].

(** [if winner_id: round_winners[round_num] = round_winners.get(round_num, {});
     round_winners[round_num][matchup.get('m')] = winner_id]. *)
Definition record_winner (round_num : Z) (mt : matchup) (rw : winners_t)
  : winners_t :=
  match m_w mt with
  | Some v =>
      if truthy (m_w mt)
      then <[round_num := <[m_m mt := v]> (default ∅ (rw !! round_num))]> rw
      else rw
  | None => rw
  end.

(** The node of a found round-1 record: team1 is the roster holding the
    first seed of the pair. *)
Definition round1_node (seed_map : gmap Z Z) (p : Z * Z) (mt : matchup) : node :=
  if seed_is seed_map (m_t1 mt) p.1
  then {| team1_id := m_t1 mt; team2_id := m_t2 mt;
          team1_seed := p.1; team2_seed := p.2;
          winner_id := m_w mt; matchup_id := m_m mt |}
  else {| team1_id := m_t2 mt; team2_id := m_t1 mt;
          team1_seed := p.1; team2_seed := p.2;
          winner_id := m_w mt; matchup_id := m_m mt |}.

(** Body of [for seed_pair in expected_pairs].  A found record is a
    non-empty dictionary, so [if matchup:] is the test that one was found. *)
Definition round1_step (seed_map : gmap Z Z) (round_num : Z)
    (matchups : list matchup) (st : round_state) (p : Z * Z) : round_state :=
  match find_pair seed_map p matchups with
  | Some mt => (st.1 ++ [round1_node seed_map p mt], record_winner round_num mt st.2)
  | None => st
  end.

(** [list(round_winners.get(round_num - 1, {}).values())]. *)
Definition prev_winners (rw : winners_t) (round_num : Z) : list Z :=
  (map_to_list (default ∅ (rw !! (round_num - 1)))).*2.

(** [team_id in prev_winners]: the list holds integers only. *)
Definition in_list (x : option Z) (l : list Z) : bool :=
  match x with
  | Some v => bool_decide (v ∈ l)
  | None => false
  end.

Definition later_node (seed_map : gmap Z Z) (mt : matchup) : node :=
  {| team1_id := m_t1 mt; team2_id := m_t2 mt;
     team1_seed := seed_get0 seed_map (m_t1 mt);
     team2_seed := seed_get0 seed_map (m_t2 mt);
     winner_id := m_w mt; matchup_id := m_m mt |}.

(** Body of [for matchup in matchups] in a round after the first. *)
Definition later_step (seed_map : gmap Z Z) (round_num : Z) (prev : list Z)
    (st : round_state) (mt : matchup) : round_state :=
  if in_list (m_t1 mt) prev && in_list (m_t2 mt) prev
  then (st.1 ++ [later_node seed_map mt], record_winner round_num mt st.2)
  else st.

(** One iteration of [for round_num in sorted_rounds]. *)
Definition process_round (seed_map : gmap Z Z) (round_num : Z)
    (matchups : list matchup) (rw : winners_t) : round_state :=
  if round_num =? 1
  then foldl (round1_step seed_map round_num matchups) ([], rw) expected_pairs
  else foldl (later_step seed_map round_num (prev_winners rw round_num)) ([], rw) matchups.

Definition round_step (matchups_by_round : gmap Z (list matchup))
    (seed_map : gmap Z Z) (acc : gmap Z (list node) * winners_t) (round_num : Z)
  : gmap Z (list node) * winners_t :=
  let matchups := default [] (matchups_by_round !! round_num) in
  let st := process_round seed_map round_num matchups acc.2 in
  (<[round_num := st.1]> acc.1, st.2).

(** The loop over the rounds, with both dictionaries it maintains. *)
Definition build_state (matchups_by_round : gmap Z (list matchup))
    (seed_map : gmap Z Z) : gmap Z (list node) * winners_t :=
  foldl (round_step matchups_by_round seed_map) (∅, ∅) (sorted_keys matchups_by_round).

(** An empty input returns [{}] at once; the loop over no round gives the
    same. *)
Definition build_tournament_bracket (matchups_by_round : gmap Z (list matchup))
    (seed_map : gmap Z Z) : gmap Z (list node) :=
  (build_state matchups_by_round seed_map).1.

(** The post-season view: group the flat winners bracket, then build. *)
Definition resolve_championship (seed_map : gmap Z Z) (winners_bracket : list matchup)
  : gmap Z (list node) :=
  build_tournament_bracket (group_by_round winners_bracket) seed_map.

(** The nodes of a round of a structured bracket. *)
Definition round_nodes (sb : gmap Z (list node)) (k : Z) : list node :=
  default [] (sb !! k).

(** A roster takes part in a node. *)
Definition participant (x : Z) (nd : node) : Prop :=
  team1_id nd = Some x ∨ team2_id nd = Some x.

(** A roster loses a node: the node has a winner, and it is another roster. *)
Definition loses (x : Z) (nd : node) : Prop :=
  participant x nd ∧ truthy (winner_id nd) = true ∧ winner_id nd ≠ Some x.

(** A roster is the recorded winner of a node of round [k]. *)
Definition won_in (sb : gmap Z (list node)) (k x : Z) : Prop :=
  ∃ nd, nd ∈ round_nodes sb k ∧ winner_id nd = Some x.

(** What the gate of the later rounds achieves: who takes part in a round
    other than the first is the recorded winner of a node of the round
    before. *)
Definition winners_advance (sb : gmap Z (list node)) : Prop :=
  ∀ (k x : Z) (nd : node),
    k ≠ 1 → nd ∈ round_nodes sb k → participant x nd → won_in sb (k - 1) x.

(** Every winner kept in [round_winners] is the winner of a node. *)
Definition winners_recorded (acc : gmap Z (list node) * winners_t) : Prop :=
  ∀ (r : Z) (mid : option Z) (v : Z),
    default ∅ (acc.2 !! r) !! mid = Some v → won_in acc.1 r v.

(** The same inside a round [r], while its records are gone through: the
    other rounds of [round_winners] are untouched, and every winner kept for
    [r] is the winner of a node built so far. *)
Definition round_inv (r : Z) (rw : winners_t) (st : round_state) : Prop :=
  (∀ r', r' ≠ r → st.2 !! r' = rw !! r')
  ∧ (∀ mid v, default ∅ (st.2 !! r) !! mid = Some v →
              ∃ nd, nd ∈ st.1 ∧ winner_id nd = Some v).

(** The invariant of the specification: who loses a node of round [k] takes
    part in no node of a later round. *)
Definition losers_never_return (sb : gmap Z (list node)) : Prop :=
  ∀ (k j x : Z) (nk nj : node),
    k < j → nk ∈ round_nodes sb k → loses x nk →
    nj ∈ round_nodes sb j → ¬ participant x nj.

(** The seeds of the two sides of a record are the pair, in either order. *)
Definition seeds_equal_pair (seed_map : gmap Z Z) (p : Z * Z) (mt : matchup) : Prop :=
  (seed_get seed_map (m_t1 mt) = Some p.1 ∧ seed_get seed_map (m_t2 mt) = Some p.2)
  ∨ (seed_get seed_map (m_t1 mt) = Some p.2 ∧ seed_get seed_map (m_t2 mt) = Some p.1).

(** What the slot of a canonical pair may be.  [None]: no round-1 record has
    the seeds of the pair.  [Some nd]: [nd] comes from the first record that
    has them, with the roster of the first (lower) seed as team1. *)
Definition slot_for (seed_map : gmap Z Z) (matchups : list matchup) (p : Z * Z)
    (slot : option node) : Prop :=
  match slot with
  | None => ∀ mt, mt ∈ matchups → ¬ seeds_equal_pair seed_map p mt
  | Some nd =>
      ∃ pre mt post,
        matchups = pre ++ mt :: post
        ∧ (∀ x, x ∈ pre → ¬ seeds_equal_pair seed_map p x)
        ∧ seeds_equal_pair seed_map p mt
        ∧ seed_get seed_map (team1_id nd) = Some p.1
        ∧ seed_get seed_map (team2_id nd) = Some p.2
        ∧ team1_seed nd = p.1 ∧ team2_seed nd = p.2
        ∧ winner_id nd = m_w mt ∧ matchup_id nd = m_m mt
        ∧ ((team1_id nd = m_t1 mt ∧ team2_id nd = m_t2 mt)
           ∨ (team1_id nd = m_t2 mt ∧ team2_id nd = m_t1 mt))
  end.

(** The resolved slots of a slot list, in order. *)
Definition resolved (slots : list (option node)) : list node := omap id slots.

End Bracket.

(** ** Sample data *)

Module Samples.

(** Rosters [1..n] seeded by their identifier. *)
Definition seeds_upto (n : Z) : gmap Z Z := list_to_map ((λ i, (i, i)) <$> seqZ 1 n).

(** A played record: id, round, the two rosters, winner, loser. *)
Definition played (mid rnd a b win los : Z) : matchup :=
  Matchup (Some mid) (Some rnd) (Some a) (Some b) (Some win) (Some los).

(** Only the 1v8 game of round 1, listed with the higher seed first. *)
Definition only_1v8 : list matchup := [played 1 1 8 1 1 8].

(** A full first round, the two semifinals, a stray round-2 record in which
    roster 4 (beaten by roster 1 in its semifinal) beats roster 2, and a
    round-3 record between rosters 1 and 4. *)
Definition stray_feed : list matchup :=
  [ played 1 1 1 8 1 8; played 2 1 4 5 4 5; played 3 1 2 7 2 7; played 4 1 3 6 3 6;
    played 5 2 1 4 1 4; played 6 2 2 3 2 3; played 7 2 4 2 4 2;
    played 8 3 1 4 1 4 ].

(** The lower tier: 9 beats 12 and 10 beats 11 in round 1; in round 2 the
    winners 9 and 10 meet, the losers 12 and 11 meet, and a third record
    pairs winner 9 with loser 11. *)
Definition lower_round1 : list matchup := [played 1 1 9 12 9 12; played 2 1 11 10 10 11].

Definition lower_round2 : list matchup :=
  [played 3 2 9 10 10 9; played 4 2 12 11 12 11; played 5 2 9 11 9 11].

(** The same first round with a stray third record, roster 11 beating roster
    9: rosters 9 and 11 are now round-1 winners and round-1 losers.  Round 2
    has the records 11 against 9 and 9 against 12. *)
Definition overlap_round1 : list matchup :=
  [played 1 1 9 12 9 12; played 2 1 10 11 10 11; played 3 1 11 9 11 9].

Definition overlap_round2 : list matchup :=
  [played 4 2 11 9 11 9; played 5 2 9 12 9 12].

Definition lower_rosters : list Seeds.roster :=
  (λ i, Seeds.Roster i (Some (pretty i)) 0 0 0) <$> seqZ 9 4.

Definition lower_names : gmap string string :=
  {[ "9" := "Nine"; "10" := "Ten"; "11" := "Eleven"; "12" := "Twelve" ]}.

End Samples.

(** ** Consolation tiers ([history_view.display_history_view]) *)

Module Consolation.

Import Seeds.

Definition in_range (lo hi s : Z) : bool := (lo <=? s) && (s <=? hi).

(** [(9 <= team1_seed <= 12) and (9 <= team2_seed <= 12)] with
    [team_seed = seed_map.get(team_id, 0)]. *)
Definition is_toilet_bowl (seed_map : gmap Z Z) (mt : matchup) : bool :=
  in_range 9 12 (seed_get0 seed_map (m_t1 mt))
  && in_range 9 12 (seed_get0 seed_map (m_t2 mt)).

(** [(5 <= team1_seed <= 8) and (5 <= team2_seed <= 8)]. *)
Definition is_consolation (seed_map : gmap Z Z) (mt : matchup) : bool :=
  in_range 5 8 (seed_get0 seed_map (m_t1 mt))
  && in_range 5 8 (seed_get0 seed_map (m_t2 mt)).

(** The lower-tier records of a flat feed (the header of the history view). *)
Definition toilet_bowl_matchups (seed_map : gmap Z Z) (losers_bracket : list matchup)
  : list matchup :=
  filter (λ mt, is_toilet_bowl seed_map mt) losers_bracket.

(** [[m for m in ... if m.get('r') == k]]. *)
Definition of_round (k : Z) (ms : list matchup) : list matchup :=
  filter (λ mt, m_r mt = Some k) ms.

(** [if x: s.add(x)]. *)
Definition add_truthy (x : option Z) (s : gset Z) : gset Z :=
  match x with
  | Some v => if truthy x then {[v]} ∪ s else s
  | None => s
  end.

(** [round1_winners] and [round1_losers] from the round-1 records. *)
Definition round1_sets (round1 : list matchup) : gset Z * gset Z :=
  foldl (λ acc mt, (add_truthy (m_w mt) acc.1, add_truthy (m_l mt) acc.2))
        (∅, ∅) round1.

Definition both_in (s : gset Z) (mt : matchup) : bool :=
  in_set (m_t1 mt) s && in_set (m_t2 mt) s.

(** [next((r for r in rosters if r.get('roster_id') == rid), None)]. *)
Definition find_roster (rosters : list roster) (rid : Z) : option roster :=
  List.find (λ ro, bool_decide (roster_id ro = rid)) rosters.

(** [user_lookup.get(owner_id, 'Unknown')]. *)
Definition owner_name (user_lookup : gmap string string) (ro : roster) : string :=
  default "Unknown" (owner_id ro ≫= (user_lookup !!.)).

(** The name a found, truthy roster identifier resolves to; [None] leaves
    the variable as it was. *)
Definition resolve_name (rosters : list roster) (user_lookup : gmap string string)
    (x : option Z) : option string :=
  match x with
  | Some rid =>
      if truthy x then owner_name user_lookup <$> find_roster rosters rid else None
  | None => None
  end.

(** Body of [for matchup in round2_toilet_bowl]; the state is
    [(toilet_bowl_champion, toilet_bowl_loser)]. *)
Definition summary_step (winners losers : gset Z) (rosters : list roster)
    (user_lookup : gmap string string) (st : string * string) (mt : matchup)
  : string * string :=
  let champion :=
    if both_in winners mt
    then default st.1 (resolve_name rosters user_lookup (m_w mt))
    else st.1 in
  let loser :=
    if both_in losers mt
    then default st.2 (resolve_name rosters user_lookup (m_l mt))
    else st.2 in
  (champion, loser).

(** The two names over a list of round-2 lower-tier records. *)
Definition round2_summary (winners losers : gset Z) (rosters : list roster)
    (user_lookup : gmap string string) (round2 : list matchup) : string * string :=
  foldl (summary_step winners losers rosters user_lookup) ("TBD", "TBD") round2.

(** Tier champion and last-place finisher as the header computes them, once
    both brackets are there. *)
Definition toilet_bowl_summary (seed_map : gmap Z Z) (rosters : list roster)
    (user_lookup : gmap string string) (losers_bracket : list matchup)
  : string * string :=
  let tb := toilet_bowl_matchups seed_map losers_bracket in
  let sets := round1_sets (of_round 1 tb) in
  round2_summary sets.1 sets.2 rosters user_lookup (of_round 2 tb).

(** Body of [for matchup in toilet_bowl_matchups] in round 2 of the
    consolation view; the state is [(championship_matchups, losers_matchups)]. *)
Definition split_step (winners losers : gset Z)
    (acc : list matchup * list matchup) (mt : matchup)
  : list matchup * list matchup :=
  if both_in winners mt then (acc.1 ++ [mt], acc.2)
  else if both_in losers mt then (acc.1, acc.2 ++ [mt])
  else acc.

Definition split_round2 (winners losers : gset Z) (round2 : list matchup)
  : list matchup * list matchup :=
  foldl (split_step winners losers) ([], []) round2.

Definition toilet_pairs : list (Z * Z) := [(9, 12); (10, 11)].

(** [ordered_matchups]: the found records of the pairs 9v12, 10v11. *)
Definition ordered_round1 (seed_map : gmap Z Z) (tb : list matchup) : list matchup :=
  omap (λ p, find_pair seed_map p tb) toilet_pairs.

(** One iteration of [for round_num in sorted(all_losers_rounds.keys())] that
    fills [toilet_bowl_rounds_dict]. *)
Definition toilet_step (seed_map : gmap Z Z) (all_losers_rounds : gmap Z (list matchup))
    (d : gmap Z (list matchup)) (round_num : Z) : gmap Z (list matchup) :=
  let tb := filter (λ mt, is_toilet_bowl seed_map mt)
                   (default [] (all_losers_rounds !! round_num)) in
  match tb with
  | [] => d
  | _ :: _ =>
      if round_num =? 1 then
        match ordered_round1 seed_map tb with
        | [] => <[round_num := tb]> d
        | ordered => <[round_num := ordered]> d
        end
      else if round_num =? 2 then
        let sets := round1_sets (default [] (d !! 1)) in
        let sp := split_round2 sets.1 sets.2 tb in
        match sp.1 ++ sp.2 with
        | [] => d
        | round2_matchups => <[round_num := round2_matchups]> d
        end
      else <[round_num := tb]> d
  end.

Definition toilet_bowl_rounds_dict (seed_map : gmap Z Z) (losers_bracket : list matchup)
  : gmap Z (list matchup) :=
  let all_losers_rounds := group_by_round losers_bracket in
  foldl (toilet_step seed_map all_losers_rounds) ∅ (sorted_keys all_losers_rounds).

(** One iteration of the loop that fills [consolation_rounds_dict]. *)
Definition consolation_step (seed_map : gmap Z Z)
    (all_losers_rounds : gmap Z (list matchup))
    (d : gmap Z (list matchup)) (round_num : Z) : gmap Z (list matchup) :=
  match filter (λ mt, is_consolation seed_map mt)
               (default [] (all_losers_rounds !! round_num)) with
  | [] => d
  | consolation_matchups => <[round_num := consolation_matchups]> d
  end.

Definition consolation_rounds_dict (seed_map : gmap Z Z) (losers_bracket : list matchup)
  : gmap Z (list matchup) :=
  let all_losers_rounds := group_by_round losers_bracket in
  foldl (consolation_step seed_map all_losers_rounds) ∅ (sorted_keys all_losers_rounds).

(** A roster is one of the two sides of a record. *)
Definition plays (x : Z) (mt : matchup) : Prop :=
  m_t1 mt = Some x ∨ m_t2 mt = Some x.

(** A record of some round of a per-round dictionary. *)
Definition in_rounds (mt : matchup) (d : gmap Z (list matchup)) : Prop :=
  ∃ (k : Z) (ms : list matchup), d !! k = Some ms ∧ mt ∈ ms.

(** The name a round-2 record writes into [toilet_bowl_champion], and into
    [toilet_bowl_loser], if any. *)
Definition champion_of (winners : gset Z) (rosters : list roster)
    (user_lookup : gmap string string) (mt : matchup) : option string :=
  if both_in winners mt then resolve_name rosters user_lookup (m_w mt) else None.

Definition last_place_of (losers : gset Z) (rosters : list roster)
    (user_lookup : gmap string string) (mt : matchup) : option string :=
  if both_in losers mt then resolve_name rosters user_lookup (m_l mt) else None.

(** A record that pairs a round-1 winner with a round-1 loser. *)
Definition mixes (winners losers : gset Z) (mt : matchup) : Prop :=
  (in_set (m_t1 mt) winners ∧ in_set (m_t2 mt) losers)
  ∨ (in_set (m_t1 mt) losers ∧ in_set (m_t2 mt) winners).

(** A record whose two seeds span the two tiers. *)
Definition spans_tiers (seed_map : gmap Z Z) (mt : matchup) : Prop :=
  (in_range 9 12 (seed_get0 seed_map (m_t1 mt)) ∧ in_range 5 8 (seed_get0 seed_map (m_t2 mt)))
  ∨ (in_range 5 8 (seed_get0 seed_map (m_t1 mt)) ∧ in_range 9 12 (seed_get0 seed_map (m_t2 mt))).

End Consolation.

(** ** Weekly snapshots and value attribution *)

Module Attribution.

(** One roster's entry of a week: the starters list and the points of its
    players, both keyed by player identifier (a string). *)
Record team_matchup := TeamMatchup {
  starters : list string;
  players_points : gmap string Z
}.

(** [matchup_data]: week -> roster -> entry. *)
Abbreviation matchup_data_t := (gmap Z (gmap Z team_matchup)).

(** [range(a, 19)]. *)
Definition weeks_from (a : Z) : list Z := seqZ a (19 - a).

(** [matchup_data[week_num][roster_id]] when both keys are present. *)
Definition snapshot (matchup_data : matchup_data_t) (week_num roster_id : Z)
  : option team_matchup :=
  matchup_data !! week_num ≫= (.!! roster_id).

(** *** Waiver pickups ([parse_sleeper_transactions], the loop over the
    weeks after the pickup); the state is [(total_points, games_in_lineup)]. *)
Definition pickup_week (matchup_data : matchup_data_t) (team_roster_id : Z)
    (player_id_str : string) (acc : Z * Z) (week_num : Z) : Z * Z :=
  match snapshot matchup_data week_num team_roster_id with
  | Some team_matchup =>
      let games_in_lineup :=
        if bool_decide (player_id_str ∈ starters team_matchup)
        then acc.2 + 1 else acc.2 in
      let total_points :=
        match players_points team_matchup !! player_id_str with
        | Some points => if 0 <? points then acc.1 + points else acc.1
        | None => acc.1
        end in
      (total_points, games_in_lineup)
  | None => acc
  end.

Definition pickup_totals (matchup_data : matchup_data_t) (team_roster_id : Z)
    (player_id_str : string) (week : Z) : Z * Z :=
  foldl (pickup_week matchup_data team_roster_id player_id_str) (0, 0)
        (weeks_from (week + 1)).

(** [(total_points_after_pickup, games_started)], or [None] where the
    source leaves both at ['N/A']: no snapshots, no week, no season, a falsy
    roster, or nothing scored and nothing started. *)
Definition pickup_stats (matchup_data : matchup_data_t) (season : option Z)
    (week : option Z) (roster_id : Z) (entity_id : string) : option (Z * Z) :=
  match week with
  | Some wk =>
      if bool_decide (matchup_data ≠ ∅) && truthy season && negb (roster_id =? 0)
      then
        let tot := pickup_totals matchup_data roster_id entity_id wk in
        if (0 <? tot.1) || (0 <? tot.2)
        then Some (if 0 <? tot.1 then tot.1 else 0, tot.2)
        else None
      else None
  | None => None
  end.

(** *** Trades ([calc_player_stats_after_trade] in the trade analysis); the
    state is [(total_points_lineup, total_points_bench, total_starts)]. *)
Definition trade_week_step (matchup_data : matchup_data_t) (roster_id : Z)
    (player_id_str : string) (acc : Z * Z * Z) (week_num : Z) : Z * Z * Z :=
  match snapshot matchup_data week_num roster_id with
  | Some team_matchup =>
      match players_points team_matchup !! player_id_str with
      | Some points =>
          if 0 <? points then
            if bool_decide (player_id_str ∈ starters team_matchup)
            then (acc.1.1 + points, acc.1.2, acc.2 + 1)
            else (acc.1.1, acc.1.2 + points, acc.2)
          else acc
      | None => acc
      end
  | None => acc
  end.

(** Body of [for player_name in players_list]: a name the mapping does not
    resolve (absent, or an empty identifier) is skipped. *)
Definition trade_player_step (matchup_data : matchup_data_t)
    (player_id_mapping : gmap string string) (roster_id trade_week : Z)
    (acc : Z * Z * Z) (player_name : string) : Z * Z * Z :=
  match player_id_mapping !! player_name with
  | Some player_id =>
      if bool_decide (player_id = "") then acc
      else foldl (trade_week_step matchup_data roster_id player_id) acc
                 (weeks_from trade_week)
  | None => acc
  end.

Definition calc_player_stats_after_trade (matchup_data : matchup_data_t)
    (player_id_mapping : gmap string string)
    (players_list : list string) (roster_id trade_week : Z) : Z * Z * Z :=
  foldl (trade_player_step matchup_data player_id_mapping roster_id trade_week)
        (0, 0, 0) players_list.

(** *** FAAB pickups ([app.py], "Most Valuable FAAB Pickups"): the same
    weekly step for the one player of a waiver entry, from the week of the
    pickup on. *)
Definition faab_value (matchup_data : matchup_data_t) (roster_id : Z)
    (player_id_str : string) (week : Z) : Z * Z * Z :=
  foldl (trade_week_step matchup_data roster_id player_id_str) (0, 0, 0)
        (weeks_from week).

(** *** The attribution as the specification words it, for one player:
    over the weeks [week + 1 .. 18], lineup points are the points of the
    weeks in which the player is a starter, bench points those of the weeks
    with a recorded nonzero value outside the starters, and starts count the
    weeks that went into the lineup points. *)
Definition spec_week (matchup_data : matchup_data_t) (roster_id : Z)
    (player : string) (acc : Z * Z * Z) (week_num : Z) : Z * Z * Z :=
  match snapshot matchup_data week_num roster_id with
  | Some tm =>
      let points := default 0 (players_points tm !! player) in
      if bool_decide (player ∈ starters tm)
      then (acc.1.1 + points, acc.1.2, acc.2 + 1)
      else if bool_decide (points ≠ 0)
           then (acc.1.1, acc.1.2 + points, acc.2)
           else acc
  | None => acc
  end.

Definition spec_attribution (matchup_data : matchup_data_t) (roster_id : Z)
    (player : string) (week : Z) : Z * Z * Z :=
  foldl (spec_week matchup_data roster_id player) (0, 0, 0) (weeks_from (week + 1)).

(** The same with the guard of the code: only strictly positive values
    count, in the lineup as on the bench. *)
Definition positive_week (matchup_data : matchup_data_t) (roster_id : Z)
    (player : string) (week_num : Z) : Z * Z * Z :=
  match snapshot matchup_data week_num roster_id with
  | Some tm =>
      match players_points tm !! player with
      | Some points =>
          if bool_decide (0 < points) then
            if bool_decide (player ∈ starters tm) then (points, 0, 1)
            else (0, points, 0)
          else (0, 0, 0)
      | None => (0, 0, 0)
      end
  | None => (0, 0, 0)
  end.

Definition add3 (a b : Z * Z * Z) : Z * Z * Z :=
  (a.1.1 + b.1.1, a.1.2 + b.1.2, a.2 + b.2).

Definition sum3 (l : list (Z * Z * Z)) : Z * Z * Z := foldr add3 (0, 0, 0) l.

(** [1] for a week in which the player is among the roster's starters. *)
Definition started_week (matchup_data : matchup_data_t) (roster_id : Z)
    (player : string) (week_num : Z) : Z :=
  match snapshot matchup_data week_num roster_id with
  | Some tm => if bool_decide (player ∈ starters tm) then 1 else 0
  | None => 0
  end.

Definition sumZ (l : list Z) : Z := foldr Z.add 0 l.

(** A week records a strictly positive value for the player on the roster. *)
Definition scores_in (matchup_data : matchup_data_t) (roster_id : Z)
    (player : string) (week_num : Z) : Prop :=
  ∃ (tm : team_matchup) (points : Z),
    snapshot matchup_data week_num roster_id = Some tm
    ∧ players_points tm !! player = Some points ∧ 0 < points.

End Attribution.

(** ** Transactions ([transactions_helper.parse_sleeper_transactions]) and
    the trade analysis of [app.py] *)

Module Transactions.

Import Seeds Attribution.

(** A raw transaction.  [adds] and [drops] map a player identifier to the
    roster that gains or loses it, in the order of the feed ([None] and a
    missing key both read as the empty dictionary); [waiver_bid] is
    [settings.get('waiver_bid', 0) or 0].  Fields that are only copied
    through ([consenter_ids], [draft_picks]) are left out. *)
Record transaction := Transaction {
  transaction_id : string;
  trans_type : string;
  status : string;
  adds : list (string * Z);
  drops : list (string * Z);
  waiver_bid : Z;
  created : option Z
}.

(** An entry of the [trades] output: [adds] and [drops] map a player name
    to a team name. *)
Record trade_data := TradeData {
  td_transaction_id : string;
  td_status : string;
  td_created : option Z;
  td_adds : list (string * string);
  td_drops : list (string * string);
  td_teams : list string
}.

(** An entry of the [waivers] and [add_drops] outputs.  [wd_stats] is
    [(total_points_after_pickup, games_started)], [None] for ['N/A']. *)
Record waiver_data := WaiverData {
  wd_transaction_id : string;
  wd_type : string;
  wd_status : string;
  wd_created : option Z;
  wd_team : string;
  wd_player_id : string;
  wd_player_name : string;
  wd_faab_bid : Z;
  wd_dropped_player_id : option string;
  wd_dropped_player_name : option string;
  wd_week : option Z;
  wd_stats : option (Z * Z);
  wd_year : option Z
}.

Record parsed := Parsed {
  trades : list trade_data;
  waivers : list waiver_data;
  add_drops : list waiver_data
}.

(** A row of [trade_analyses]: per team the players received and
    [(lineup points, bench points, starts)]. *)
Record trade_analysis := TradeAnalysis {
  ta_week : Z;
  ta_team1 : string;
  ta_team1_received : list string;
  ta_team1_stats : Z * Z * Z;
  ta_team2 : string;
  ta_team2_received : list string;
  ta_team2_stats : Z * Z * Z
}.

(** [d[k] = v] on a dictionary kept in insertion order. *)
Fixpoint dict_set {A} (k : string) (v : A) (d : list (string * A)) : list (string * A) :=
  match d with
  | [] => [(k, v)]
  | (k', v') :: d' =>
      if bool_decide (k' = k) then (k', v) :: d' else (k', v') :: dict_set k v d'
  end.

Definition allowed_status : list string := ["complete"; "approved"; "processed"].

(** Every entry of the three outputs carries an admitted status. *)
Definition all_admitted (out : parsed) : Prop :=
  Forall (λ td, td_status td ∈ allowed_status) (trades out)
  ∧ Forall (λ wd, wd_status wd ∈ allowed_status) (waivers out)
  ∧ Forall (λ wd, wd_status wd ∈ allowed_status) (add_drops out).

(** [if x:] for an optional string and for a string. *)
Definition nonempty (x : string) : bool := bool_decide (x ≠ "").

(** [list(s)] for a set of roster identifiers.  The order in which Python
    goes through a set is that of its hash table and no part of the
    language, so that any listing of the elements, each of them once, stands
    for it. *)
Record set_listing := SetListing {
  listed : gset Z → list Z;
  listed_perm : ∀ s, listed s ≡ₚ elements s
}.

(** The ascending listing.  CPython hashes a small integer to itself and
    goes through the slots of the table in order, which lists a set such as
    [{1, 2, 3}] in ascending order. *)
Definition ascending : set_listing :=
  {| listed := λ s, merge_sort Z.le (elements s);
     listed_perm := λ s, merge_sort_Permutation Z.le (elements s) |}.

Section Parser.

(** Collaborators of the parser that lie outside the core:
    the team-name lookup built from the users; the display name of an added
    or dropped player or defense in the waiver branch (a function of the
    identifier and the player catalog: ["IND DST"] for a defense, the full
    name or first and last name of the catalog, else ["Player <id>"]); the
    calendar: the whole days from September 4 of the year of a timestamp to
    that timestamp, [None] where the date arithmetic raises; the name of a
    player in the trade branch, which follows a rule of its own (the
    [full_name] of the catalog entry, else ["Player <id>"], also for a
    defense); and the listing of the set of rosters of a trade. *)
Variable user_lookup : gmap string string.
Variable display_name : string → string.
Variable days_since_start : Z → option Z.
Variable trade_player_name : string → string.
Variable roster_order : set_listing.

(** The week estimate shared by the parser and the trade analysis:
    [min((days_diff // 7) + 1, 18)] when [days_diff >= 0]. *)
Definition estimate_week (created : option Z) : option Z :=
  match created with
  | Some c =>
      if truthy created then
        match days_since_start c with
        | Some days_diff =>
            if 0 <=? days_diff then Some (Z.min (days_diff / 7 + 1) 18) else None
        | None => None
        end
      else None
  | None => None
  end.

(** [roster_to_user], from the rosters with a truthy id and owner. *)
Definition roster_to_user (rosters : list roster) : gmap Z string :=
  foldl (λ d ro,
           match owner_id ro with
           | Some owner =>
               if negb (roster_id ro =? 0) && nonempty owner
               then <[roster_id ro := owner]> d else d
           | None => d
           end) ∅ rosters.

Definition fallback_name (roster_id : Z) : string := "Team " +:+ pretty roster_id.

(** The team name of a roster in the parser. *)
Definition team_name (r2u : gmap Z string) (roster_id : Z) : string :=
  match r2u !! roster_id with
  | Some user_id =>
      if nonempty user_id
      then default (fallback_name roster_id) (user_lookup !! user_id)
      else fallback_name roster_id
  | None => fallback_name roster_id
  end.

(** The rosters a trade touches: the values of [adds] and [drops]. *)
Definition roster_ids (trans : transaction) : gset Z :=
  list_to_set ((adds trans).*2 ++ (drops trans).*2).

(** [for roster_id in list(roster_ids)[:2]]. *)
Definition team_names (r2u : gmap Z string) (trans : transaction) : list string :=
  team_name r2u <$> take 2 (listed roster_order (roster_ids trans)).

(** [adds_formatted] and [drops_formatted] of the trade branch. *)
Definition format_moves (r2u : gmap Z string) (moves : list (string * Z))
  : list (string * string) :=
  foldl (λ d mv, dict_set (trade_player_name mv.1) (team_name r2u mv.2) d) [] moves.

(** ['created': trans.get('created', 0)]: a transaction without a timestamp
    is stored with [0]. *)
Definition stored_created (trans : transaction) : option Z :=
  Some (default 0 (created trans)).

(** The trade branch; [None] is the [continue] on fewer than two rosters. *)
Definition parse_trade (r2u : gmap Z string) (trans : transaction)
  : option trade_data :=
  if bool_decide (size (roster_ids trans) < 2)%nat then None
  else Some {| td_transaction_id := transaction_id trans;
               td_status := status trans;
               td_created := stored_created trans;
               td_adds := format_moves r2u (adds trans);
               td_drops := format_moves r2u (drops trans);
               td_teams := team_names r2u trans |}.

(** The waiver branch: one entry per added player. *)
Definition parse_add (r2u : gmap Z string) (matchup_data : matchup_data_t)
    (season : option Z) (trans : transaction) (mv : string * Z) : waiver_data :=
  let week := estimate_week (created trans) in
  {| wd_transaction_id := transaction_id trans;
     wd_type := trans_type trans;
     wd_status := status trans;
     wd_created := stored_created trans;
     wd_team := team_name r2u mv.2;
     wd_player_id := mv.1;
     wd_player_name := display_name mv.1;
     wd_faab_bid := waiver_bid trans;
     wd_dropped_player_id := head (drops trans).*1;
     wd_dropped_player_name := display_name <$> head (drops trans).*1;
     wd_week := week;
     wd_stats := pickup_stats matchup_data season week mv.2 mv.1;
     wd_year := season |}.

(** Body of [for trans in transactions].  An empty transaction ([if not
    trans: continue]) has no status and stops at the status test as well. *)
Definition parse_step (r2u : gmap Z string) (matchup_data : matchup_data_t)
    (season : option Z) (out : parsed) (trans : transaction) : parsed :=
  if bool_decide (status trans ∈ allowed_status) then
    if bool_decide (trans_type trans = "trade") then
      match parse_trade r2u trans with
      | Some trade => {| trades := trades out ++ [trade];
                         waivers := waivers out; add_drops := add_drops out |}
      | None => out
      end
    else if bool_decide (trans_type trans ∈ ["waiver"; "free_agent"; "commissioner"]) then
      let entries := parse_add r2u matchup_data season trans <$> adds trans in
      if bool_decide (trans_type trans = "waiver") && (0 <? waiver_bid trans)
      then {| trades := trades out; waivers := waivers out ++ entries;
              add_drops := add_drops out |}
      else {| trades := trades out; waivers := waivers out;
              add_drops := add_drops out ++ entries |}
    else out
  else out.

Definition parse_sleeper_transactions (transactions : list transaction)
    (rosters : list roster) (matchup_data : matchup_data_t) (season : option Z)
  : parsed :=
  foldl (parse_step (roster_to_user rosters) matchup_data season)
        {| trades := []; waivers := []; add_drops := [] |} transactions.

(** [team_to_roster] of the trade analysis, from the same rosters. *)
Definition team_to_roster (rosters : list roster) : gmap string Z :=
  foldl (λ d ro,
           match owner_id ro with
           | Some owner =>
               if negb (roster_id ro =? 0) && nonempty owner
               then <[default (fallback_name (roster_id ro)) (user_lookup !! owner)
                      := roster_id ro]> d
               else d
           | None => d
           end) ∅ rosters.

(** [[p for p, t in moves.items() if t == team]]. *)
Definition moved_to (team : string) (moves : list (string * string)) : list string :=
  (filter (λ pt, pt.2 = team) moves).*1.

(** One iteration of the trade-analysis loop for a trade of the season whose
    snapshots are given; [None] is a [continue]. *)
Definition analyse_trade (matchup_data : matchup_data_t) (t2r : gmap string Z)
    (player_id_mapping : gmap string string) (trade : trade_data)
  : option trade_analysis :=
  match td_teams trade with
  | [team1; team2] =>
      match t2r !! team1, t2r !! team2 with
      | Some roster_id1, Some roster_id2 =>
          if (roster_id1 =? 0) || (roster_id2 =? 0) then None
          else
            match estimate_week (td_created trade) with
            | Some trade_week =>
                let team1_received := moved_to team1 (td_adds trade) in
                let team2_received := moved_to team2 (td_adds trade) in
                Some {| ta_week := trade_week;
                        ta_team1 := team1;
                        ta_team1_received := team1_received;
                        ta_team1_stats :=
                          calc_player_stats_after_trade matchup_data player_id_mapping
                            team1_received roster_id1 trade_week;
                        ta_team2 := team2;
                        ta_team2_received := team2_received;
                        ta_team2_stats :=
                          calc_player_stats_after_trade matchup_data player_id_mapping
                            team2_received roster_id2 trade_week |}
            | None => None
            end
      | _, _ => None
      end
  | _ => None
  end.

Definition trade_analyses (matchup_data : matchup_data_t) (t2r : gmap string Z)
    (player_id_mapping : gmap string string) (trades : list trade_data)
  : list trade_analysis :=
  omap (analyse_trade matchup_data t2r player_id_mapping) trades.

End Parser.

End Transactions.

(** ** Sample snapshots *)

Module Snapshots.

Import Attribution.

(** Roster 1 acquires player ["P"] in week 3.  Week 4: ["P"] starts and
    scores 20.  Week 5: ["P"] is on the bench with 8.  No later week has
    data for ["P"]. *)
Definition example_weeks : matchup_data_t :=
  {[ 4 := {[ 1 := TeamMatchup ["P"; "Q"] {[ "P" := 20; "Q" := 3 ]} ]};
     5 := {[ 1 := TeamMatchup ["Q"] {[ "P" := 8; "Q" := 11 ]} ]};
     6 := {[ 1 := TeamMatchup ["Q"] {[ "Q" := 7 ]} ]} ]}.

(** Week 4: ["P"] starts and scores minus two. *)
Definition negative_week : matchup_data_t :=
  {[ 4 := {[ 1 := TeamMatchup ["P"] {[ "P" := -2 ]} ]} ]}.

(** Week 3, the week of the transaction: ["P"] starts and scores 10. *)
Definition same_week : matchup_data_t :=
  {[ 3 := {[ 1 := TeamMatchup ["P"] {[ "P" := 10 ]} ]} ]}.

(** Week 4: ["P"] starts and scores nothing. *)
Definition scoreless_start : matchup_data_t :=
  {[ 4 := {[ 1 := TeamMatchup ["P"] {[ "P" := 0 ]} ]} ]}.

(** The player's name resolves to its identifier. *)
Definition names : gmap string string := {[ "Pat P" := "P" ]}.

End Snapshots.

(** ** Sample transactions *)

Module Ledger.

Import Seeds Attribution Transactions.

Definition users : gmap string string :=
  {[ "u1" := "Ann"; "u2" := "Bob"; "u3" := "Cy" ]}.

Definition rosters : list roster :=
  [Roster 1 (Some "u1") 0 0 0; Roster 2 (Some "u2") 0 0 0; Roster 3 (Some "u3") 0 0 0].

(** Names are the identifiers; every timestamp falls 14 days into the
    season, that is into week 3. *)
Definition plain_name (entity_id : string) : string := entity_id.
Definition day14 (created : Z) : option Z := Some 14.

(** A completed trade among three rosters: each sends one player on. *)
Definition three_team_trade : transaction :=
  Transaction "t1" "trade" "complete"
    [("p1", 1); ("p2", 2); ("p3", 3)] [("p1", 2); ("p2", 3); ("p3", 1)] 0 (Some 1000).

(** A waiver claim with a bid, once processed and once failed. *)
Definition claim (id st : string) : transaction :=
  Transaction id "waiver" st [("P", 1)] [] 7 (Some 1000).

Definition catalog : gmap string string :=
  {[ "p1" := "p1"; "p2" := "p2"; "p3" := "p3" ]}.

End Ledger.

(** ** The header of the history view and the bracket graphics *)

Module Header.

Import Seeds Bracket Consolation.

(** [max(xs, default=0)]: the largest element, [0] for no element. *)
Definition py_max0 (xs : list Z) : Z :=
  match xs with
  | [] => 0
  | x :: xs' => foldl Z.max x xs'
  end.

(** [max((m.get('r', 0) for m in winners_bracket), default=0)]. *)
Definition max_round (winners_bracket : list matchup) : Z :=
  py_max0 ((λ mt, default 0 (m_r mt)) <$> winners_bracket).

(** The record the header reads champion and runner-up from: among the
    records of the highest round the first one with a winner, else the
    first one; [None] when no round is positive. *)
Definition final_matchup (winners_bracket : list matchup) : option matchup :=
  if 0 <? max_round winners_bracket then
    match of_round (max_round winners_bracket) winners_bracket with
    | [] => None
    | first :: rest =>
        Some (default first (List.find (λ mt, truthy (m_w mt)) (first :: rest)))
    end
  else None.

(** [(champion, runner_up)], both ["TBD"] at the start. *)
Definition champions (winners_bracket : list matchup) (rosters : list roster)
    (user_lookup : gmap string string) : string * string :=
  match final_matchup winners_bracket with
  | Some fm => (default "TBD" (resolve_name rosters user_lookup (m_w fm)),
                default "TBD" (resolve_name rosters user_lookup (m_l fm)))
  | None => ("TBD", "TBD")
  end.

(** [sorted(rosters, key=lambda x: (wins, fpts), reverse=True)]: the stable
    descending sort of the rosters on wins, then whole points. *)
Definition place_lt (a b : roster) : bool :=
  (wins a <? wins b) || ((wins a =? wins b) && (fpts a <? fpts b)).

Fixpoint insert_place (x : roster) (l : list roster) : list roster :=
  match l with
  | [] => [x]
  | y :: l' => if place_lt x y then y :: insert_place x l' else x :: l
  end.

Definition sorted_rosters (rosters : list roster) : list roster :=
  foldr insert_place [] rosters.

(** [top_roster = sorted_rosters[0]], for a non-empty roster list. *)
Definition top_roster (rosters : list roster) : option roster :=
  head (sorted_rosters rosters).

(** [first_place_season]. *)
Definition first_place_season (rosters : list roster)
    (user_lookup : gmap string string) : string :=
  match top_roster rosters with
  | Some ro => owner_name user_lookup ro
  | None => "TBD"
  end.

(** One iteration of the loop that fills [display_toilet_bowl_rounds]:
    round 1 is copied, round 2 is split into the championship (shown as
    round 2) and the losers' game (shown as round 3), any other round is
    copied. *)
Definition display_step (tb_rounds : gmap Z (list matchup))
    (disp : gmap Z (list matchup)) (round_num : Z) : gmap Z (list matchup) :=
  let matchups := default [] (tb_rounds !! round_num) in
  if round_num =? 1 then <[round_num := matchups]> disp
  else if round_num =? 2 then
    let sets := round1_sets (default [] (tb_rounds !! 1)) in
    let sp := split_round2 sets.1 sets.2 matchups in
    let disp2 := match sp.1 with [] => disp | _ :: _ => <[2 := sp.1]> disp end in
    match sp.2 with [] => disp2 | _ :: _ => <[3 := sp.2]> disp2 end
  else <[round_num := matchups]> disp.

Definition display_toilet_bowl_rounds (tb_rounds : gmap Z (list matchup))
  : gmap Z (list matchup) :=
  foldl (display_step tb_rounds) ∅ (sorted_keys tb_rounds).

(** The rounds [create_bracket_html] draws: it builds the structured
    bracket and skips every round without a node. *)
Definition drawn_rounds (matchups_by_round : gmap Z (list matchup))
    (seed_map : gmap Z Z) : list (Z * list node) :=
  let sb := build_tournament_bracket matchups_by_round seed_map in
  filter (λ rn, rn.2 ≠ []) ((λ k, (k, round_nodes sb k)) <$> sorted_keys sb).

(** No record of the list has the seeds of a canonical first-round pair. *)
Definition no_canonical_pair (seed_map : gmap Z Z) (ms : list matchup) : Prop :=
  ∀ p mt, p ∈ expected_pairs → mt ∈ ms → pair_matches seed_map p mt = false.

End Header.


(** ** Reports over the parsed transactions *)

Module Reports.

Import Seeds Attribution Transactions.

(** The parser output of two feeds, one after the other. *)
Definition parsed_app (a b : parsed) : parsed :=
  {| trades := trades a ++ trades b;
     waivers := waivers a ++ waivers b;
     add_drops := add_drops a ++ add_drops b |}.

(** What one player of [players_list] adds in [calc_player_stats_after_trade]:
    nothing for a name that does not resolve, else the positive weeks from
    the trade week on. *)
Definition player_total (matchup_data : matchup_data_t)
    (player_id_mapping : gmap string string) (roster_id trade_week : Z)
    (player_name : string) : Z * Z * Z :=
  match player_id_mapping !! player_name with
  | Some player_id =>
      if bool_decide (player_id = "") then (0, 0, 0)
      else sum3 (positive_week matchup_data roster_id player_id <$> weeks_from trade_week)
  | None => (0, 0, 0)
  end.

(** [player_id = player_id_mapping.get(player_name)], [None] where the loop
    goes on to the next name ([if not player_id: continue]). *)
Definition resolved_id (player_id_mapping : gmap string string)
    (player_name : string) : option string :=
  match player_id_mapping !! player_name with
  | Some player_id => if bool_decide (player_id = "") then None else Some player_id
  | None => None
  end.

(** Componentwise order on [(lineup, bench, starts)]. *)
Definition le3 (a b : Z * Z * Z) : Prop :=
  a.1.1 ≤ b.1.1 ∧ a.1.2 ≤ b.1.2 ∧ a.2 ≤ b.2.

(** Numbers [(lineup, bench, starts)] none of which is negative, with a
    start exactly where there are lineup points. *)
Definition sound3 (a : Z * Z * Z) : Prop :=
  0 ≤ a.1.1 ∧ 0 ≤ a.1.2 ∧ 0 ≤ a.2 ∧ (0 < a.2 ↔ 0 < a.1.1).

(** *** Rosters and team names *)

(** [if roster_id and owner_id]: the rosters the two mappings are built from. *)
Definition owned (ro : roster) : bool :=
  match owner_id ro with
  | Some owner => negb (roster_id ro =? 0) && nonempty owner
  | None => false
  end.

(** [user_lookup.get(owner_id, f"Team {roster_id}")], the name a roster is
    listed under. *)
Definition listed_name (user_lookup : gmap string string) (ro : roster) : string :=
  default (fallback_name (roster_id ro)) (owner_id ro ≫= (user_lookup !!.)).

(** *** [transactions_combined.get_team_transaction_stats] *)

(** [team_stats[team]]: trades, free-agent pickups, total moves. *)
Record team_counts := TeamCounts {
  tc_trades : Z;
  tc_fa_pickups : Z;
  tc_total_moves : Z
}.

(** [if team not in team_stats: team_stats[team] = {0, 0, 0}], then the
    update of the entry. *)
Definition bump (f : team_counts → team_counts) (team : string)
    (team_stats : gmap string team_counts) : gmap string team_counts :=
  <[team := f (default (TeamCounts 0 0 0) (team_stats !! team))]> team_stats.

Definition add_trade (c : team_counts) : team_counts :=
  TeamCounts (tc_trades c + 1) (tc_fa_pickups c) (tc_total_moves c + 1).

Definition add_fa_pickup (c : team_counts) : team_counts :=
  TeamCounts (tc_trades c) (tc_fa_pickups c + 1) (tc_total_moves c + 1).

Definition add_move (c : team_counts) : team_counts :=
  TeamCounts (tc_trades c) (tc_fa_pickups c) (tc_total_moves c + 1).

(** The three loops, in the order of the source: trades, add/drops of type
    'free_agent', waivers. *)
Definition count_trades (trades : list trade_data)
    (team_stats : gmap string team_counts) : gmap string team_counts :=
  foldl (λ d trade, foldl (λ d' team, bump add_trade team d') d (td_teams trade))
        team_stats trades.

Definition count_fa_pickups (add_drops : list waiver_data)
    (team_stats : gmap string team_counts) : gmap string team_counts :=
  foldl (λ d add_drop,
           if bool_decide (wd_type add_drop = "free_agent")
           then bump add_fa_pickup (wd_team add_drop) d else d)
        team_stats add_drops.

Definition count_waivers (waivers : list waiver_data)
    (team_stats : gmap string team_counts) : gmap string team_counts :=
  foldl (λ d waiver, bump add_move (wd_team waiver) d) team_stats waivers.

Definition get_team_transaction_stats (trades : list trade_data)
    (waivers add_drops : list waiver_data) : gmap string team_counts :=
  count_waivers waivers (count_fa_pickups add_drops (count_trades trades ∅)).

(** How often a team is listed in the trades, how many free-agent pickups
    and how many waiver claims it has. *)
Definition trades_of (team : string) (trades : list trade_data) : Z :=
  Z.of_nat (length (filter (λ t, t = team) (concat (td_teams <$> trades)))).

Definition fa_pickups_of (team : string) (add_drops : list waiver_data) : Z :=
  Z.of_nat (length (filter (λ ad, wd_type ad = "free_agent" ∧ wd_team ad = team) add_drops)).

Definition waivers_of (team : string) (waivers : list waiver_data) : Z :=
  Z.of_nat (length (filter (λ w, wd_team w = team) waivers)).

(** The entry of a team with [nt] trades, [nf] free-agent pickups and [nw]
    waiver claims counted so far: no entry before the first of them. *)
Definition tally (team_stats : gmap string team_counts) (team : string)
    (nt nf nw : Z) : Prop :=
  0 ≤ nt ∧ 0 ≤ nf ∧ 0 ≤ nw
  ∧ team_stats !! team
    = if bool_decide (nt + nf + nw = 0) then None
      else Some (TeamCounts nt nf (nt + nf + nw)).

(** *** [transactions_combined.combine_transactions_across_years] *)

(** [waiver['year'] = year].  The entry is updated in place; the parser
    builds every entry anew, so that no entry is shared between two years
    and the update of one year is not seen in another. *)
Definition with_year (year : Z) (wd : waiver_data) : waiver_data :=
  {| wd_transaction_id := wd_transaction_id wd; wd_type := wd_type wd;
     wd_status := wd_status wd; wd_created := wd_created wd;
     wd_team := wd_team wd; wd_player_id := wd_player_id wd;
     wd_player_name := wd_player_name wd; wd_faab_bid := wd_faab_bid wd;
     wd_dropped_player_id := wd_dropped_player_id wd;
     wd_dropped_player_name := wd_dropped_player_name wd;
     wd_week := wd_week wd; wd_stats := wd_stats wd; wd_year := Some year |}.

(** The combined lists; a trade carries its year beside it. *)
Record combined := Combined {
  all_trades : list (Z * trade_data);
  all_waivers : list waiver_data;
  all_add_drops : list waiver_data
}.

(** Body of [for year, parsed in all_transactions.items()]. *)
Definition combine_step (acc : combined) (yp : Z * parsed) : combined :=
  {| all_trades := all_trades acc ++ ((λ t, (yp.1, t)) <$> trades yp.2);
     all_waivers := all_waivers acc ++ (with_year yp.1 <$> waivers yp.2);
     all_add_drops := all_add_drops acc ++ (with_year yp.1 <$> add_drops yp.2) |}.

(** [all_transactions] is a dictionary year -> parsed, gone through in
    insertion order: a list of pairs with pairwise different years. *)
Definition combine_transactions_across_years (all_transactions : list (Z * parsed))
  : combined :=
  foldl combine_step (Combined [] [] []) all_transactions.

(** *** [get_top_faab_pickups] and [get_top_faab_pickups_all_years] *)

(** [sorted(waivers, key=lambda x: x.get('faab_bid', 0), reverse=True)]. *)
Fixpoint insert_bid (x : waiver_data) (l : list waiver_data) : list waiver_data :=
  match l with
  | [] => [x]
  | y :: l' => if wd_faab_bid x <? wd_faab_bid y then y :: insert_bid x l' else x :: l
  end.

Definition sorted_waivers (waivers : list waiver_data) : list waiver_data :=
  foldr insert_bid [] waivers.

(** [l[:limit]] for an integer limit: a negative limit cuts from the end. *)
Definition py_prefix {A} (limit : Z) (l : list A) : list A :=
  if 0 <=? limit then take (Z.to_nat limit) l
  else take (length l - Z.to_nat (- limit)) l.

(** The pickups the table lists, in table order (an empty input returns an
    empty frame, as the loop over no entry does). *)
Definition get_top_faab_pickups (waivers : list waiver_data) (limit : Z)
  : list waiver_data :=
  py_prefix limit (sorted_waivers waivers).

(** *** [transactions_helper.parse_yahoo_transactions] *)

(** The fields of a Yahoo transaction the three outputs are decided on.
    [faab_bid] is [trans.get('faab_bid', 0) or 0]; the timestamp, which the
    source only formats into a date, is taken to be well formed and is left
    out together with the date and the players. *)
Record yahoo_transaction := YahooTransaction {
  y_transaction_key : string;
  y_type : string;
  y_status : string;
  y_faab_bid : Z;
  y_team_key : string;
  y_player_id : string;
  y_player_name : string
}.

Record yahoo_trade := YahooTrade {
  yt_transaction_id : string;
  yt_status : string
}.

Record yahoo_waiver := YahooWaiver {
  yw_transaction_id : string;
  yw_type : string;
  yw_status : string;
  yw_team : string;
  yw_player_id : string;
  yw_player_name : string;
  yw_faab_bid : Z
}.

Record yahoo_parsed := YahooParsed {
  y_trades : list yahoo_trade;
  y_waivers : list yahoo_waiver;
  y_add_drops : list yahoo_waiver
}.

Definition yahoo_trade_of (trans : yahoo_transaction) : yahoo_trade :=
  {| yt_transaction_id := y_transaction_key trans; yt_status := y_status trans |}.

(** [team_lookup.get(team_key, 'Unknown')]. *)
Definition yahoo_waiver_of (team_lookup : gmap string string)
    (trans : yahoo_transaction) : yahoo_waiver :=
  {| yw_transaction_id := y_transaction_key trans;
     yw_type := y_type trans;
     yw_status := y_status trans;
     yw_team := default "Unknown" (team_lookup !! y_team_key trans);
     yw_player_id := y_player_id trans;
     yw_player_name := y_player_name trans;
     yw_faab_bid := y_faab_bid trans |}.

Definition yahoo_step (team_lookup : gmap string string) (out : yahoo_parsed)
    (trans : yahoo_transaction) : yahoo_parsed :=
  if bool_decide (y_status trans ≠ "successful") then out
  else if bool_decide (y_type trans = "trade") then
    {| y_trades := y_trades out ++ [yahoo_trade_of trans];
       y_waivers := y_waivers out; y_add_drops := y_add_drops out |}
  else if bool_decide (y_type trans ∈ ["add"; "drop"; "add/drop"]) then
    if 0 <? y_faab_bid trans
    then {| y_trades := y_trades out;
            y_waivers := y_waivers out ++ [yahoo_waiver_of team_lookup trans];
            y_add_drops := y_add_drops out |}
    else {| y_trades := y_trades out; y_waivers := y_waivers out;
            y_add_drops := y_add_drops out ++ [yahoo_waiver_of team_lookup trans] |}
  else out.

Definition parse_yahoo_transactions (transactions : list yahoo_transaction)
    (team_lookup : gmap string string) : yahoo_parsed :=
  foldl (yahoo_step team_lookup) (YahooParsed [] [] []) transactions.

(** A successful add or drop of the Yahoo feed. *)
Definition yahoo_move (trans : yahoo_transaction) : Prop :=
  y_status trans = "successful" ∧ y_type trans ≠ "trade"
  ∧ y_type trans ∈ ["add"; "drop"; "add/drop"].

#[global] Instance yahoo_move_dec (trans : yahoo_transaction) :
  Decision (yahoo_move trans).
Proof. unfold yahoo_move. apply _. Defined.

End Reports.


(** * Properties *)

(** ** Seeding *)

Module SeedFacts.

Import Seeds.

Lemma key_lt_true a b :
  key_lt a b = true ↔
  s_wins a < s_wins b ∨ (s_wins a = s_wins b ∧ s_points a < s_points b).
Proof. unfold key_lt. lia. Qed.

Lemma key_lt_false a b :
  key_lt a b = false ↔
  s_wins b < s_wins a ∨ (s_wins b = s_wins a ∧ s_points b ≤ s_points a).
Proof. unfold key_lt. lia. Qed.

(** Where an entry lands: behind a prefix of strictly larger keys. *)
Lemma insert_desc_split x l :
  ∃ l1 l2, l = l1 ++ l2 ∧ insert_desc x l = l1 ++ x :: l2
           ∧ Forall (λ y, key_lt x y = true) l1.
Proof.
  induction l as [|y l IH]; simpl.
  - by exists [], [].
  - destruct (key_lt x y) eqn:Hxy.
    + destruct IH as (l1 & l2 & -> & -> & Hall).
      exists (y :: l1), l2. split_and!; [done..|by constructor].
    + by exists [], (y :: l).
Qed.

Lemma insert_desc_perm x l : insert_desc x l ≡ₚ x :: l.
Proof.
  destruct (insert_desc_split x l) as (l1 & l2 & -> & -> & _).
  by rewrite Permutation_middle.
Qed.

Lemma sort_desc_perm l : sort_desc l ≡ₚ l.
Proof.
  induction l as [|x l IH]; simpl; [done|].
  by rewrite insert_desc_perm, IH.
Qed.

Lemma insert_desc_sorted x l :
  StronglySorted (λ a b, key_lt a b = false) l →
  StronglySorted (λ a b, key_lt a b = false) (insert_desc x l).
Proof.
  induction 1 as [|y l Hs IH Hall]; simpl.
  - repeat constructor.
  - destruct (key_lt x y) eqn:Hxy.
    + constructor; [done|].
      rewrite insert_desc_perm. constructor; [|done].
      apply key_lt_true in Hxy. apply key_lt_false. lia.
    + constructor; [by constructor|].
      constructor; [done|].
      eapply Forall_impl; [exact Hall|]. intros z Hyz; simpl in Hyz.
      apply key_lt_false in Hxy, Hyz. apply key_lt_false. lia.
Qed.

(** The standings are in descending key order. *)
Lemma sort_desc_sorted l : StronglySorted (λ a b, key_lt a b = false) (sort_desc l).
Proof.
  induction l; simpl; [constructor|]. by apply insert_desc_sorted.
Qed.




Lemma NoDup_fmap_lookup_inj {A B} (g : A → B) (l : list A) i j a b :
  NoDup (g <$> l) → l !! i = Some a → l !! j = Some b → g a = g b → i = j.
Proof.
  intros Hnd Hi Hj Hg.
  eapply NoDup_lookup; [exact Hnd| |]; rewrite list_lookup_fmap.
  - by rewrite Hi.
  - rewrite Hj; simpl. by rewrite Hg.
Qed.

Lemma assign_seeds_notin idx teams (sm : gmap Z Z) id :
  id ∉ s_roster_id <$> teams → assign_seeds idx teams sm !! id = sm !! id.
Proof.
  revert idx sm. induction teams as [|t ts IH]; intros idx sm Hid; simpl; [done|].
  rewrite fmap_cons, not_elem_of_cons in Hid. destruct Hid as [Hne Hid].
  rewrite IH by done. by rewrite lookup_insert_ne.
Qed.

Lemma assign_seeds_lookup idx teams (sm : gmap Z Z) (k : nat) t :
  NoDup (s_roster_id <$> teams) → teams !! k = Some t →
  assign_seeds idx teams sm !! s_roster_id t = Some (idx + Z.of_nat k).
Proof.
  revert idx sm k. induction teams as [|u ts IH]; intros idx sm k Hnd Hk; [done|].
  rewrite fmap_cons in Hnd. apply NoDup_cons in Hnd as [Hu Hnd].
  destruct k as [|k]; simpl in *.
  - injection Hk as ->. rewrite assign_seeds_notin by done.
    rewrite lookup_insert_eq. f_equal. lia.
  - rewrite (IH _ _ k) by done. f_equal. lia.
Qed.

Section Season.

Variable rosters : list roster.
Hypothesis distinct_ids : NoDup (roster_id <$> rosters).

Lemma standings_ids_perm : s_roster_id <$> (standings rosters) ≡ₚ roster_id <$> rosters.
Proof.
  unfold standings. rewrite sort_desc_perm, <-list_fmap_compose. done.
Qed.

Lemma standings_NoDup : NoDup (s_roster_id <$> (standings rosters)).
Proof. by rewrite standings_ids_perm. Qed.

Lemma seeded_NoDup : NoDup (s_roster_id <$> take 12 (standings rosters)).
Proof.
  eapply sublist_NoDup; [exact standings_NoDup|].
  apply fmap_sublist, sublist_take.
Qed.

(** A roster's seed is its rank among the first twelve (standings rosters). *)
Lemma seed_lookup id s :
  get_playoff_seeds rosters !! id = Some s ↔
  ∃ (k : nat) t, take 12 (standings rosters) !! k = Some t ∧ s_roster_id t = id
                 ∧ s = 1 + Z.of_nat k.
Proof.
  unfold get_playoff_seeds. split.
  - intros Hs. destruct (decide (id ∈ s_roster_id <$> take 12 (standings rosters))) as [Hin|Hout].
    + apply list_elem_of_fmap in Hin as (t & -> & Ht).
      apply list_elem_of_lookup in Ht as [k Hk]. exists k, t.
      rewrite (assign_seeds_lookup _ _ _ k) in Hs by (exact seeded_NoDup || done).
      by injection Hs as <-.
    + rewrite assign_seeds_notin in Hs by done. done.
  - intros (k & t & Hk & <- & ->).
    by apply assign_seeds_lookup; [exact seeded_NoDup|].
Qed.

Lemma standing_of_roster ro k t :
  ro ∈ rosters → (standings rosters) !! k = Some t → s_roster_id t = roster_id ro →
  t = standing_of ro.
Proof.
  intros Hro Hk Hid.
  assert (standing_of ro ∈ (standings rosters)) as Hin.
  { unfold standings. rewrite sort_desc_perm. by apply list_elem_of_fmap_2. }
  apply list_elem_of_lookup in Hin as [k' Hk'].
  assert (k = k') as ->; [|congruence].
  by eapply (NoDup_fmap_lookup_inj s_roster_id (standings rosters)); [exact standings_NoDup|..].
Qed.

Lemma roster_rank ro :
  ro ∈ rosters → ∃ k : nat, (standings rosters) !! k = Some (standing_of ro)
                            ∧ (k < length rosters)%nat.
Proof.
  intros Hro.
  assert (standing_of ro ∈ (standings rosters)) as Hin.
  { unfold standings. rewrite sort_desc_perm. by apply list_elem_of_fmap_2. }
  apply list_elem_of_lookup in Hin as [k Hk]. exists k. split; [done|].
  apply lookup_lt_Some in Hk. unfold standings in Hk.
  by rewrite sort_desc_perm, length_fmap in Hk.
Qed.

Lemma standings_length : length (standings rosters) = length rosters.
Proof. unfold standings. by rewrite sort_desc_perm, length_fmap. Qed.

Lemma standings_sorted_lookup (i j : nat) x y :
  (i < j)%nat → (standings rosters) !! i = Some x → (standings rosters) !! j = Some y →
  key_lt x y = false.
Proof.
  intros Hij Hi Hj.
  pose proof (sort_desc_sorted (standing_of <$> rosters)) as Hs.
  fold (standings rosters) in Hs.
  rewrite <-(take_drop_middle _ _ _ Hi) in Hs.
  apply StronglySorted_app in Hs as (_ & _ & Hs).
  apply StronglySorted_cons in Hs as [Hall _].
  rewrite Forall_forall in Hall. apply Hall.
  apply list_elem_of_lookup. exists (j - S i)%nat.
  rewrite lookup_drop, <-Hj. f_equal. lia.
Qed.

(** The seed of a roster, through its rank in the (standings rosters). *)
Lemma roster_seed ro s :
  ro ∈ rosters →
  get_playoff_seeds rosters !! roster_id ro = Some s ↔
  ∃ k : nat, (standings rosters) !! k = Some (standing_of ro) ∧ (k < 12)%nat
             ∧ s = 1 + Z.of_nat k.
Proof.
  intros Hro. rewrite seed_lookup. split.
  - intros (k & t & [Hk Hlt]%lookup_take_Some & Hid & ->).
    exists k. split_and!; [|done..].
    by rewrite <-(standing_of_roster ro k t).
  - intros (k & Hk & Hlt & ->). exists k, (standing_of ro).
    split_and!; [|done..]. by rewrite lookup_take_lt.
Qed.

End Season.



(** C6, as stated, fails: in a league of thirteen the roster ranked last
    receives no seed. *)
Lemma seeds_not_total_beyond_twelve :
  ¬ seeds_bijective (league 13) (get_playoff_seeds (league 13)).
Proof.
  intros (Htotal & _).
  destruct (Htotal (Roster 13 None 0 100 0)) as (s & Hs & _).
  - apply list_elem_of_In. vm_compute. tauto.
  - vm_compute in Hs. discriminate.
Qed.

(** C6, amended. For a roster list of at most twelve rosters with pairwise
    distinct identifiers, the seed assignment is a bijection between the
    rosters and [1..N], [N] the roster count: every roster has a seed in
    that range, every seed of the range is taken, and no seed is shared. *)
Theorem seeds_bijective_up_to_twelve (rosters : list roster) :
  NoDup (roster_id <$> rosters) → (length rosters ≤ 12)%nat →
  seeds_bijective rosters (get_playoff_seeds rosters).
Proof.
  intros Hnd Hlen. split_and!.
  - intros ro Hro. destruct (roster_rank rosters ro Hro) as (k & Hk & Hlt).
    exists (1 + Z.of_nat k). split; [|lia].
    apply roster_seed; [done..|]. exists k. split_and!; [done|lia|done].
  - intros s Hs.
    destruct (lookup_lt_is_Some_2 (standings rosters) (Z.to_nat (s - 1))) as [t Ht].
    { rewrite standings_length. lia. }
    assert (t ∈ standing_of <$> rosters) as Hin.
    { rewrite <-sort_desc_perm. by eapply (list_elem_of_lookup_2 (standings rosters)). }
    apply list_elem_of_fmap in Hin as (ro & -> & Hro).
    exists ro. split; [done|]. apply roster_seed; [done..|].
    exists (Z.to_nat (s - 1)). split_and!; [done|lia|lia].
  - intros ro ro' s Hro Hro' Hs Hs'.
    apply roster_seed in Hs as (k & Hk & _ & ->); [|done..].
    apply roster_seed in Hs' as (k' & Hk' & _ & Heq); [|done..].
    assert (k' = k) as -> by lia.
    assert (roster_id ro = roster_id ro') as Hid.
    { assert (standing_of ro = standing_of ro') as E by congruence.
      by injection E. }
    apply list_elem_of_lookup in Hro as [i Hi], Hro' as [i' Hi'].
    assert (i = i') as -> by by eapply (NoDup_fmap_lookup_inj roster_id rosters).
    congruence.
Qed.

Lemma seeds_bijective_witness :
  NoDup (roster_id <$> league 12) ∧ (length (league 12) ≤ 12)%nat
  ∧ seeds_bijective (league 12) (get_playoff_seeds (league 12)).
Proof.
  assert (NoDup (roster_id <$> league 12)) as Hnd.
  { apply (bool_decide_unpack _). vm_compute. exact I. }
  assert (length (league 12) ≤ 12)%nat as Hlen.
  { apply (bool_decide_unpack _). vm_compute. exact I. }
  exact (conj Hnd (conj Hlen (seeds_bijective_up_to_twelve _ Hnd Hlen))).
Defined.

End SeedFacts.

(** ** Championship bracket *)

Module BracketFacts.

Import Bracket Samples.

Lemma pair_matches_spec sm p mt :
  pair_matches sm p mt = true ↔ seeds_equal_pair sm p mt.
Proof.
  unfold pair_matches, seeds_equal_pair, seed_is.
  rewrite orb_true_iff, !andb_true_iff, !bool_decide_eq_true. done.
Qed.

Lemma find_pair_None sm p ms :
  find_pair sm p ms = None ↔ ∀ mt, mt ∈ ms → ¬ seeds_equal_pair sm p mt.
Proof.
  unfold find_pair. induction ms as [|x ms IH]; simpl.
  - split; [|done]. by intros _ mt ?%elem_of_nil.
  - destruct (pair_matches sm p x) eqn:Hx.
    + split; [done|]. intros H. exfalso.
      apply (H x); [by left|]. by apply pair_matches_spec.
    + rewrite IH. split.
      * intros H mt [->|Hin]%elem_of_cons; [|by apply H].
        rewrite <-pair_matches_spec. congruence.
      * intros H mt Hin. apply H. by right.
Qed.

Lemma find_pair_Some sm p ms mt :
  find_pair sm p ms = Some mt ↔
  ∃ pre post, ms = pre ++ mt :: post
              ∧ (∀ x, x ∈ pre → ¬ seeds_equal_pair sm p x)
              ∧ seeds_equal_pair sm p mt.
Proof.
  unfold find_pair. induction ms as [|x ms IH]; simpl.
  - split; [done|]. by intros ([|??] & ? & ? & _).
  - destruct (pair_matches sm p x) eqn:Hx.
    + split.
      * intros [= ->]. exists [], ms. split_and!; [done| |by apply pair_matches_spec].
        by intros ? ?%elem_of_nil.
      * intros (pre & post & Heq & Hpre & Hmt).
        destruct pre as [|y pre]; simplify_eq/=; [done|].
        exfalso. apply (Hpre y); [by left|]. by apply pair_matches_spec.
    + rewrite IH. split.
      * intros (pre & post & -> & Hpre & Hmt). exists (x :: pre), post.
        split_and!; [done| |done].
        intros y [->|Hin]%elem_of_cons; [|by apply Hpre].
        rewrite <-pair_matches_spec. congruence.
      * intros (pre & post & Heq & Hpre & Hmt).
        destruct pre as [|y pre]; simplify_eq/=.
        { apply pair_matches_spec in Hmt. congruence. }
        exists pre, post. split_and!; [done| |done].
        intros z Hz. apply Hpre. by right.
Qed.

(** The found record is normalised: team1 holds the first seed of the pair. *)
Lemma round1_node_normalised sm p mt :
  p.1 ≠ p.2 → seeds_equal_pair sm p mt →
  let nd := round1_node sm p mt in
  seed_get sm (team1_id nd) = Some p.1 ∧ seed_get sm (team2_id nd) = Some p.2
  ∧ team1_seed nd = p.1 ∧ team2_seed nd = p.2
  ∧ winner_id nd = m_w mt ∧ matchup_id nd = m_m mt
  ∧ ((team1_id nd = m_t1 mt ∧ team2_id nd = m_t2 mt)
     ∨ (team1_id nd = m_t2 mt ∧ team2_id nd = m_t1 mt)).
Proof.
  intros Hne Heq. unfold round1_node, seed_is. case_bool_decide as H1; simpl.
  - destruct Heq as [[_ H2]|[H2 _]]; [|congruence]. naive_solver.
  - destruct Heq as [[H2 _]|[H2 H3]]; [done|]. naive_solver.
Qed.

Lemma slot_for_find sm ms p :
  p.1 ≠ p.2 → slot_for sm ms p (round1_node sm p <$> find_pair sm p ms).
Proof.
  intros Hne. destruct (find_pair sm p ms) as [mt|] eqn:Hf; simpl.
  - apply find_pair_Some in Hf as (pre & post & -> & Hpre & Hmt).
    exists pre, mt, post. do 3 (split; [done|]).
    by apply round1_node_normalised.
  - by apply find_pair_None.
Qed.

(** The round-1 nodes: per canonical pair the node of the found record, and
    nothing for a pair without a record. *)
Lemma round1_nodes sm ms rw :
  (process_round sm 1 ms rw).1
  = resolved ((λ p, round1_node sm p <$> find_pair sm p ms) <$> expected_pairs).
Proof.
  unfold process_round, expected_pairs, resolved, round1_step. simpl.
  by repeat (destruct (find_pair sm _ ms); simpl).
Qed.

(** The nodes of a later round: the records that pass the gate, in order. *)
Lemma later_nodes sm k prev ms st :
  (foldl (later_step sm k prev) st ms).1
  = st.1 ++ (later_node sm <$>
             filter (λ mt, in_list (m_t1 mt) prev && in_list (m_t2 mt) prev) ms).
Proof.
  revert st. induction ms as [|mt ms IH]; intros st; simpl.
  - by rewrite app_nil_r.
  - rewrite IH. unfold later_step. rewrite filter_cons.
    destruct (in_list (m_t1 mt) prev && in_list (m_t2 mt) prev); simpl.
    + by rewrite <-app_assoc.
    + done.
Qed.

(** A record enters a round after the first only when both its rosters are
    among the recorded winners of the round before. *)
Lemma later_round_gate sm k ms rw nd :
  k ≠ 1 → nd ∈ (process_round sm k ms rw).1 →
  ∃ mt, mt ∈ ms ∧ nd = later_node sm mt
        ∧ in_list (m_t1 mt) (prev_winners rw k) = true
        ∧ in_list (m_t2 mt) (prev_winners rw k) = true.
Proof.
  intros Hk. unfold process_round.
  rewrite (proj2 (Z.eqb_neq k 1)) by done.
  rewrite later_nodes. simpl.
  intros (mt & -> & [Hg Hin]%list_elem_of_filter)%list_elem_of_fmap.
  apply Is_true_true, andb_true_iff in Hg as [??]. by exists mt.
Qed.

Lemma sorted_keys_NoDup {A} (d : gmap Z A) : NoDup (sorted_keys d).
Proof. unfold sorted_keys. rewrite merge_sort_Permutation. apply NoDup_elements. Qed.

Lemma elem_of_sorted_keys {A} (d : gmap Z A) k : k ∈ sorted_keys d ↔ is_Some (d !! k).
Proof.
  unfold sorted_keys. by rewrite merge_sort_Permutation, elem_of_elements, elem_of_dom.
Qed.

Lemma build_fold_other mbr sm ks acc k :
  k ∉ ks → (foldl (round_step mbr sm) acc ks).1 !! k = acc.1 !! k.
Proof.
  revert acc. induction ks as [|r ks IH]; intros acc Hk; simpl; [done|].
  apply not_elem_of_cons in Hk as [Hne Hk]. rewrite IH by done.
  unfold round_step; simpl. by rewrite lookup_insert_ne.
Qed.

Lemma build_fold_round mbr sm ks acc k :
  NoDup ks → k ∈ ks →
  ∃ rw, (foldl (round_step mbr sm) acc ks).1 !! k
        = Some (process_round sm k (default [] (mbr !! k)) rw).1.
Proof.
  revert acc. induction ks as [|r ks IH]; intros acc Hnd Hk; [by apply elem_of_nil in Hk|].
  apply NoDup_cons in Hnd as [Hr Hnd]. simpl.
  apply elem_of_cons in Hk as [->|Hk]; [|by apply IH].
  exists acc.2. rewrite build_fold_other by done.
  unfold round_step; simpl. by rewrite lookup_insert_eq.
Qed.

(** Every round of the input is a round of the result, built by one
    iteration of the loop. *)
Lemma build_round mbr sm k ms :
  mbr !! k = Some ms →
  ∃ rw, build_tournament_bracket mbr sm !! k = Some (process_round sm k ms rw).1.
Proof.
  intros Hk. unfold build_tournament_bracket, build_state.
  destruct (build_fold_round mbr sm (sorted_keys mbr) (∅, ∅) k) as [rw Hrw].
  - apply sorted_keys_NoDup.
  - apply elem_of_sorted_keys. by rewrite Hk.
  - exists rw. by rewrite Hrw, Hk.
Qed.

(** *** What the gate guarantees *)

Lemma elem_of_prev_winners rw k v :
  v ∈ prev_winners rw k ↔ ∃ mid, default ∅ (rw !! (k - 1)) !! mid = Some v.
Proof.
  unfold prev_winners. rewrite list_elem_of_fmap. split.
  - intros ([mid v'] & -> & Hin%elem_of_map_to_list). by exists mid.
  - intros [mid Hmid]. exists (mid, v). split; [done|]. by apply elem_of_map_to_list.
Qed.

Lemma in_list_spec x l : in_list x l = true ↔ ∃ v, x = Some v ∧ v ∈ l.
Proof.
  destruct x as [v|]; simpl.
  - rewrite bool_decide_eq_true. split; [by exists v|]. by intros (? & [= <-] & ?).
  - split; [done|]. by intros (? & ? & _).
Qed.

Lemma record_winner_other r r' mt rw :
  r' ≠ r → record_winner r mt rw !! r' = rw !! r'.
Proof.
  intros Hne. unfold record_winner. destruct (m_w mt); [|done].
  destruct (truthy _); [|done]. by rewrite lookup_insert_ne.
Qed.

Lemma record_winner_same r mt rw mid v :
  default ∅ (record_winner r mt rw !! r) !! mid = Some v →
  m_w mt = Some v ∨ default ∅ (rw !! r) !! mid = Some v.
Proof.
  unfold record_winner. destruct (m_w mt) as [win|]; [|by right].
  destruct (truthy _); [|by right].
  rewrite lookup_insert_eq. simpl.
  destruct (decide (m_m mt = mid)) as [->|Hne].
  - rewrite lookup_insert_eq. intros [= ->]. by left.
  - rewrite lookup_insert_ne by done. by right.
Qed.

Lemma round_inv_push r rw st nd mt :
  winner_id nd = m_w mt → round_inv r rw st →
  round_inv r rw (st.1 ++ [nd], record_winner r mt st.2).
Proof.
  intros Hw [Ho Hs]. split; simpl.
  - intros r' Hne. by rewrite record_winner_other, Ho.
  - intros mid v [Hv|Hv]%record_winner_same.
    + exists nd. split; [|congruence]. apply elem_of_app. right. by left.
    + destruct (Hs _ _ Hv) as (nd' & ? & ?). exists nd'. split; [|done].
      apply elem_of_app. by left.
Qed.

Lemma process_round_inv sm r ms rw :
  rw !! r = None → round_inv r rw (process_round sm r ms rw).
Proof.
  intros Hfresh.
  assert (round_inv r rw ([], rw)) as H0.
  { split; [done|]. simpl. rewrite Hfresh. simpl. intros mid v. by rewrite lookup_empty. }
  unfold process_round. destruct (r =? 1).
  - revert H0. generalize ([] : list node, rw). generalize expected_pairs.
    intros ps. induction ps as [|p ps IH]; intros st Hst; simpl; [done|].
    apply IH. unfold round1_step.
    destruct (find_pair sm p ms) as [mt|]; [|done].
    apply round_inv_push; [|done]. unfold round1_node. by destruct (seed_is _ _ _).
  - revert H0. generalize ([] : list node, rw).
    induction ms as [|mt ms IH]; intros st Hst; simpl; [done|].
    apply IH. unfold later_step.
    destruct (in_list _ _ && in_list _ _); [|done].
    by apply round_inv_push.
Qed.

Lemma round_nodes_insert (sb : gmap Z (list node)) r nds k :
  round_nodes (<[r := nds]> sb) k = if decide (r = k) then nds else round_nodes sb k.
Proof.
  unfold round_nodes. case_decide as Hk.
  - subst. by rewrite lookup_insert_eq.
  - by rewrite lookup_insert_ne.
Qed.

Lemma round_nodes_is_Some (sb : gmap Z (list node)) k nd :
  nd ∈ round_nodes sb k → is_Some (sb !! k).
Proof.
  unfold round_nodes. destruct (sb !! k); [by eexists|].
  by intros ?%elem_of_nil.
Qed.

Lemma won_in_insert_ne (sb : gmap Z (list node)) r nds k x :
  r ≠ k → won_in sb k x → won_in (<[r := nds]> sb) k x.
Proof.
  intros Hne (nd & Hnd & Hw). exists nd. split; [|done].
  by rewrite round_nodes_insert, decide_False.
Qed.

(** The loop over ascending rounds keeps the gate's guarantee. *)
Lemma build_fold_advance mbr sm ks acc :
  StronglySorted Z.lt ks →
  (∀ r, r ∈ ks → acc.2 !! r = None) →
  (∀ r r', is_Some (acc.1 !! r) → r' ∈ ks → r < r') →
  winners_recorded acc → winners_advance acc.1 →
  winners_advance (foldl (round_step mbr sm) acc ks).1.
Proof.
  revert acc. induction ks as [|r ks IH]; intros acc Hsort Hfresh Hlt Hrec Hadv; [done|].
  apply StronglySorted_cons in Hsort as [Hr Hsort]. rewrite Forall_forall in Hr.
  simpl. destruct acc as [sb rw]. simpl in *.
  assert (rw !! r = None) as Hrfresh by (apply Hfresh; by left).
  pose proof (process_round_inv sm r (default [] (mbr !! r)) rw Hrfresh) as [Ho Hs].
  apply IH; unfold round_step; simpl.
  - done.
  - intros r' Hr'. rewrite Ho; [apply Hfresh; by right|].
    specialize (Hr _ Hr'). lia.
  - intros q r' [nds Hq] Hr'. destruct (decide (r = q)) as [<-|Hne]; [by apply Hr|].
    rewrite lookup_insert_ne in Hq by done.
    apply (Hlt q); [by eexists|by right].
  - intros q mid v Hv. cbn [fst snd] in *. destruct (decide (q = r)) as [->|Hne].
    + destruct (Hs _ _ Hv) as (nd & Hnd & Hw). exists nd.
      split; [|done]. by rewrite round_nodes_insert, decide_True.
    + rewrite Ho in Hv by done. apply won_in_insert_ne; [done|]. by apply (Hrec q mid).
  - intros k x nd Hk Hnd Hx. cbn [fst snd] in *. rewrite round_nodes_insert in Hnd.
    case_decide as Hrk.
    + subst k. apply won_in_insert_ne; [lia|].
      apply later_round_gate in Hnd as (mt & _ & -> & H1 & H2); [|done].
      assert (x ∈ prev_winners rw r) as Hprev.
      { destruct Hx as [Hx|Hx]; simpl in Hx;
          [apply in_list_spec in H1 as (v & Hv & ?)|apply in_list_spec in H2 as (v & Hv & ?)];
          congruence. }
      apply elem_of_prev_winners in Hprev as [mid Hmid]. by apply (Hrec (r - 1) mid).
    + apply won_in_insert_ne; [|by apply (Hadv k x nd)].
      intros ->. apply round_nodes_is_Some in Hnd.
      assert (k < k - 1) by (apply Hlt; [done|by left]). lia.
Qed.

Lemma sorted_keys_ascending {A} (d : gmap Z A) : StronglySorted Z.lt (sorted_keys d).
Proof.
  pose proof (sorted_keys_NoDup d) as Hnd.
  assert (StronglySorted Z.le (sorted_keys d)) as Hs.
  { unfold sorted_keys. apply StronglySorted_merge_sort; apply _. }
  induction Hs as [|k ks Hs IH Hall]; [constructor|].
  apply NoDup_cons in Hnd as [Hk Hnd]. constructor; [by apply IH|].
  rewrite Forall_forall in Hall |- *. intros r Hr.
  specialize (Hall _ Hr). assert (r ≠ k) by (by intros ->). lia.
Qed.

(** For every feed, with stray or duplicate records or not: a roster takes
    part in a round after the first only as a recorded winner of a node of
    the round before. *)
Lemma later_participants_won_previous_round mbr sm :
  winners_advance (build_tournament_bracket mbr sm).
Proof.
  unfold build_tournament_bracket, build_state.
  apply build_fold_advance.
  - apply sorted_keys_ascending.
  - intros. apply lookup_empty.
  - intros r r' [? Hr]. simpl in Hr. by rewrite lookup_empty in Hr.
  - intros r mid v. simpl. rewrite lookup_empty. simpl. by rewrite lookup_empty.
  - intros k x nd _ Hnd. unfold round_nodes in Hnd. simpl in Hnd.
    rewrite lookup_empty in Hnd. by apply elem_of_nil in Hnd.
Qed.

(** C2, as stated, fails: a feed with the 1v8 record alone yields one
    round-1 node, the resolved one, and no slot for the three other pairs. *)
Lemma partial_round1_has_one_slot :
  round_nodes (resolve_championship (seeds_upto 8) only_1v8) 1
  = [Node (Some 1) (Some 8) 1 8 (Some 1) (Some 1)]
  ∧ length (round_nodes (resolve_championship (seeds_upto 8) only_1v8) 1) ≠ 4%nat.
Proof. split; [by vm_compute|]. vm_compute. lia. Qed.

(** C2, amended. Round 1 of the championship bracket goes through the pairs
    (1v8), (4v5), (2v7), (3v6) in this order: for each pair with a round-1
    record whose two rosters hold the seeds of the pair in either order, the
    first such record gives one node, normalised so that team1 is the
    roster of the lower seed; a pair without such a record gives no node (the
    pairing is left out, nothing is made up).  The round-1 list is the list
    of the resolved pairings in canonical order. *)
Theorem round1_pairings_canonical
    (matchups_by_round : gmap Z (list matchup)) (seed_map : gmap Z Z)
    (matchups : list matchup) :
  matchups_by_round !! 1 = Some matchups →
  ∃ s18 s45 s27 s36 : option node,
    build_tournament_bracket matchups_by_round seed_map !! 1
      = Some (resolved [s18; s45; s27; s36])
    ∧ slot_for seed_map matchups (1, 8) s18
    ∧ slot_for seed_map matchups (4, 5) s45
    ∧ slot_for seed_map matchups (2, 7) s27
    ∧ slot_for seed_map matchups (3, 6) s36.
Proof.
  intros H1. destruct (build_round _ seed_map _ _ H1) as [rw ->].
  rewrite round1_nodes. unfold expected_pairs. simpl.
  eexists _, _, _, _. split; [reflexivity|].
  split_and!; by apply slot_for_find.
Qed.

(** The feed with the 1v8 record alone: one resolved pairing. *)
Lemma round1_pairings_witness :
  group_by_round only_1v8 !! 1 = Some only_1v8
  ∧ ∃ s18 s45 s27 s36 : option node,
      build_tournament_bracket (group_by_round only_1v8) (seeds_upto 8) !! 1
        = Some (resolved [s18; s45; s27; s36])
      ∧ slot_for (seeds_upto 8) only_1v8 (1, 8) s18
      ∧ slot_for (seeds_upto 8) only_1v8 (4, 5) s45
      ∧ slot_for (seeds_upto 8) only_1v8 (2, 7) s27
      ∧ slot_for (seeds_upto 8) only_1v8 (3, 6) s36.
Proof.
  assert (group_by_round only_1v8 !! 1 = Some only_1v8) as H by (vm_compute; reflexivity).
  split; [exact H|].
  exact (round1_pairings_canonical _ (seeds_upto 8) _ H).
Defined.

(** C1 at a feed with a stray round-2 record.  Roster 4 loses its semifinal
    to roster 1; the stray record (4 beats 2) puts it among the round-2
    winners all the same, so the round-3 record between 1 and 4 passes the
    gate: a roster that lost in round 2 takes part in round 3. *)
Theorem stray_record_returns_loser :
  let sb := resolve_championship (seeds_upto 8) stray_feed in
  round_nodes sb 2
  = [Node (Some 1) (Some 4) 1 4 (Some 1) (Some 5);
     Node (Some 2) (Some 3) 2 3 (Some 2) (Some 6);
     Node (Some 4) (Some 2) 4 2 (Some 4) (Some 7)]
  ∧ round_nodes sb 3 = [Node (Some 1) (Some 4) 1 4 (Some 1) (Some 8)]
  ∧ ¬ losers_never_return sb.
Proof.
  set (sb := resolve_championship (seeds_upto 8) stray_feed).
  assert (round_nodes sb 2
          = [Node (Some 1) (Some 4) 1 4 (Some 1) (Some 5);
             Node (Some 2) (Some 3) 2 3 (Some 2) (Some 6);
             Node (Some 4) (Some 2) 4 2 (Some 4) (Some 7)]) as H2
    by (vm_compute; reflexivity).
  assert (round_nodes sb 3 = [Node (Some 1) (Some 4) 1 4 (Some 1) (Some 8)]) as H3
    by (vm_compute; reflexivity).
  split_and!; [done..|].
  intros Hinv.
  apply (Hinv 2 3 4 (Node (Some 1) (Some 4) 1 4 (Some 1) (Some 5))
              (Node (Some 1) (Some 4) 1 4 (Some 1) (Some 8))).
  - lia.
  - rewrite H2. by left.
  - split_and!; [by right|done|done].
  - rewrite H3. by left.
  - by right.
Qed.

End BracketFacts.

(** ** Consolation tiers *)

Module ConsolationFacts.

Import Seeds Consolation Samples.

Lemma in_range_spec lo hi s : in_range lo hi s = true ↔ lo ≤ s ≤ hi.
Proof. unfold in_range. lia. Qed.

Lemma is_toilet_bowl_spec sm mt :
  is_toilet_bowl sm mt ↔
  9 ≤ seed_get0 sm (m_t1 mt) ≤ 12 ∧ 9 ≤ seed_get0 sm (m_t2 mt) ≤ 12.
Proof.
  unfold is_toilet_bowl. by rewrite Is_true_true, andb_true_iff, !in_range_spec.
Qed.

Lemma is_consolation_spec sm mt :
  is_consolation sm mt ↔
  5 ≤ seed_get0 sm (m_t1 mt) ≤ 8 ∧ 5 ≤ seed_get0 sm (m_t2 mt) ≤ 8.
Proof.
  unfold is_consolation. by rewrite Is_true_true, andb_true_iff, !in_range_spec.
Qed.

(** *** Grouping by round *)

Lemma group_fold_members lb (d : gmap Z (list matchup)) mt :
  in_rounds mt (foldl group_step d lb) ↔ in_rounds mt d ∨ mt ∈ lb.
Proof.
  revert d. induction lb as [|x lb IH]; intros d; simpl.
  - rewrite elem_of_nil. tauto.
  - rewrite IH, elem_of_cons. unfold group_step, in_rounds. split.
    + intros [(k & ms & Hk & Hin)|?]; [|tauto].
      destruct (decide (default 0 (m_r x) = k)) as [<-|Hne].
      * rewrite lookup_insert_eq in Hk. injection Hk as <-.
        apply elem_of_app in Hin as [Hin|Hin%list_elem_of_singleton]; [|tauto].
        left. destruct (d !! default 0 (m_r x)) as [ms'|] eqn:Hd; simpl in Hin;
          [|by apply elem_of_nil in Hin].
        by exists (default 0 (m_r x)), ms'.
      * rewrite lookup_insert_ne in Hk by done. left. by exists k, ms.
    + intros [(k & ms & Hk & Hin)|[->|?]]; [| |tauto].
      * left. destruct (decide (default 0 (m_r x) = k)) as [<-|Hne].
        -- eexists _, _. rewrite lookup_insert_eq.
           split; [done|]. rewrite Hk. apply elem_of_app. by left.
        -- exists k, ms. by rewrite lookup_insert_ne.
      * left. eexists _, _. rewrite lookup_insert_eq.
        split; [done|]. apply elem_of_app. right. by left.
Qed.

(** The records of the rounds of a grouped feed are the records of the feed. *)
Lemma group_members lb mt : in_rounds mt (group_by_round lb) ↔ mt ∈ lb.
Proof.
  unfold group_by_round. rewrite group_fold_members. split; [|tauto].
  intros [(k & ms & Hk & _)|?]; [|done]. by rewrite lookup_empty in Hk.
Qed.

Lemma in_rounds_insert mt k ms (d : gmap Z (list matchup)) :
  in_rounds mt (<[k := ms]> d) → mt ∈ ms ∨ in_rounds mt d.
Proof.
  intros (k' & ms' & Hk & Hin). destruct (decide (k = k')) as [->|Hne].
  - rewrite lookup_insert_eq in Hk. injection Hk as <-. by left.
  - rewrite lookup_insert_ne in Hk by done. right. by exists k', ms'.
Qed.

(** *** The middle tier *)

Lemma consolation_fold_members sm (all : gmap Z (list matchup)) ks d mt :
  NoDup ks → (∀ k, k ∈ ks → d !! k = None) →
  in_rounds mt (foldl (consolation_step sm all) d ks) ↔
  in_rounds mt d
  ∨ ∃ k ms, k ∈ ks ∧ all !! k = Some ms ∧ mt ∈ ms ∧ is_consolation sm mt.
Proof.
  revert d. induction ks as [|r ks IH]; intros d Hnd Hfresh; simpl.
  - split; [tauto|]. intros [?|(k & ? & ?%elem_of_nil & _)]; done.
  - apply NoDup_cons in Hnd as [Hr Hnd].
    remember (filter (λ mt, is_consolation sm mt) (default [] (all !! r))) as f eqn:Ef.
    assert (∀ x, x ∈ f ↔ ∃ ms, all !! r = Some ms ∧ x ∈ ms ∧ is_consolation sm x) as Hf.
    { intros x. rewrite Ef, list_elem_of_filter.
      destruct (all !! r) as [ms|]; simpl.
      - split; [intros [??]; by exists ms|]. by intros (? & [= <-] & ? & ?).
      - rewrite elem_of_nil. split; [tauto|]. by intros (? & ? & _). }
    assert (consolation_step sm all d r = if decide (f = []) then d else <[r := f]> d)
      as Hstep.
    { unfold consolation_step. rewrite <-Ef. by destruct f. }
    clear Ef. rewrite Hstep. clear Hstep.
    destruct (decide (f = [])) as [Hnil|Hcons].
    + rewrite IH; [|done|intros; apply Hfresh; by right].
      split; [intros [?|(k & ms & ? & ? & ? & ?)]; [by left|]|].
      * right. exists k, ms. split_and!; [by right|done..].
      * intros [?|(k & ms & [->|Hk]%elem_of_cons & Hall & Hin & Hc)]; [by left| |].
        -- assert (mt ∈ f) as Hmt by (apply Hf; by exists ms).
           rewrite Hnil in Hmt. by apply elem_of_nil in Hmt.
        -- right. by exists k, ms.
    + rewrite IH; [|done|].
      2:{ intros k Hk. rewrite lookup_insert_ne by (by intros ->). apply Hfresh. by right. }
      split.
      * intros [[Hin|Hin]%in_rounds_insert|(k & ms & Hk & Hall & Hin & Hc)].
        -- apply Hf in Hin as (ms & ? & ? & ?).
           right. exists r, ms. split_and!; [by left|done..].
        -- by left.
        -- right. exists k, ms. split_and!; [by right|done..].
      * intros [(k & ms & Hk & Hin)|(k & ms & [->|Hk]%elem_of_cons & Hall & Hin & Hc)].
        -- left. exists k, ms. split; [|done].
           rewrite lookup_insert_ne; [done|]. intros ->.
           rewrite Hfresh in Hk; [done|by left].
        -- left. exists r, f. rewrite lookup_insert_eq. split; [done|].
           apply Hf. by exists ms.
        -- right. by exists k, ms.
Qed.

(** The middle tier holds the records of the feed with both seeds in 5..8,
    and nothing else. *)
Lemma consolation_members sm lb mt :
  in_rounds mt (consolation_rounds_dict sm lb) ↔ mt ∈ lb ∧ is_consolation sm mt.
Proof.
  unfold consolation_rounds_dict.
  rewrite consolation_fold_members;
    [|apply BracketFacts.sorted_keys_NoDup|intros; apply lookup_empty].
  rewrite <-group_members. split.
  - intros [(k & ms & Hk & _)|(k & ms & _ & Hk & Hin & Hc)].
    + by rewrite lookup_empty in Hk.
    + split; [by exists k, ms|done].
  - intros [(k & ms & Hk & Hin) Hc]. right. exists k, ms.
    split_and!; [|done..]. apply BracketFacts.elem_of_sorted_keys. by rewrite Hk.
Qed.

(** *** The lower tier *)

Lemma ordered_round1_subset sm tb mt : mt ∈ ordered_round1 sm tb → mt ∈ tb.
Proof.
  unfold ordered_round1. rewrite list_elem_of_omap.
  intros (p & _ & Hf). apply BracketFacts.find_pair_Some in Hf as (pre & post & -> & _).
  set_solver.
Qed.

Lemma split_round2_spec W L round2 :
  split_round2 W L round2
  = (filter (λ mt, both_in W mt) round2,
     filter (λ mt, ¬ both_in W mt ∧ both_in L mt) round2).
Proof.
  unfold split_round2.
  enough (∀ acc, foldl (split_step W L) acc round2
                 = (acc.1 ++ filter (λ mt, both_in W mt) round2,
                    acc.2 ++ filter (λ mt, ¬ both_in W mt ∧ both_in L mt) round2)) as H
    by by rewrite H.
  induction round2 as [|mt ms IH]; intros [a b]; simpl.
  - by rewrite !app_nil_r.
  - rewrite IH, !filter_cons. unfold split_step.
    destruct (both_in W mt) eqn:HW; simpl.
    + by rewrite <-app_assoc.
    + destruct (both_in L mt) eqn:HL; simpl; [|done].
      by rewrite <-app_assoc.
Qed.

Lemma toilet_step_members sm (all : gmap Z (list matchup)) d r mt :
  in_rounds mt (toilet_step sm all d r) →
  in_rounds mt d ∨ (in_rounds mt all ∧ is_toilet_bowl sm mt).
Proof.
  unfold toilet_step.
  remember (filter (λ mt, is_toilet_bowl sm mt) (default [] (all !! r))) as tb eqn:Etb.
  assert (∀ x, x ∈ tb → in_rounds x all ∧ is_toilet_bowl sm x) as Htb.
  { intros x. rewrite Etb. intros [Hx Hin]%list_elem_of_filter. split; [|done].
    destruct (all !! r) as [ms|] eqn:Hr; simpl in Hin; [|by apply elem_of_nil in Hin].
    by exists r, ms. }
  clear Etb. destruct tb as [|y tb']; [tauto|].
  destruct (r =? 1).
  { destruct (ordered_round1 sm (y :: tb')) as [|z o] eqn:Eo.
    - intros [?|?]%in_rounds_insert; [right; by apply Htb|tauto].
    - rewrite <-Eo. intros [?%ordered_round1_subset|?]%in_rounds_insert;
        [right; by apply Htb|tauto]. }
  destruct (r =? 2); [|intros [?|?]%in_rounds_insert; [right; by apply Htb|tauto]].
  rewrite split_round2_spec. simpl.
  match goal with |- context [filter ?P ?l ++ filter ?Q ?l] =>
    destruct (filter P l ++ filter Q l) as [|z o] eqn:Eo end; [tauto|].
  rewrite <-Eo.
  intros [[[? ?]%list_elem_of_filter|[? ?]%list_elem_of_filter]%elem_of_app|?]%in_rounds_insert;
    [right; by apply Htb..|tauto].
Qed.

Lemma toilet_fold_members sm (all : gmap Z (list matchup)) ks d mt :
  in_rounds mt (foldl (toilet_step sm all) d ks) →
  in_rounds mt d ∨ (in_rounds mt all ∧ is_toilet_bowl sm mt).
Proof.
  revert d. induction ks as [|r ks IH]; intros d; simpl; [tauto|].
  intros [Hin|?]%IH; [|tauto]. by apply toilet_step_members in Hin.
Qed.

(** The lower tier of the consolation view holds records of the feed with
    both seeds in 9..12 only. *)
Lemma toilet_members sm lb mt :
  in_rounds mt (toilet_bowl_rounds_dict sm lb) → mt ∈ lb ∧ is_toilet_bowl sm mt.
Proof.
  unfold toilet_bowl_rounds_dict.
  intros [(k & ms & Hk & _)|[? ?]]%toilet_fold_members.
  - by rewrite lookup_empty in Hk.
  - by rewrite <-group_members.
Qed.

Lemma plays_seed sm x s mt :
  sm !! x = Some s → plays x mt →
  seed_get0 sm (m_t1 mt) = s ∨ seed_get0 sm (m_t2 mt) = s.
Proof.
  intros Hs [H|H]; [left|right]; unfold seed_get0, seed_get; by rewrite H, Hs.
Qed.

(** C7. A record is in the lower tier only if both seeds lie in 9..12 and
    in the middle tier only if both lie in 5..8 (for the middle tier and
    for the header's lower-tier list this is also sufficient); a record
    whose seeds span the two ranges is in neither tier; hence a roster
    seeded in one range plays in no record of the other tier. *)
Theorem tiers_split_by_seed_range (seed_map : gmap Z Z) (losers_bracket : list matchup) :
  (∀ mt, mt ∈ toilet_bowl_matchups seed_map losers_bracket ↔
         mt ∈ losers_bracket
         ∧ 9 ≤ seed_get0 seed_map (m_t1 mt) ≤ 12 ∧ 9 ≤ seed_get0 seed_map (m_t2 mt) ≤ 12)
  ∧ (∀ mt, in_rounds mt (toilet_bowl_rounds_dict seed_map losers_bracket) →
           mt ∈ losers_bracket
           ∧ 9 ≤ seed_get0 seed_map (m_t1 mt) ≤ 12 ∧ 9 ≤ seed_get0 seed_map (m_t2 mt) ≤ 12)
  ∧ (∀ mt, in_rounds mt (consolation_rounds_dict seed_map losers_bracket) ↔
           mt ∈ losers_bracket
           ∧ 5 ≤ seed_get0 seed_map (m_t1 mt) ≤ 8 ∧ 5 ≤ seed_get0 seed_map (m_t2 mt) ≤ 8)
  ∧ (∀ mt, spans_tiers seed_map mt →
           (mt ∉ toilet_bowl_matchups seed_map losers_bracket)
           ∧ ¬ in_rounds mt (toilet_bowl_rounds_dict seed_map losers_bracket)
           ∧ ¬ in_rounds mt (consolation_rounds_dict seed_map losers_bracket))
  ∧ (∀ x s mt, seed_map !! x = Some s → 9 ≤ s ≤ 12 → plays x mt →
               ¬ in_rounds mt (consolation_rounds_dict seed_map losers_bracket))
  ∧ (∀ x s mt, seed_map !! x = Some s → 5 ≤ s ≤ 8 → plays x mt →
               (mt ∉ toilet_bowl_matchups seed_map losers_bracket)
               ∧ ¬ in_rounds mt (toilet_bowl_rounds_dict seed_map losers_bracket)).
Proof.
  assert (∀ mt, mt ∈ toilet_bowl_matchups seed_map losers_bracket ↔
                mt ∈ losers_bracket
                ∧ 9 ≤ seed_get0 seed_map (m_t1 mt) ≤ 12
                ∧ 9 ≤ seed_get0 seed_map (m_t2 mt) ≤ 12) as Hhead.
  { intros mt. unfold toilet_bowl_matchups.
    rewrite list_elem_of_filter, is_toilet_bowl_spec. tauto. }
  assert (∀ mt, in_rounds mt (toilet_bowl_rounds_dict seed_map losers_bracket) →
                mt ∈ losers_bracket
                ∧ 9 ≤ seed_get0 seed_map (m_t1 mt) ≤ 12
                ∧ 9 ≤ seed_get0 seed_map (m_t2 mt) ≤ 12) as Hlow.
  { intros mt [? ?%is_toilet_bowl_spec]%toilet_members. tauto. }
  assert (∀ mt, in_rounds mt (consolation_rounds_dict seed_map losers_bracket) ↔
                mt ∈ losers_bracket
                ∧ 5 ≤ seed_get0 seed_map (m_t1 mt) ≤ 8
                ∧ 5 ≤ seed_get0 seed_map (m_t2 mt) ≤ 8) as Hmid.
  { intros mt. rewrite consolation_members, is_consolation_spec. tauto. }
  split_and!; [done..| | |].
  - intros mt Hspan. unfold spans_tiers in Hspan.
    rewrite !Is_true_true, !in_range_spec in Hspan.
    split_and!.
    + rewrite Hhead. lia.
    + intros ?%Hlow. lia.
    + rewrite Hmid. lia.
  - intros x s mt Hs Hr Hp. rewrite Hmid.
    destruct (plays_seed _ _ _ _ Hs Hp); lia.
  - intros x s mt Hs Hr Hp. split.
    + rewrite Hhead. destruct (plays_seed _ _ _ _ Hs Hp); lia.
    + intros ?%Hlow. destruct (plays_seed _ _ _ _ Hs Hp); lia.
Qed.

(** *** Round 2 of the lower tier *)

Lemma in_set_spec x (S : gset Z) : in_set x S ↔ ∃ v, x = Some v ∧ v ∈ S.
Proof.
  destruct x as [v|]; simpl.
  - rewrite bool_decide_spec. split; [by exists v|]. by intros (? & [= <-] & ?).
  - split; [done|]. by intros (? & ? & _).
Qed.

Lemma in_set_disjoint x (W L : gset Z) : W ## L → in_set x W → in_set x L → False.
Proof.
  intros Hd (v & -> & Hv)%in_set_spec (v' & [= <-] & Hv')%in_set_spec.
  by apply (Hd v).
Qed.

Lemma both_in_spec S mt : both_in S mt ↔ in_set (m_t1 mt) S ∧ in_set (m_t2 mt) S.
Proof. unfold both_in. by rewrite andb_True. Qed.

Lemma mixes_neither W L mt :
  W ## L → mixes W L mt → both_in W mt = false ∧ both_in L mt = false.
Proof.
  intros Hd Hm. split; apply not_true_is_false; intros [H1 H2]%Is_true_true%both_in_spec;
    destruct Hm as [[? ?]|[? ?]]; eauto using in_set_disjoint.
Qed.

(** A variable that every qualifying record overwrites ends as the value of
    the last of them; when they all agree, as that value. *)
Lemma last_write_agrees {A} (g : A → option string) (l : list A) c0 name :
  (∀ x n, x ∈ l → g x = Some n → n = name) →
  (∃ x, x ∈ l ∧ g x = Some name) ∨ c0 = name →
  foldl (λ c x, default c (g x)) c0 l = name.
Proof.
  revert c0. induction l as [|y l IH]; intros c0 Hagree Hex; simpl.
  - destruct Hex as [(x & ?%elem_of_nil & _)|?]; done.
  - apply IH.
    + intros x n Hx. apply Hagree. by right.
    + destruct (g y) as [n|] eqn:Hy; simpl.
      * right. apply (Hagree y); [by left|done].
      * destruct Hex as [(x & [->|Hx]%elem_of_cons & Hg)|?]; [congruence| |by right].
        left. by exists x.
Qed.

Lemma round2_summary_folds W L rosters ul round2 :
  round2_summary W L rosters ul round2
  = (foldl (λ c mt, default c (champion_of W rosters ul mt)) "TBD" round2,
     foldl (λ c mt, default c (last_place_of L rosters ul mt)) "TBD" round2).
Proof.
  unfold round2_summary. generalize "TBD" at 1 3. generalize "TBD".
  induction round2 as [|mt ms IH]; intros c1 c2; simpl; [done|].
  rewrite <-IH. f_equal. unfold summary_step, champion_of, last_place_of; simpl.
  by destruct (both_in W mt), (both_in L mt).
Qed.

Lemma summary_skips_mixed W L rosters ul pre mt post :
  W ## L → mixes W L mt →
  round2_summary W L rosters ul (pre ++ mt :: post)
  = round2_summary W L rosters ul (pre ++ post).
Proof.
  intros Hd Hm. destruct (mixes_neither _ _ _ Hd Hm) as [HW HL].
  unfold round2_summary. rewrite !foldl_app. simpl. f_equal.
  unfold summary_step. rewrite HW, HL. by destruct (foldl _ _ pre).
Qed.

(** C3, as stated, fails once a roster is both a round-1 winner and a
    round-1 loser, as after a stray round-1 record.  The record 11 against 9
    is between two round-1 losers, and the split files it as the
    championship only, not as the last-place game.  The record 9 against 12
    pairs the round-1 winner 9 with the round-1 loser 12 and is at the same
    time a record between two round-1 losers (so that it cannot be both
    filed as the last-place game and dropped); it is filed as the
    last-place game, and the header takes the toilet-bowl loser from it. *)
Lemma stray_round1_record_blurs_round2 :
  ¬ ((round1_sets overlap_round1).1 ## (round1_sets overlap_round1).2)
  ∧ played 4 2 11 9 11 9 ∈ overlap_round2
  ∧ both_in (round1_sets overlap_round1).2 (played 4 2 11 9 11 9)
  ∧ (played 4 2 11 9 11 9
       ∉ (split_round2 (round1_sets overlap_round1).1 (round1_sets overlap_round1).2
            overlap_round2).2)
  ∧ mixes (round1_sets overlap_round1).1 (round1_sets overlap_round1).2
      (played 5 2 9 12 9 12)
  ∧ both_in (round1_sets overlap_round1).2 (played 5 2 9 12 9 12)
  ∧ played 5 2 9 12 9 12
      ∈ (split_round2 (round1_sets overlap_round1).1 (round1_sets overlap_round1).2
           overlap_round2).2
  ∧ round2_summary (round1_sets overlap_round1).1 (round1_sets overlap_round1).2
      lower_rosters lower_names overlap_round2 = ("Eleven", "Twelve")
  ∧ toilet_bowl_summary (seeds_upto 12) lower_rosters lower_names
      (overlap_round1 ++ overlap_round2) = ("Eleven", "Twelve").
Proof.
  split_and!.
  - intros Hd. apply (Hd 9); apply (bool_decide_unpack _); vm_compute; exact I.
  - left.
  - vm_compute. exact I.
  - intros Hin%list_elem_of_In. vm_compute in Hin.
    destruct Hin as [[=]|[]].
  - left. vm_compute. done.
  - vm_compute. exact I.
  - apply list_elem_of_In. vm_compute. tauto.
  - vm_compute. reflexivity.
  - vm_compute. reflexivity.
Qed.

(** C3, amended. With the round-1 winner and loser sets built from the round-1
    lower-tier records (and no roster in both): a round-2 record between two
    round-1 winners is classified as the tier championship, and the name its
    winner resolves to is the tier champion; a round-2 record between two
    round-1 losers is classified as the last-place game, and the name its
    loser resolves to is the toilet-bowl loser; a record that pairs a winner
    with a loser is in neither class and changes neither name.  (Where
    several records of a class carry a result, the names are those of the
    result they agree on.) *)
Theorem lower_tier_round2_split
    (round1 round2 : list matchup) (rosters : list roster)
    (user_lookup : gmap string string) :
  let W := (round1_sets round1).1 in
  let L := (round1_sets round1).2 in
  W ## L →
  (∀ mt, mt ∈ round2 → both_in W mt →
         mt ∈ (split_round2 W L round2).1 ∧ (mt ∉ (split_round2 W L round2).2))
  ∧ (∀ mt, mt ∈ round2 → both_in L mt →
           mt ∈ (split_round2 W L round2).2 ∧ (mt ∉ (split_round2 W L round2).1))
  ∧ (∀ mt, mixes W L mt →
           (mt ∉ (split_round2 W L round2).1) ∧ (mt ∉ (split_round2 W L round2).2))
  ∧ (∀ name,
       (∃ mt, mt ∈ round2 ∧ both_in W mt
              ∧ resolve_name rosters user_lookup (m_w mt) = Some name) →
       (∀ mt n, mt ∈ round2 → both_in W mt →
                resolve_name rosters user_lookup (m_w mt) = Some n → n = name) →
       (round2_summary W L rosters user_lookup round2).1 = name)
  ∧ (∀ name,
       (∃ mt, mt ∈ round2 ∧ both_in L mt
              ∧ resolve_name rosters user_lookup (m_l mt) = Some name) →
       (∀ mt n, mt ∈ round2 → both_in L mt →
                resolve_name rosters user_lookup (m_l mt) = Some n → n = name) →
       (round2_summary W L rosters user_lookup round2).2 = name)
  ∧ (∀ pre mt post, round2 = pre ++ mt :: post → mixes W L mt →
       round2_summary W L rosters user_lookup round2
       = round2_summary W L rosters user_lookup (pre ++ post)).
Proof.
  intros W L Hd. rewrite split_round2_spec. simpl. split_and!.
  - intros mt Hin HW. rewrite !list_elem_of_filter. tauto.
  - intros mt Hin HL. rewrite !list_elem_of_filter.
    assert (¬ both_in W mt) as HnW.
    { intros HW. unfold both_in in HW, HL.
      apply Is_true_true, andb_true_iff in HW as [HW _].
      apply Is_true_true, andb_true_iff in HL as [HL _].
      apply (in_set_disjoint (m_t1 mt) W L Hd); by apply Is_true_true. }
    tauto.
  - intros mt Hm. destruct (mixes_neither _ _ _ Hd Hm) as [HW HL].
    rewrite !list_elem_of_filter, HW, HL. simpl. tauto.
  - intros name (mt & Hin & HW & Hres) Hagree.
    rewrite round2_summary_folds. simpl. apply last_write_agrees.
    + intros x n Hx. unfold champion_of. destruct (both_in W x) eqn:HWx; [|done].
      apply Hagree; [done|by rewrite HWx].
    + left. exists mt. split; [done|]. unfold champion_of.
      by apply Is_true_true in HW as ->.
  - intros name (mt & Hin & HL & Hres) Hagree.
    rewrite round2_summary_folds. simpl. apply last_write_agrees.
    + intros x n Hx. unfold last_place_of. destruct (both_in L x) eqn:HLx; [|done].
      apply Hagree; [done|by rewrite HLx].
    + left. exists mt. split; [done|]. unfold last_place_of.
      by apply Is_true_true in HL as ->.
  - intros pre mt post -> Hm. by apply summary_skips_mixed.
Qed.

(** The sample lower tier: 9 and 10 win round 1, 12 and 11 lose it.  Roster
    10 wins the championship record, roster 11 loses the last-place record,
    and the mixed record (9 against 11) is in neither class. *)
Lemma lower_tier_round2_witness :
  (round1_sets lower_round1).1 ## (round1_sets lower_round1).2
  ∧ (round2_summary (round1_sets lower_round1).1 (round1_sets lower_round1).2
       lower_rosters lower_names lower_round2).1 = "Ten"
  ∧ (round2_summary (round1_sets lower_round1).1 (round1_sets lower_round1).2
       lower_rosters lower_names lower_round2).2 = "Eleven"
  ∧ (played 5 2 9 11 9 11
       ∉ (split_round2 (round1_sets lower_round1).1 (round1_sets lower_round1).2
            lower_round2).1).
Proof.
  assert ((round1_sets lower_round1).1 ## (round1_sets lower_round1).2) as Hd.
  { apply (bool_decide_unpack _). vm_compute. exact I. }
  destruct (lower_tier_round2_split lower_round1 lower_round2 lower_rosters
              lower_names Hd) as (_ & _ & Hmix & Hchamp & Hlast & _).
  split_and!.
  - exact Hd.
  - apply Hchamp.
    + exists (played 3 2 9 10 10 9). split_and!; [|vm_compute; exact I|vm_compute; reflexivity].
      apply list_elem_of_In. vm_compute. tauto.
    + intros mt n Hin%list_elem_of_In. vm_compute in Hin.
      destruct Hin as [<-|[<-|[<-|[]]]]; vm_compute; intros ? [=]; done.
  - apply Hlast.
    + exists (played 4 2 12 11 12 11). split_and!; [|vm_compute; exact I|vm_compute; reflexivity].
      apply list_elem_of_In. vm_compute. tauto.
    + intros mt n Hin%list_elem_of_In. vm_compute in Hin.
      destruct Hin as [<-|[<-|[<-|[]]]]; vm_compute; intros ? [=]; done.
  - apply Hmix. left. vm_compute. done.
Defined.

End ConsolationFacts.

(** ** Value attribution *)

Module AttributionFacts.

Import Attribution Snapshots.

Lemma weeks_from_cons a : a < 19 → weeks_from a = a :: weeks_from (a + 1).
Proof.
  intros Ha. unfold weeks_from.
  rewrite (seqZ_cons a (19 - a)) by lia. f_equal. f_equal; lia.
Qed.

Lemma weeks_from_nil a : 19 ≤ a → weeks_from a = [].
Proof.
  intros Ha. unfold weeks_from. apply length_zero_iff_nil.
  rewrite length_seqZ. lia.
Qed.

Lemma elem_of_weeks_from a w : w ∈ weeks_from a ↔ a ≤ w < 19.
Proof. unfold weeks_from. rewrite elem_of_seqZ. lia. Qed.

Lemma add3_assoc a b c : add3 (add3 a b) c = add3 a (add3 b c).
Proof. destruct a as [[??]?], b as [[??]?], c as [[??]?]. unfold add3; simpl. f_equal; [f_equal|]; lia. Qed.

Lemma add3_0_r a : add3 a (0, 0, 0) = a.
Proof. destruct a as [[??]?]. unfold add3; simpl. f_equal; [f_equal|]; lia. Qed.

Lemma add3_0_l a : add3 (0, 0, 0) a = a.
Proof. destruct a as [[??]?]. unfold add3; simpl. done. Qed.

(** One week of the trade loop adds the week's positive contribution. *)
Lemma trade_week_step_add md rid pid acc w :
  trade_week_step md rid pid acc w = add3 acc (positive_week md rid pid w).
Proof.
  unfold trade_week_step, positive_week.
  destruct (snapshot md w rid) as [tm|]; [|by rewrite add3_0_r].
  destruct (players_points tm !! pid) as [pts|]; [|by rewrite add3_0_r].
  destruct (Z.ltb_spec 0 pts).
  - rewrite (bool_decide_eq_true_2 (0 < pts)) by done.
    destruct acc as [[a b] c]. case_bool_decide; unfold add3; simpl;
      f_equal; try f_equal; lia.
  - rewrite (bool_decide_eq_false_2 (0 < pts)) by lia. by rewrite add3_0_r.
Qed.

Lemma trade_weeks_sum md rid pid acc ws :
  foldl (trade_week_step md rid pid) acc ws
  = add3 acc (sum3 (positive_week md rid pid <$> ws)).
Proof.
  revert acc. induction ws as [|w ws IH]; intros acc; simpl.
  - by rewrite add3_0_r.
  - by rewrite IH, trade_week_step_add, add3_assoc.
Qed.

(** The trade attribution of one resolved player: the positive
    contributions of the weeks from the trade week on. *)
Lemma calc_one_player md mapping name pid rid week :
  mapping !! name = Some pid → pid ≠ "" →
  calc_player_stats_after_trade md mapping [name] rid week
  = sum3 (positive_week md rid pid <$> weeks_from week).
Proof.
  intros Hmap Hpid. unfold calc_player_stats_after_trade, trade_player_step. simpl.
  rewrite Hmap, bool_decide_eq_false_2 by done.
  by rewrite trade_weeks_sum, add3_0_l.
Qed.

Lemma positive_week_zero md rid pid w :
  ¬ scores_in md rid pid w → positive_week md rid pid w = (0, 0, 0).
Proof.
  intros Hno. unfold positive_week.
  destruct (snapshot md w rid) as [tm|] eqn:Hs; [|done].
  destruct (players_points tm !! pid) as [pts|] eqn:Hp; [|done].
  case_bool_decide; [|done]. exfalso. apply Hno. by exists tm, pts.
Qed.

(** One week of the pickup loop. *)
Lemma pickup_week_add md rid pid acc w :
  pickup_week md rid pid acc w
  = (acc.1 + ((positive_week md rid pid w).1.1 + (positive_week md rid pid w).1.2),
     acc.2 + started_week md rid pid w).
Proof.
  unfold pickup_week, positive_week, started_week. destruct acc as [a b]; simpl.
  destruct (snapshot md w rid) as [tm|]; simpl; [|f_equal; lia].
  f_equal.
  - destruct (players_points tm !! pid) as [pts|]; [|simpl; lia].
    destruct (Z.ltb_spec 0 pts).
    + rewrite (bool_decide_eq_true_2 (0 < pts)) by done. case_bool_decide; simpl; lia.
    + rewrite (bool_decide_eq_false_2 (0 < pts)) by lia. simpl; lia.
  - case_bool_decide; lia.
Qed.

Lemma pickup_weeks_sum md rid pid acc ws :
  foldl (pickup_week md rid pid) acc ws
  = (acc.1 + ((sum3 (positive_week md rid pid <$> ws)).1.1
              + (sum3 (positive_week md rid pid <$> ws)).1.2),
     acc.2 + sumZ (started_week md rid pid <$> ws)).
Proof.
  revert acc. induction ws as [|w ws IH]; intros acc.
  - destruct acc; simpl; f_equal; lia.
  - rewrite !fmap_cons. cbn [foldl]. rewrite IH, pickup_week_add.
    unfold sum3, sumZ. cbn [foldr add3 fst snd]. f_equal; lia.
Qed.

(** C4, as stated, fails: a started week with a negative score belongs to
    the sum of the player's points over the started weeks, and the code
    leaves it out (of the points and of the starts). *)
Lemma negative_score_not_attributed :
  spec_attribution negative_week 1 "P" 3 = (-2, 0, 1)
  ∧ calc_player_stats_after_trade negative_week names ["Pat P"] 1 3 = (0, 0, 0)
  ∧ calc_player_stats_after_trade negative_week names ["Pat P"] 1 3
    ≠ spec_attribution negative_week 1 "P" 3.
Proof. split_and!; [by vm_compute..|]. by vm_compute. Qed.

(** C4, amended. For an acquired player that resolves to identifier [P], on
    roster [R], with no positive value recorded for [P] in the transaction
    week itself: lineup points are the sum of [P]'s strictly positive
    values over the later weeks (through week 18) in which [P] is among
    [R]'s starters, bench points the sum of the strictly positive values of
    the later weeks in which [P] is not, and starts the number of weeks that
    went into the lineup points.  The pickup loop of the parser reports the
    two sums as one total, and as games the number of later weeks in which
    [P] is among the starters. *)
Theorem attribution_counts_positive_weeks
    (matchup_data : matchup_data_t) (player_id_mapping : gmap string string)
    (name P : string) (R week : Z) :
  player_id_mapping !! name = Some P → P ≠ "" →
  ¬ scores_in matchup_data R P week →
  let later := sum3 (positive_week matchup_data R P <$> weeks_from (week + 1)) in
  calc_player_stats_after_trade matchup_data player_id_mapping [name] R week = later
  ∧ pickup_totals matchup_data R P week
    = (later.1.1 + later.1.2,
       sumZ (started_week matchup_data R P <$> weeks_from (week + 1))).
Proof.
  intros Hmap HP Hno later. subst later. split.
  - rewrite (calc_one_player _ _ _ P) by done.
    destruct (Z.lt_ge_cases week 19) as [Hlt|Hge].
    + rewrite (weeks_from_cons week), fmap_cons by done. unfold sum3. cbn [foldr].
      by rewrite positive_week_zero, add3_0_l.
    + by rewrite !weeks_from_nil by lia.
  - unfold pickup_totals. rewrite pickup_weeks_sum. simpl. done.
Qed.

(** The example of the specification: added in week 3, 20 points as a
    starter in week 4, 8 points on the bench in week 5, nothing afterwards. *)
Lemma attribution_example_witness :
  names !! "Pat P" = Some "P" ∧ "P" ≠ ""
  ∧ ¬ scores_in example_weeks 1 "P" 3
  ∧ calc_player_stats_after_trade example_weeks names ["Pat P"] 1 3 = (20, 8, 1)
  ∧ pickup_totals example_weeks 1 "P" 3 = (28, 1).
Proof.
  assert (names !! "Pat P" = Some "P") as Hmap by (vm_compute; reflexivity).
  assert ("P" ≠ "") as HP by discriminate.
  assert (¬ scores_in example_weeks 1 "P" 3) as Hno.
  { intros (tm & pts & Hs & _). vm_compute in Hs. discriminate. }
  destruct (attribution_counts_positive_weeks example_weeks names "Pat P" "P" 1 3
              Hmap HP Hno) as [Hcalc Hpick].
  split_and!; [done..| |].
  - rewrite Hcalc. vm_compute. reflexivity.
  - rewrite Hpick. vm_compute. reflexivity.
Defined.

(** The FAAB valuation of the dashboard and the trade attribution of one
    resolved player are the same numbers. *)
Lemma faab_value_is_trade_attribution md mapping name P R week :
  mapping !! name = Some P → P ≠ "" →
  faab_value md R P week = calc_player_stats_after_trade md mapping [name] R week.
Proof.
  intros Hmap HP. rewrite (calc_one_player _ _ _ P) by done.
  unfold faab_value. by rewrite trade_weeks_sum, add3_0_l.
Qed.

(** C5 at a player who starts and scores in the week of the transaction:
    the trade attribution (and the FAAB valuation) counts that week, the
    pickup attribution of the parser does not.  And at a player who starts a
    later week without scoring: the pickup attribution counts a start, the
    trade attribution none. *)
Theorem transaction_week_counted_by_trades_only :
  calc_player_stats_after_trade same_week names ["Pat P"] 1 3 = (10, 0, 1)
  ∧ faab_value same_week 1 "P" 3 = (10, 0, 1)
  ∧ pickup_totals same_week 1 "P" 3 = (0, 0)
  ∧ pickup_stats same_week (Some 2024) (Some 3) 1 "P" = None
  ∧ calc_player_stats_after_trade scoreless_start names ["Pat P"] 1 3 = (0, 0, 0)
  ∧ pickup_stats scoreless_start (Some 2024) (Some 3) 1 "P" = Some (0, 1).
Proof. split_and!; by vm_compute. Qed.

(** In general the trade attribution is the pickup-style sum over the later
    weeks plus the contribution of the trade week itself. *)
Lemma trade_attribution_includes_trade_week md mapping name P R week :
  mapping !! name = Some P → P ≠ "" → week < 19 →
  calc_player_stats_after_trade md mapping [name] R week
  = add3 (positive_week md R P week)
         (sum3 (positive_week md R P <$> weeks_from (week + 1))).
Proof.
  intros Hmap HP Hlt. rewrite (calc_one_player _ _ _ P) by done.
  by rewrite weeks_from_cons.
Qed.

End AttributionFacts.

(** ** Transactions *)

Module TransactionFacts.

Import Seeds Attribution Transactions Snapshots Ledger.

Section Parser.

Variable user_lookup : gmap string string.
Variable display_name : string → string.
Variable days_since_start : Z → option Z.
Variable trade_player_name : string → string.
Variable roster_order : set_listing.

Lemma step_skips r2u md season out trans :
  status trans ∉ allowed_status →
  parse_step user_lookup display_name days_since_start trade_player_name roster_order
    r2u md season out trans = out.
Proof. intros H. unfold parse_step. by rewrite bool_decide_eq_false_2. Qed.

Lemma step_admitted r2u md season out trans :
  all_admitted out →
  all_admitted (parse_step user_lookup display_name days_since_start trade_player_name
                  roster_order r2u md season out trans).
Proof.
  intros (Ht & Hw & Ha). unfold parse_step.
  case_bool_decide as Hst; [|done].
  case_bool_decide as Htrade.
  - unfold parse_trade. case_bool_decide; [done|].
    split_and!; simpl; [|done..]. apply Forall_app. split; [done|].
    by apply Forall_singleton.
  - case_bool_decide as Hty; [|done].
    assert (Forall (λ wd, wd_status wd ∈ allowed_status)
              (parse_add user_lookup display_name days_since_start r2u md season trans
                 <$> adds trans)) as Hnew.
    { apply Forall_fmap, Forall_forall. by intros mv _. }
    destruct (bool_decide (trans_type trans = "waiver") && (0 <? waiver_bid trans));
      split_and!; simpl; try done; by apply Forall_app.
Qed.

Lemma fold_admitted r2u md season out txs :
  all_admitted out →
  all_admitted (foldl (parse_step user_lookup display_name days_since_start
                         trade_player_name roster_order r2u md season)
                      out txs).
Proof.
  revert out. induction txs as [|t txs IH]; intros out Hout; simpl; [done|].
  by apply IH, step_admitted.
Qed.

(** A trade that the parser keeps is listed with exactly two teams, however
    many rosters it touches. *)
Lemma kept_trade_has_two_teams r2u trans td :
  parse_trade user_lookup trade_player_name roster_order r2u trans = Some td →
  length (td_teams td) = 2%nat.
Proof.
  unfold parse_trade. case_bool_decide as Hsz; [done|]. intros [= <-]. simpl.
  unfold team_names. rewrite length_fmap, length_take, (listed_perm roster_order).
  unfold size, set_size in Hsz. simpl in Hsz. lia.
Qed.

End Parser.

(** C10. The parser lists a transaction only if its status is 'complete',
    'approved' or 'processed': every entry of [trades], [waivers] and
    [add_drops] carries one of the three, and a transaction with any other
    status changes nothing: the three outputs, with the value attribution
    stored in their entries, are those of the feed without it. *)
Theorem only_admitted_statuses_are_parsed
    (user_lookup : gmap string string) (display_name : string → string)
    (days_since_start : Z → option Z)
    (trade_player_name : string → string) (roster_order : set_listing)
    (transactions : list transaction) (rosters : list roster)
    (matchup_data : matchup_data_t) (season : option Z) :
  let parse txs :=
    parse_sleeper_transactions user_lookup display_name days_since_start
      trade_player_name roster_order
      txs rosters matchup_data season in
  (∀ td, td ∈ trades (parse transactions) → td_status td ∈ allowed_status)
  ∧ (∀ wd, wd ∈ waivers (parse transactions) → wd_status wd ∈ allowed_status)
  ∧ (∀ wd, wd ∈ add_drops (parse transactions) → wd_status wd ∈ allowed_status)
  ∧ (∀ pre trans post,
       transactions = pre ++ trans :: post → status trans ∉ allowed_status →
       parse transactions = parse (pre ++ post)).
Proof.
  intros parse.
  assert (all_admitted (parse transactions)) as (Ht & Hw & Ha).
  { apply fold_admitted. by split_and!; apply Forall_nil. }
  rewrite Forall_forall in Ht. rewrite Forall_forall in Hw.
  rewrite Forall_forall in Ha. split_and!; [done..|].
  intros pre trans post -> Hst. unfold parse, parse_sleeper_transactions.
  rewrite !foldl_app. simpl. by rewrite step_skips.
Qed.

(** A failed claim between two processed ones leaves no trace. *)
Example failed_claim_leaves_no_trace :
  parse_sleeper_transactions users plain_name day14 plain_name ascending
    [claim "w1" "processed"; claim "w2" "failed"; claim "w3" "complete"]
    rosters example_weeks (Some 2024)
  = parse_sleeper_transactions users plain_name day14 plain_name ascending
      [claim "w1" "processed"; claim "w3" "complete"]
      rosters example_weeks (Some 2024)
  ∧ wd_transaction_id <$>
      waivers (parse_sleeper_transactions users plain_name day14 plain_name ascending
                 [claim "w1" "processed"; claim "w2" "failed"; claim "w3" "complete"]
                 rosters example_weeks (Some 2024))
    = ["w1"; "w3"].
Proof. split; by vm_compute. Qed.

(** C8 at a completed trade among three rosters, whatever the order in
    which the set of its rosters is listed.  The parser lists two of the
    three teams, the test on the number of teams of the trade analysis
    passes, and the trade is valued as if it were between those two. *)
Theorem three_team_trade_is_valued (roster_order : set_listing) :
  ∃ td row,
    size (roster_ids three_team_trade) = 3%nat
    ∧ trades (parse_sleeper_transactions users plain_name day14 plain_name roster_order
                [three_team_trade] rosters example_weeks (Some 2024)) = [td]
    ∧ length (td_teams td) = 2%nat
    ∧ trade_analyses day14 example_weeks (team_to_roster users rosters) catalog [td]
      = [row].
Proof.
  pose proof (listed_perm roster_order (roster_ids three_team_trade)) as Hp.
  assert (length (listed roster_order (roster_ids three_team_trade)) = 3%nat) as Hlen.
  { rewrite Hp. by vm_compute. }
  assert (∀ x, x ∈ listed roster_order (roster_ids three_team_trade) →
               x = 1 ∨ x = 2 ∨ x = 3) as Hin.
  { intros x. rewrite Hp, elem_of_elements. unfold roster_ids.
    rewrite elem_of_list_to_set. simpl. rewrite !elem_of_cons, elem_of_nil. tauto. }
  assert (trades (parse_sleeper_transactions users plain_name day14 plain_name roster_order
                    [three_team_trade] rosters example_weeks (Some 2024))
          = [TradeData "t1" "complete" (Some 1000)
               [("p1", "Ann"); ("p2", "Bob"); ("p3", "Cy")]
               [("p1", "Bob"); ("p2", "Cy"); ("p3", "Ann")]
               (team_name users (roster_to_user rosters)
                  <$> take 2 (listed roster_order (roster_ids three_team_trade)))]) as ->.
  { vm_compute. reflexivity. }
  destruct (listed roster_order (roster_ids three_team_trade)) as [|a [|b l]];
    [done..|].
  destruct (Hin a) as [-> | [-> | ->]]; [by left|..];
    (destruct (Hin b) as [-> | [-> | ->]]; [by right; left|..]);
    (eexists _, _; split_and!;
       [by vm_compute|reflexivity|reflexivity|vm_compute; reflexivity]).
Qed.

End TransactionFacts.

(** * Further properties of the code *)

(** ** Seeds, for any roster list *)

Module SeedBounds.

Import Seeds.

Lemma assign_seeds_range idx teams (sm : gmap Z Z) id s :
  assign_seeds idx teams sm !! id = Some s →
  sm !! id = Some s
  ∨ (idx ≤ s < idx + Z.of_nat (length teams) ∧ id ∈ s_roster_id <$> teams).
Proof.
  revert idx sm. induction teams as [|t ts IH]; intros idx sm Hs; simpl in *; [by left|].
  apply IH in Hs as [Hs|[Hr Hin]].
  - destruct (decide (s_roster_id t = id)) as [<-|Hne].
    + rewrite lookup_insert_eq in Hs. injection Hs as <-.
      right. split; [lia|]. by left.
    + rewrite lookup_insert_ne in Hs by done. by left.
  - right. split; [lia|]. by right.
Qed.

(** X1. Whatever the roster list (more than twelve rosters, repeated
    identifiers, none at all): a seed that is assigned lies between 1 and 12
    and does not exceed the number of rosters, and it is assigned to the
    identifier of a roster of the list. *)
Theorem seeds_between_one_and_twelve (rosters : list roster) :
  ∀ id s, get_playoff_seeds rosters !! id = Some s →
          1 ≤ s ≤ 12 ∧ s ≤ Z.of_nat (length rosters)
          ∧ ∃ ro, ro ∈ rosters ∧ roster_id ro = id.
Proof.
  intros id s Hs. unfold get_playoff_seeds in Hs.
  apply assign_seeds_range in Hs as [Hs|[Hr Hin]]; [by rewrite lookup_empty in Hs|].
  rewrite length_take in Hr.
  assert (length (standings rosters) = length rosters) as Hlen.
  { unfold standings. by rewrite SeedFacts.sort_desc_perm, length_fmap. }
  split_and!; [lia..|].
  assert (id ∈ s_roster_id <$> standings rosters) as Hid.
  { eapply elem_of_sublist; [exact Hin|]. apply fmap_sublist, sublist_take. }
  unfold standings in Hid. rewrite SeedFacts.sort_desc_perm, <-list_fmap_compose in Hid.
  apply list_elem_of_fmap in Hid as (ro & -> & Hro). by exists ro.
Qed.

(** In a league of thirteen, the roster ranked first is seeded 1. *)
Lemma seeds_between_one_and_twelve_witness :
  get_playoff_seeds (league 13) !! 1 = Some 1
  ∧ 1 ≤ 1 ≤ 12 ∧ 1 ≤ Z.of_nat (length (league 13))
  ∧ ∃ ro, ro ∈ league 13 ∧ roster_id ro = 1.
Proof.
  assert (get_playoff_seeds (league 13) !! 1 = Some 1) as H by (vm_compute; reflexivity).
  split; [exact H|]. exact (seeds_between_one_and_twelve (league 13) 1 1 H).
Defined.

End SeedBounds.

(** ** Grouping a flat feed by round *)

Module GroupFacts.

Lemma group_fold_lookup lb (d : gmap Z (list matchup)) k :
  foldl group_step d lb !! k
  = match filter (λ mt, default 0 (m_r mt) = k) lb with
    | [] => d !! k
    | ms => Some (default [] (d !! k) ++ ms)
    end.
Proof.
  revert d. induction lb as [|x lb IH]; intros d; simpl; [done|].
  rewrite IH, filter_cons. unfold group_step.
  destruct (decide (default 0 (m_r x) = k)) as [<-|Hne].
  - rewrite lookup_insert_eq. simpl.
    destruct (filter _ lb); simpl; [done|]. by rewrite <-app_assoc.
  - by rewrite lookup_insert_ne.
Qed.

(** X2. Grouping loses nothing and keeps the order: the entry of a round
    is the list of the records of that round (a record without a round
    counts for round 0) in feed order, and a round without a record has no
    entry. *)
Theorem group_by_round_lookup (bracket : list matchup) (k : Z) :
  group_by_round bracket !! k
  = match filter (λ mt, default 0 (m_r mt) = k) bracket with
    | [] => None
    | ms => Some ms
    end.
Proof.
  unfold group_by_round. rewrite group_fold_lookup, lookup_empty. simpl.
  by destruct (filter _ bracket).
Qed.

End GroupFacts.

(** ** The shape of the structured bracket *)

Module BracketShape.

Import Seeds Bracket Consolation Header.

Lemma build_round_absent {mbr : gmap Z (list matchup)} sm k :
  mbr !! k = None → build_tournament_bracket mbr sm !! k = None.
Proof.
  intros Hk. unfold build_tournament_bracket, build_state.
  rewrite BracketFacts.build_fold_other; [apply lookup_empty|].
  rewrite BracketFacts.elem_of_sorted_keys, Hk. by intros [??].
Qed.

Lemma expected_pair_cases p :
  p ∈ expected_pairs → p = (1, 8) ∨ p = (4, 5) ∨ p = (2, 7) ∨ p = (3, 6).
Proof.
  unfold expected_pairs. rewrite !elem_of_cons, elem_of_nil. tauto.
Qed.

Lemma omap_seeds_sublist (f : Z * Z → option node) ps :
  (∀ p nd, f p = Some nd → team1_seed nd = p.1) →
  team1_seed <$> omap f ps `sublist_of` fst <$> ps.
Proof.
  intros Hf. induction ps as [|p ps IH]; simpl; [done|].
  destruct (f p) as [nd|] eqn:Hp; simpl.
  - rewrite (Hf _ _ Hp). by apply sublist_skip.
  - by apply sublist_cons.
Qed.

(** The round-1 nodes, as found records of canonical pairs. *)
Lemma round1_list sm ms rw :
  (process_round sm 1 ms rw).1
  = omap (λ p, round1_node sm p <$> find_pair sm p ms) expected_pairs.
Proof.
  rewrite BracketFacts.round1_nodes. unfold resolved, expected_pairs. simpl.
  by repeat (destruct (find_pair sm _ ms); simpl).
Qed.

Lemma round1_member sm ms rw nd :
  nd ∈ (process_round sm 1 ms rw).1 →
  ∃ p mt, p ∈ expected_pairs ∧ mt ∈ ms ∧ seeds_equal_pair sm p mt
          ∧ nd = round1_node sm p mt.
Proof.
  rewrite round1_list, list_elem_of_omap. intros (p & Hp & Hnd).
  destruct (find_pair sm p ms) as [mt|] eqn:Hf; [|done]. injection Hnd as <-.
  apply BracketFacts.find_pair_Some in Hf as (pre & post & -> & _ & Hmt).
  exists p, mt. split_and!; [done| |done..]. apply elem_of_app. right. by left.
Qed.

Lemma participant_seed sm p mt x :
  p.1 ≠ p.2 → seeds_equal_pair sm p mt → participant x (round1_node sm p mt) →
  sm !! x = Some p.1 ∨ sm !! x = Some p.2.
Proof.
  intros Hne Hmt Hx.
  destruct (BracketFacts.round1_node_normalised sm p mt Hne Hmt) as (H1 & H2 & _).
  destruct Hx as [Hx|Hx]; rewrite Hx in *; simpl in *; [by left|by right].
Qed.

(** X3. Round 1 of the structured bracket has at most four nodes, the two
    teams of a node are different rosters, and no roster takes part in two
    round-1 nodes, whatever the feed holds (repeated records, a roster
    listed in several games). *)
Theorem round1_rosters_appear_once
    (matchups_by_round : gmap Z (list matchup)) (seed_map : gmap Z Z) :
  let nodes := round_nodes (build_tournament_bracket matchups_by_round seed_map) 1 in
  (length nodes ≤ 4)%nat
  ∧ (∀ nd, nd ∈ nodes → team1_id nd ≠ team2_id nd)
  ∧ (∀ (i j : nat) ndi ndj x,
       nodes !! i = Some ndi → nodes !! j = Some ndj →
       participant x ndi → participant x ndj → i = j).
Proof.
  intros nodes. subst nodes. unfold round_nodes.
  destruct (matchups_by_round !! 1) as [ms|] eqn:H1;
    [|rewrite (build_round_absent seed_map 1 H1); simpl;
      split_and!; [lia|by intros ? ?%elem_of_nil|done]].
  destruct (BracketFacts.build_round _ seed_map _ _ H1) as [rw ->]. simpl.
  assert (NoDup (team1_seed <$> (process_round seed_map 1 ms rw).1)) as Hnd.
  { rewrite round1_list. eapply sublist_NoDup; [|apply omap_seeds_sublist].
    - apply (bool_decide_unpack _). vm_compute. exact I.
    - intros p nd Hp. destruct (find_pair seed_map p ms); [|done].
      injection Hp as <-. unfold round1_node. by destruct (seed_is _ _ _). }
  split_and!.
  - rewrite <-(length_fmap team1_seed).
    etrans; [apply sublist_length; rewrite round1_list; apply omap_seeds_sublist|].
    + intros p nd Hp. destruct (find_pair seed_map p ms); [|done].
      injection Hp as <-. unfold round1_node. by destruct (seed_is _ _ _).
    + rewrite length_fmap. vm_compute. lia.
  - intros nd (p & mt & Hp & _ & Hmt & ->)%round1_member Heq.
    assert (p.1 ≠ p.2) as Hne
      by (apply expected_pair_cases in Hp as [-> | [-> | [-> | ->]]]; simpl; lia).
    destruct (BracketFacts.round1_node_normalised seed_map p mt Hne Hmt)
      as (Hs1 & Hs2 & _).
    rewrite Heq in Hs1. congruence.
  - intros i j ndi ndj x Hi Hj Hxi Hxj.
    assert (team1_seed ndi = team1_seed ndj) as Hseed.
    { apply list_elem_of_lookup_2, round1_member in Hi
        as (p & mt & Hp & _ & Hmt & ->).
      apply list_elem_of_lookup_2, round1_member in Hj
        as (q & mt' & Hq & _ & Hmt' & ->).
      assert (p.1 ≠ p.2) as Hnp
        by (apply expected_pair_cases in Hp as [-> | [-> | [-> | ->]]]; simpl; lia).
      assert (q.1 ≠ q.2) as Hnq
        by (apply expected_pair_cases in Hq as [-> | [-> | [-> | ->]]]; simpl; lia).
      pose proof (participant_seed _ _ _ _ Hnp Hmt Hxi) as Hsp.
      pose proof (participant_seed _ _ _ _ Hnq Hmt' Hxj) as Hsq.
      destruct (BracketFacts.round1_node_normalised seed_map p mt Hnp Hmt)
        as (_ & _ & -> & _).
      destruct (BracketFacts.round1_node_normalised seed_map q mt' Hnq Hmt')
        as (_ & _ & -> & _).
      apply expected_pair_cases in Hp as [-> | [-> | [-> | ->]]];
        apply expected_pair_cases in Hq as [-> | [-> | [-> | ->]]];
        simpl in *; try done; destruct Hsp, Hsq; congruence. }
    eapply NoDup_lookup; [exact Hnd|..]; rewrite list_lookup_fmap.
    + by rewrite Hi.
    + rewrite Hj. simpl. by rewrite Hseed.
Qed.

(** *** Feeds without a canonical first-round pair *)

Lemma find_pair_absent sm p ms :
  (∀ mt, mt ∈ ms → pair_matches sm p mt = false) → find_pair sm p ms = None.
Proof.
  intros H. apply BracketFacts.find_pair_None. intros mt Hin Heq.
  apply BracketFacts.pair_matches_spec in Heq. rewrite H in Heq; done.
Qed.

Lemma later_step_no_winner sm k st ms :
  foldl (later_step sm k []) st ms = st.
Proof.
  revert st. induction ms as [|mt ms IH]; intros st; simpl; [done|].
  rewrite <-(IH st) at 2. f_equal. unfold later_step.
  by destruct (m_t1 mt), (m_t2 mt).
Qed.

Lemma process_round_nothing sm k ms :
  (k = 1 → no_canonical_pair sm ms) → process_round sm k ms ∅ = ([], ∅).
Proof.
  intros Hk. unfold process_round. destruct (Z.eqb_spec k 1) as [->|Hne].
  - specialize (Hk eq_refl). unfold expected_pairs, round1_step. simpl.
    rewrite !find_pair_absent; [done|intros mt Hin; apply Hk; [|done]..];
      unfold expected_pairs; rewrite !elem_of_cons; tauto.
  - unfold prev_winners. rewrite lookup_empty. simpl.
    rewrite map_to_list_empty. simpl. apply later_step_no_winner.
Qed.

Lemma build_nothing (mbr : gmap Z (list matchup)) sm ks acc :
  no_canonical_pair sm (default [] (mbr !! 1)) →
  acc.2 = ∅ → (∀ k, round_nodes acc.1 k = []) →
  ∀ k, round_nodes (foldl (round_step mbr sm) acc ks).1 k = [].
Proof.
  intros Hno. revert acc. induction ks as [|r ks IH]; intros [sb rw] Hrw Hsb; [done|].
  simpl in *. subst rw. apply IH; unfold round_step; simpl.
  - rewrite process_round_nothing; [done|]. by intros ->.
  - intros k. rewrite process_round_nothing by (by intros ->). simpl.
    rewrite BracketFacts.round_nodes_insert. by case_decide.
Qed.

Lemma tier_has_no_canonical_pair sm (ms : list matchup) :
  (∀ mt, mt ∈ ms → is_toilet_bowl sm mt ∨ is_consolation sm mt) →
  no_canonical_pair sm ms.
Proof.
  intros Htier p mt Hp Hmt.
  apply not_true_is_false. intros Heq%BracketFacts.pair_matches_spec.
  assert (∀ s, seed_get sm (m_t1 mt) = Some s → seed_get0 sm (m_t1 mt) = s) as H1
    by (intros s Hs; unfold seed_get0; by rewrite Hs).
  assert (∀ s, seed_get sm (m_t2 mt) = Some s → seed_get0 sm (m_t2 mt) = s) as H2
    by (intros s Hs; unfold seed_get0; by rewrite Hs).
  destruct (Htier _ Hmt) as [Ht|Ht];
    [apply ConsolationFacts.is_toilet_bowl_spec in Ht
    |apply ConsolationFacts.is_consolation_spec in Ht];
    apply expected_pair_cases in Hp as [-> | [-> | [-> | ->]]];
    destruct Heq as [[Ha Hb]|[Ha Hb]]; simpl in *;
    apply H1 in Ha; apply H2 in Hb; lia.
Qed.

Lemma drawn_rounds_nothing (mbr : gmap Z (list matchup)) sm :
  no_canonical_pair sm (default [] (mbr !! 1)) → drawn_rounds mbr sm = [].
Proof.
  intros Hno. unfold drawn_rounds.
  assert (∀ k, round_nodes (build_tournament_bracket mbr sm) k = []) as Hall.
  { unfold build_tournament_bracket, build_state. by apply build_nothing. }
  induction (sorted_keys (build_tournament_bracket mbr sm)) as [|k ks IH]; [done|].
  rewrite fmap_cons, filter_cons. simpl. rewrite Hall.
  by rewrite decide_False by (by intros ?).
Qed.

Lemma in_rounds_insert_nonempty mt k l (d : gmap Z (list matchup)) :
  in_rounds mt (match l with [] => d | _ :: _ => <[k := l]> d end) →
  mt ∈ l ∨ in_rounds mt d.
Proof.
  destruct l; [by right|]. apply ConsolationFacts.in_rounds_insert.
Qed.

Lemma display_step_members tb disp r mt :
  in_rounds mt (display_step tb disp r) → in_rounds mt disp ∨ in_rounds mt tb.
Proof.
  unfold display_step.
  assert (∀ x, x ∈ default [] (tb !! r) → in_rounds x tb) as Hr.
  { intros x Hx. destruct (tb !! r) as [ms|] eqn:E; [|by apply elem_of_nil in Hx].
    by exists r, ms. }
  destruct (r =? 1).
  { intros [?|?]%ConsolationFacts.in_rounds_insert; [right; by apply Hr|by left]. }
  destruct (r =? 2);
    [|intros [?|?]%ConsolationFacts.in_rounds_insert; [right; by apply Hr|by left]].
  rewrite ConsolationFacts.split_round2_spec. simpl.
  intros [[_ ?]%list_elem_of_filter|[[_ ?]%list_elem_of_filter|?]%in_rounds_insert_nonempty]
    %in_rounds_insert_nonempty; [right; by apply Hr..|by left].
Qed.

Lemma display_members tb mt :
  in_rounds mt (display_toilet_bowl_rounds tb) → in_rounds mt tb.
Proof.
  unfold display_toilet_bowl_rounds.
  enough (∀ ks disp, in_rounds mt (foldl (display_step tb) disp ks) →
                     in_rounds mt disp ∨ in_rounds mt tb) as H.
  { intros [(k & ms & Hk & _)|?]%H; [by rewrite lookup_empty in Hk|done]. }
  intros ks. induction ks as [|r ks IH]; intros disp; simpl; [by left|].
  intros [?%display_step_members|?]%IH; tauto.
Qed.

(** X4. The bracket graphics of the consolation view draw nothing: the
    rounds of the lower tier and of the middle tier are handed to the
    builder of the championship bracket, whose first round only takes the
    pairs 1v8, 4v5, 2v7, 3v6, so that no record of seeds 5 to 12 enters
    round 1, no winner is recorded, and every round comes out empty. *)
Theorem consolation_graphics_are_empty (seed_map : gmap Z Z) (losers_bracket : list matchup) :
  drawn_rounds (display_toilet_bowl_rounds (toilet_bowl_rounds_dict seed_map losers_bracket))
               seed_map = []
  ∧ drawn_rounds (consolation_rounds_dict seed_map losers_bracket) seed_map = [].
Proof.
  split; apply drawn_rounds_nothing, tier_has_no_canonical_pair; intros mt Hmt.
  - left. apply (ConsolationFacts.toilet_members seed_map losers_bracket).
    apply display_members.
    destruct (_ !! 1) as [ms|] eqn:E; [|by apply elem_of_nil in Hmt]. by exists 1, ms.
  - right. apply (ConsolationFacts.consolation_members seed_map losers_bracket).
    destruct (_ !! 1) as [ms|] eqn:E; [|by apply elem_of_nil in Hmt]. by exists 1, ms.
Qed.

(** The middle tier of a sample feed has records, and still no round is
    drawn. *)
Example middle_tier_drawn_empty :
  consolation_rounds_dict (Samples.seeds_upto 12)
    [Samples.played 1 1 5 8 5 8; Samples.played 2 1 6 7 7 6; Samples.played 3 2 5 7 5 7]
  ≠ ∅
  ∧ drawn_rounds
      (consolation_rounds_dict (Samples.seeds_upto 12)
         [Samples.played 1 1 5 8 5 8; Samples.played 2 1 6 7 7 6; Samples.played 3 2 5 7 5 7])
      (Samples.seeds_upto 12) = [].
Proof. split; by vm_compute. Qed.

End BracketShape.

(** ** The header of the history view *)

Module HeaderFacts.

Import Seeds Bracket Consolation Header.

Lemma foldl_max_spec a l :
  (foldl Z.max a l = a ∨ foldl Z.max a l ∈ l)
  ∧ a ≤ foldl Z.max a l ∧ ∀ x, x ∈ l → x ≤ foldl Z.max a l.
Proof.
  revert a. induction l as [|y l IH]; intros a; simpl.
  - split_and!; [by left|lia|by intros ? ?%elem_of_nil].
  - destruct (IH (Z.max a y)) as (Hin & Hge & Hall). split_and!.
    + destruct Hin as [->|Hin]; [|right; by right].
      destruct (Z.max_spec a y) as [[_ ->]|[_ ->]]; [right; by left|by left].
    + lia.
    + intros x [->|Hx]%elem_of_cons; [lia|by apply Hall].
Qed.

Lemma py_max0_spec xs :
  xs ≠ [] → py_max0 xs ∈ xs ∧ ∀ x, x ∈ xs → x ≤ py_max0 xs.
Proof.
  destruct xs as [|a l]; [done|]. intros _. simpl.
  destruct (foldl_max_spec a l) as (Hin & Hge & Hall). split.
  - destruct Hin as [->|Hin]; [by left|by right].
  - intros x [->|Hx]%elem_of_cons; [done|by apply Hall].
Qed.

Lemma filter_head_split {A} (P : A → Prop) `{∀ x, Decision (P x)} l first rest :
  filter P l = first :: rest →
  ∃ pre post, l = pre ++ first :: post ∧ P first ∧ ∀ y, y ∈ pre → ¬ P y.
Proof.
  induction l as [|a l IH]; [done|]. rewrite filter_cons. case_decide as Ha.
  - intros [= -> <-]. exists [], l. split_and!; [done..|]. by intros ? ?%elem_of_nil.
  - intros (pre & post & -> & Hf & Hpre)%IH. exists (a :: pre), post.
    split_and!; [done..|]. intros y [->|Hy]%elem_of_cons; [done|by apply Hpre].
Qed.

Lemma find_filter_Some {A} (f : A → bool) (P : A → Prop) `{∀ x, Decision (P x)} l x :
  List.find f (filter P l) = Some x →
  ∃ pre post, l = pre ++ x :: post ∧ P x ∧ f x = true
              ∧ ∀ y, y ∈ pre → P y → f y = false.
Proof.
  induction l as [|a l IH]; [done|]. rewrite filter_cons. case_decide as Ha; simpl.
  - destruct (f a) eqn:Hfa.
    + intros [= ->]. exists [], l. split_and!; [done..|]. by intros ? ?%elem_of_nil.
    + intros (pre & post & -> & HP & Hf & Hpre)%IH. exists (a :: pre), post.
      split_and!; [done..|]. intros y [->|Hy]%elem_of_cons; [done|by apply Hpre].
  - intros (pre & post & -> & HP & Hf & Hpre)%IH. exists (a :: pre), post.
    split_and!; [done..|]. intros y [->|Hy]%elem_of_cons; [done|by apply Hpre].
Qed.

Lemma find_filter_None {A} (f : A → bool) (P : A → Prop) `{∀ x, Decision (P x)} l :
  List.find f (filter P l) = None → ∀ y, y ∈ l → P y → f y = false.
Proof.
  induction l as [|a l IH]; [by intros _ ? ?%elem_of_nil|].
  rewrite filter_cons. case_decide as Ha; simpl.
  - destruct (f a) eqn:Hfa; [done|].
    intros Hn y [->|Hy]%elem_of_cons; [done|by apply IH].
  - intros Hn y [->|Hy]%elem_of_cons; [done|by apply IH].
Qed.

(** X5. Champion and runner-up of the header are read from one record of
    the highest round of the flat winners bracket: the first record of that
    round that has a winner, or, when none has, the first record of that
    round.  Without a record of a positive round both stay "TBD". *)
Theorem champion_from_first_final_record
    (winners_bracket : list matchup) (rosters : list roster)
    (user_lookup : gmap string string) :
  ((∀ mt, mt ∈ winners_bracket → default 0 (m_r mt) ≤ 0) →
   champions winners_bracket rosters user_lookup = ("TBD", "TBD"))
  ∧ (∀ played, played ∈ winners_bracket → 0 < default 0 (m_r played) →
     ∃ fm R pre post,
       winners_bracket = pre ++ fm :: post ∧ m_r fm = Some R ∧ 0 < R
       ∧ (∀ x, x ∈ winners_bracket → default 0 (m_r x) ≤ R)
       ∧ ((truthy (m_w fm) = true
           ∧ ∀ y, y ∈ pre → m_r y = Some R → truthy (m_w y) = false)
          ∨ ((∀ y, y ∈ winners_bracket → m_r y = Some R → truthy (m_w y) = false)
             ∧ ∀ y, y ∈ pre → m_r y ≠ Some R))
       ∧ champions winners_bracket rosters user_lookup
         = (default "TBD" (resolve_name rosters user_lookup (m_w fm)),
            default "TBD" (resolve_name rosters user_lookup (m_l fm)))).
Proof.
  split.
  - intros Hall. unfold champions, final_matchup.
    assert (max_round winners_bracket ≤ 0) as Hle.
    { unfold max_round. destruct winners_bracket as [|a l]; [done|].
      destruct (py_max0_spec ((λ mt, default 0 (m_r mt)) <$> a :: l)) as [Hin _]; [done|].
      apply list_elem_of_fmap in Hin as (mt & -> & Hmt). by apply Hall. }
    by rewrite (proj2 (Z.ltb_ge 0 _)).
  - intros played Hin Hpos. unfold champions, final_matchup.
    set (R := max_round winners_bracket).
    destruct (py_max0_spec ((λ mt, default 0 (m_r mt)) <$> winners_bracket))
      as [HRin HRmax].
    { by destruct winners_bracket; [apply elem_of_nil in Hin|]. }
    fold (max_round winners_bracket) in HRin, HRmax. fold R in HRin, HRmax.
    assert (∀ x, x ∈ winners_bracket → default 0 (m_r x) ≤ R) as Hmax.
    { intros x Hx. apply HRmax.
      by apply (list_elem_of_fmap_2 (λ mt, default 0 (m_r mt))). }
    assert (0 < R) as HR by (specialize (Hmax _ Hin); lia).
    rewrite (proj2 (Z.ltb_lt 0 R)) by done.
    apply list_elem_of_fmap in HRin as (top & Htop & Htopin).
    assert (m_r top = Some R) as HtopR.
    { destruct (m_r top); simpl in Htop; [congruence|lia]. }
    unfold of_round.
    destruct (filter (λ mt, m_r mt = Some R) winners_bracket) as [|first rest] eqn:Hf.
    { assert (top ∈ filter (λ mt, m_r mt = Some R) winners_bracket) as Habs
        by by apply list_elem_of_filter.
      rewrite Hf in Habs. by apply elem_of_nil in Habs. }
    rewrite <-Hf.
    destruct (List.find (λ mt, truthy (m_w mt))
                (filter (λ mt, m_r mt = Some R) winners_bracket)) as [fm|] eqn:Hfind; simpl.
    + destruct (find_filter_Some _ _ _ _ Hfind) as (pre & post & Hsplit & HfmR & Hw & Hpre).
      exists fm, R, pre, post. split_and!; [done..| |done]. by left.
    + destruct (filter_head_split _ _ _ _ Hf) as (pre & post & Hsplit & HfR & Hpre).
      exists first, R, pre, post. split_and!; [done..| |done].
      right. split; [|done]. exact (find_filter_None _ _ _ Hfind).
Qed.

(** *** First place of the regular season *)

Lemma place_lt_true a b :
  place_lt a b = true ↔ wins a < wins b ∨ (wins a = wins b ∧ fpts a < fpts b).
Proof. unfold place_lt. lia. Qed.

Lemma place_lt_false a b :
  place_lt a b = false ↔ wins b < wins a ∨ (wins b = wins a ∧ fpts b ≤ fpts a).
Proof. unfold place_lt. lia. Qed.

Lemma head_insert_place x l :
  head (insert_place x l)
  = Some (match head l with
          | Some y => if place_lt x y then y else x
          | None => x
          end).
Proof. destruct l as [|y l]; simpl; [done|]. by destruct (place_lt x y). Qed.

(** The top roster is a roster of the list with the largest key. *)
Lemma top_roster_best rosters top :
  top_roster rosters = Some top →
  top ∈ rosters ∧ ∀ ro, ro ∈ rosters → place_lt top ro = false.
Proof.
  unfold top_roster, sorted_rosters. revert top.
  induction rosters as [|x xs IH]; intros top; simpl; [done|].
  rewrite head_insert_place.
  destruct (head (foldr insert_place [] xs)) as [y|] eqn:Hy.
  - destruct (IH y eq_refl) as [Hyin Hymax].
    destruct (place_lt x y) eqn:Hxy; intros [= <-].
    + split; [by right|]. intros ro [->|Hro]%elem_of_cons; [|by apply Hymax].
      apply place_lt_true in Hxy. apply place_lt_false. lia.
    + split; [by left|]. intros ro [->|Hro]%elem_of_cons.
      * apply place_lt_false. lia.
      * specialize (Hymax _ Hro). apply place_lt_false in Hxy, Hymax.
        apply place_lt_false. lia.
  - intros [= <-]. split; [by left|].
    assert (xs = []) as ->.
    { destruct xs as [|z zs]; [done|]. simpl in Hy.
      by rewrite head_insert_place in Hy. }
    intros ro [->|Hro]%elem_of_cons; [|by apply elem_of_nil in Hro].
    apply place_lt_false. lia.
Qed.

(** X6. The header's first-place roster (sorted on wins and whole points)
    and the roster seeded 1 (sorted on wins and points with the fraction)
    have the same wins and the same whole points; they can be two rosters
    when these tie, and then the one seeded 1 has the larger fraction. *)
Theorem first_place_ties_with_seed_one (rosters : list roster) (top one : roster) :
  NoDup (roster_id <$> rosters) →
  (∀ ro, ro ∈ rosters → 0 ≤ fpts_decimal ro < 100) →
  top_roster rosters = Some top →
  one ∈ rosters → get_playoff_seeds rosters !! roster_id one = Some 1 →
  top ∈ rosters ∧ wins top = wins one ∧ fpts top = fpts one
  ∧ fpts_decimal top ≤ fpts_decimal one.
Proof.
  intros Hnd Hdec Htop Hone Hseed.
  destruct (top_roster_best _ _ Htop) as [Htopin Hbest].
  split; [done|].
  apply (SeedFacts.roster_seed rosters Hnd) in Hseed as (k & Hk & _ & Hk0); [|done].
  assert (k = 0%nat) as -> by lia.
  destruct (SeedFacts.roster_rank rosters top Htopin) as (k' & Hk' & _).
  pose proof (Hbest _ Hone) as Hplace. apply place_lt_false in Hplace.
  pose proof (Hdec _ Hone) as Hd1. pose proof (Hdec _ Htopin) as Hd2.
  destruct k' as [|k'].
  - assert (standing_of top = standing_of one) as E by congruence.
    injection E as _ Hw Hp. unfold points_of in Hp. lia.
  - assert (key_lt (standing_of one) (standing_of top) = false) as Hkey.
    { apply (SeedFacts.standings_sorted_lookup rosters 0 (S k')); [lia|done..]. }
    apply SeedFacts.key_lt_false in Hkey. simpl in Hkey. unfold points_of in Hkey. lia.
Qed.

(** Two rosters on five wins and 100 whole points: the first of the list
    is the header's first place, the second (fraction .90 against .10) is
    seeded 1. *)
Lemma first_place_ties_witness :
  NoDup (roster_id <$> [Roster 1 None 5 100 10; Roster 2 None 5 100 90])
  ∧ top_roster [Roster 1 None 5 100 10; Roster 2 None 5 100 90]
    = Some (Roster 1 None 5 100 10)
  ∧ get_playoff_seeds [Roster 1 None 5 100 10; Roster 2 None 5 100 90] !! 2 = Some 1
  ∧ wins (Roster 1 None 5 100 10) = wins (Roster 2 None 5 100 90)
  ∧ fpts_decimal (Roster 1 None 5 100 10) ≤ fpts_decimal (Roster 2 None 5 100 90).
Proof.
  assert (NoDup (roster_id <$> [Roster 1 None 5 100 10; Roster 2 None 5 100 90])) as Hnd.
  { apply (bool_decide_unpack _). vm_compute. exact I. }
  assert (∀ ro, ro ∈ [Roster 1 None 5 100 10; Roster 2 None 5 100 90] →
                0 ≤ fpts_decimal ro < 100) as Hdec.
  { intros ro. rewrite !elem_of_cons, elem_of_nil. intros [->|[->|[]]]; simpl; lia. }
  assert (top_roster [Roster 1 None 5 100 10; Roster 2 None 5 100 90]
          = Some (Roster 1 None 5 100 10)) as Htop by (vm_compute; reflexivity).
  assert (Roster 2 None 5 100 90 ∈ [Roster 1 None 5 100 10; Roster 2 None 5 100 90])
    as Hin by (right; left).
  assert (get_playoff_seeds [Roster 1 None 5 100 10; Roster 2 None 5 100 90] !! 2
          = Some 1) as Hseed by (vm_compute; reflexivity).
  destruct (first_place_ties_with_seed_one _ _ _ Hnd Hdec Htop Hin Hseed)
    as (_ & Hw & _ & Hd).
  split_and!; done.
Defined.

End HeaderFacts.

(** ** The Sleeper parser, entry by entry *)

Module ParserFacts.

Import Seeds Attribution Transactions Reports.

Lemma parsed_app_assoc a b c :
  parsed_app (parsed_app a b) c = parsed_app a (parsed_app b c).
Proof. unfold parsed_app; simpl. by rewrite !app_assoc. Qed.

Lemma parsed_app_nil_r a : parsed_app a (Parsed [] [] []) = a.
Proof. destruct a. unfold parsed_app; simpl. by rewrite !app_nil_r. Qed.

Section Parser.

Variable user_lookup : gmap string string.
Variable display_name : string → string.
Variable days_since_start : Z → option Z.
Variable trade_player_name : string → string.
Variable roster_order : set_listing.
Variable r2u : gmap Z string.
Variable matchup_data : matchup_data_t.
Variable season : option Z.

Local Abbreviation step :=
  (parse_step user_lookup display_name days_since_start trade_player_name roster_order
     r2u matchup_data season).
Local Abbreviation entry :=
  (parse_add user_lookup display_name days_since_start r2u matchup_data season).

(** What one transaction adds to the output. *)
Lemma step_app out trans : step out trans = parsed_app out (step (Parsed [] [] []) trans).
Proof.
  unfold parse_step, parsed_app. destruct out as [ts ws ads]. simpl.
  repeat case_bool_decide; simpl; rewrite ?app_nil_r; try done.
  - by destruct (parse_trade _ _ _ _ trans); simpl; rewrite ?app_nil_r.
  - by destruct (0 <? waiver_bid trans); simpl; rewrite ?app_nil_r.
Qed.

Lemma fold_app out txs :
  foldl step out txs = parsed_app out (foldl step (Parsed [] [] []) txs).
Proof.
  revert out. induction txs as [|t txs IH]; intros out; simpl.
  - by rewrite parsed_app_nil_r.
  - rewrite IH, (IH (step _ t)), step_app, parsed_app_assoc. done.
Qed.

(** Where an entry of [waivers] or [add_drops] comes from. *)
Lemma waiver_origin txs wd :
  wd ∈ waivers (foldl step (Parsed [] [] []) txs) →
  ∃ trans mv, trans ∈ txs ∧ mv ∈ adds trans ∧ wd = entry trans mv
              ∧ trans_type trans = "waiver" ∧ 0 < waiver_bid trans.
Proof.
  induction txs as [|t txs IH]; simpl; [by intros ?%elem_of_nil|].
  rewrite fold_app. simpl. rewrite elem_of_app. intros [Hin|Hin].
  - exists t. revert Hin. unfold parse_step. simpl.
    repeat case_bool_decide; simpl;
      try (destruct (parse_trade _ _ _ _ t); simpl);
      try (destruct (Z.ltb_spec 0 (waiver_bid t)); simpl);
      try (by intros ?%elem_of_nil);
      intros (mv & -> & Hmv)%list_elem_of_fmap; exists mv;
      split_and!; first [by left | done | lia | tauto].
  - destruct (IH Hin) as (trans & mv & ? & ?). exists trans, mv. split; [by right|done].
Qed.

Lemma add_drop_origin txs wd :
  wd ∈ add_drops (foldl step (Parsed [] [] []) txs) →
  ∃ trans mv, trans ∈ txs ∧ mv ∈ adds trans ∧ wd = entry trans mv
              ∧ trans_type trans ∈ ["waiver"; "free_agent"; "commissioner"]
              ∧ ¬ (trans_type trans = "waiver" ∧ 0 < waiver_bid trans).
Proof.
  induction txs as [|t txs IH]; simpl; [by intros ?%elem_of_nil|].
  rewrite fold_app. simpl. rewrite elem_of_app. intros [Hin|Hin].
  - exists t. revert Hin. unfold parse_step. simpl.
    repeat case_bool_decide; simpl;
      try (destruct (parse_trade _ _ _ _ t); simpl);
      try (destruct (Z.ltb_spec 0 (waiver_bid t)); simpl);
      try (by intros ?%elem_of_nil);
      intros (mv & -> & Hmv)%list_elem_of_fmap; exists mv;
      split_and!; first [by left | done | lia | tauto].
  - destruct (IH Hin) as (trans & mv & ? & ?). exists trans, mv. split; [by right|done].
Qed.

Lemma trade_origin txs td :
  td ∈ trades (foldl step (Parsed [] [] []) txs) →
  ∃ trans, trans ∈ txs ∧ trans_type trans = "trade"
           ∧ parse_trade user_lookup trade_player_name roster_order r2u trans = Some td.
Proof.
  induction txs as [|t txs IH]; simpl; [by intros ?%elem_of_nil|].
  rewrite fold_app. simpl. rewrite elem_of_app. intros [Hin|Hin].
  - exists t. revert Hin. unfold parse_step. simpl.
    repeat case_bool_decide; simpl;
      try (destruct (parse_trade _ _ _ _ t) eqn:E; simpl);
      try (destruct (0 <? waiver_bid t); simpl);
      try (by intros ?%elem_of_nil);
      intros ->%list_elem_of_singleton; split_and!; first [by left | done].
  - destruct (IH Hin) as (trans & ? & ?). exists trans. split; [by right|done].
Qed.

End Parser.

(** X7. Parsing a feed made of two parts gives the outputs of the parts one
    after the other: each of the three lists is in feed order and what a
    transaction yields does not depend on the transactions around it. *)
Theorem parse_of_concatenated_feeds
    (user_lookup : gmap string string) (display_name : string → string)
    (days_since_start : Z → option Z)
    (trade_player_name : string → string) (roster_order : set_listing)
    (first second : list transaction)
    (rosters : list roster) (matchup_data : matchup_data_t) (season : option Z) :
  parse_sleeper_transactions user_lookup display_name days_since_start
    trade_player_name roster_order
    (first ++ second) rosters matchup_data season
  = parsed_app
      (parse_sleeper_transactions user_lookup display_name days_since_start
         trade_player_name roster_order
         first rosters matchup_data season)
      (parse_sleeper_transactions user_lookup display_name days_since_start
         trade_player_name roster_order
         second rosters matchup_data season).
Proof.
  unfold parse_sleeper_transactions. rewrite foldl_app. apply fold_app.
Qed.

(** X8. The three outputs sort the transactions by kind: an entry of
    [waivers] is the claim of a 'waiver' transaction with a positive bid; an
    entry of [add_drops] comes from a 'waiver', 'free_agent' or
    'commissioner' transaction that is not a waiver with a positive bid;
    every trade is listed with exactly two teams. *)
Theorem parsed_lists_sort_by_kind
    (user_lookup : gmap string string) (display_name : string → string)
    (days_since_start : Z → option Z)
    (trade_player_name : string → string) (roster_order : set_listing)
    (transactions : list transaction)
    (rosters : list roster) (matchup_data : matchup_data_t) (season : option Z) :
  let out := parse_sleeper_transactions user_lookup display_name days_since_start
               trade_player_name roster_order
               transactions rosters matchup_data season in
  (∀ wd, wd ∈ waivers out → wd_type wd = "waiver" ∧ 0 < wd_faab_bid wd)
  ∧ (∀ wd, wd ∈ add_drops out →
           wd_type wd ∈ ["waiver"; "free_agent"; "commissioner"]
           ∧ ¬ (wd_type wd = "waiver" ∧ 0 < wd_faab_bid wd))
  ∧ (∀ td, td ∈ trades out → length (td_teams td) = 2%nat).
Proof.
  intros out. subst out. unfold parse_sleeper_transactions. split_and!.
  - by intros wd (trans & mv & _ & _ & -> & Hty & Hbid)%waiver_origin.
  - by intros wd (trans & mv & _ & _ & -> & Hty & Hbid)%add_drop_origin.
  - intros td (trans & _ & _ & Htd)%trade_origin.
    by eapply TransactionFacts.kept_trade_has_two_teams.
Qed.

End ParserFacts.

(** ** Value attribution: bounds and composition *)

Module ValueFacts.

Import Seeds Attribution Transactions Reports.

Lemma estimate_week_range days_since_start created w :
  estimate_week days_since_start created = Some w → 1 ≤ w ≤ 18.
Proof.
  unfold estimate_week. destruct created as [c|]; [|done].
  destruct (truthy (Some c)); [|done].
  destruct (days_since_start c) as [d|]; [|done].
  destruct (Z.leb_spec 0 d); [|done]. intros [= <-].
  assert (0 ≤ d / 7) by (apply Z.div_pos; lia). lia.
Qed.

Lemma positive_week_sound md rid pid w : sound3 (positive_week md rid pid w).
Proof.
  unfold positive_week, sound3.
  destruct (snapshot md w rid) as [tm|]; simpl; [|lia].
  destruct (players_points tm !! pid) as [pts|]; simpl; [|lia].
  repeat case_bool_decide; simpl; lia.
Qed.

Lemma add3_sound a b : sound3 a → sound3 b → sound3 (add3 a b).
Proof. unfold sound3, add3. simpl. lia. Qed.

Lemma sum3_sound l : Forall sound3 l → sound3 (sum3 l).
Proof.
  induction 1 as [|a l Ha Hl IH]; simpl; [unfold sound3; simpl; lia|].
  by apply add3_sound.
Qed.

Lemma weeks_sound md rid pid ws : sound3 (sum3 (positive_week md rid pid <$> ws)).
Proof.
  apply sum3_sound, Forall_fmap, Forall_forall. intros w _. apply positive_week_sound.
Qed.

Lemma player_total_sound md mapping rid w name :
  sound3 (player_total md mapping rid w name).
Proof.
  unfold player_total. destruct (mapping !! name) as [pid|]; [|unfold sound3; simpl; lia].
  case_bool_decide; [unfold sound3; simpl; lia|]. apply weeks_sound.
Qed.

Lemma started_weeks_bound md rid pid ws :
  0 ≤ sumZ (started_week md rid pid <$> ws) ≤ Z.of_nat (length ws).
Proof.
  induction ws as [|w ws IH]; [simpl; lia|].
  rewrite fmap_cons. unfold sumZ in *. cbn [foldr length].
  assert (0 ≤ started_week md rid pid w ≤ 1).
  { unfold started_week. destruct (snapshot md w rid); [case_bool_decide|]; lia. }
  lia.
Qed.

(** The pickup numbers, when there are any: the week is known and before
    week 18, nothing is negative, the starts fit in the weeks left, and one
    of the two numbers is positive. *)
Lemma pickup_stats_sound md season week rid pid t g :
  pickup_stats md season week rid pid = Some (t, g) →
  ∃ w, week = Some w ∧ w ≤ 17 ∧ 0 ≤ t ∧ 0 ≤ g ≤ 18 - w ∧ (0 < t ∨ 0 < g).
Proof.
  unfold pickup_stats. destruct week as [w|]; [|done].
  destruct (_ && _); [|done]. unfold pickup_totals.
  rewrite AttributionFacts.pickup_weeks_sum. cbn [fst snd].
  pose proof (started_weeks_bound md rid pid (weeks_from (w + 1))) as Hg.
  pose proof (weeks_sound md rid pid (weeks_from (w + 1))) as (Hl & Hb & _).
  destruct (Z.le_gt_cases 18 w) as [Hw|Hw].
  - rewrite (AttributionFacts.weeks_from_nil (w + 1)) by lia. done.
  - unfold weeks_from in Hg. rewrite length_seqZ in Hg.
    set (l := sum3 _) in *. set (st := sumZ _) in *.
    destruct (Z.ltb_spec 0 (0 + (l.1.1 + l.1.2))), (Z.ltb_spec 0 (0 + st));
      simpl; intros [= <- <-]; exists w; split_and!; try done; lia.
Qed.

(** X9. Every entry of the [waivers] and [add_drops] outputs carries a
    week between 1 and 18 when it carries one, and its points and starts
    after the pickup are numbers only for a pickup before week 18: then the
    points are not negative, the starts are between 0 and the number of
    weeks left after the pickup week, and one of the two is positive;
    otherwise both are 'N/A'. *)
Theorem pickup_numbers_are_bounded
    (user_lookup : gmap string string) (display_name : string → string)
    (days_since_start : Z → option Z)
    (trade_player_name : string → string) (roster_order : set_listing)
    (transactions : list transaction)
    (rosters : list roster) (matchup_data : matchup_data_t) (season : option Z) :
  let out := parse_sleeper_transactions user_lookup display_name days_since_start
               trade_player_name roster_order
               transactions rosters matchup_data season in
  ∀ wd, wd ∈ waivers out ++ add_drops out →
    (∀ w, wd_week wd = Some w → 1 ≤ w ≤ 18)
    ∧ (∀ t g, wd_stats wd = Some (t, g) →
         ∃ w, wd_week wd = Some w ∧ w ≤ 17
              ∧ 0 ≤ t ∧ 0 ≤ g ≤ 18 - w ∧ (0 < t ∨ 0 < g)).
Proof.
  intros out wd H. subst out. unfold parse_sleeper_transactions in H.
  assert (∃ trans mv, wd = parse_add user_lookup display_name days_since_start
                             (roster_to_user rosters) matchup_data season trans mv)
    as (trans & mv & ->).
  { apply elem_of_app in H as [H|H].
    - destruct (ParserFacts.waiver_origin _ _ _ _ _ _ _ _ _ _ H) as (tr & mv & _ & _ & ? & _).
      by exists tr, mv.
    - destruct (ParserFacts.add_drop_origin _ _ _ _ _ _ _ _ _ _ H) as (tr & mv & _ & _ & ? & _).
      by exists tr, mv. }
  cbn [parse_add wd_week wd_stats]. split.
  - intros w. apply estimate_week_range.
  - intros t g. apply pickup_stats_sound.
Qed.


(** The claim of the sample ledger, processed in week 3 on the example
    weeks: 28 points and one start after the pickup. *)
Lemma pickup_numbers_witness :
  parse_add Ledger.users Ledger.plain_name Ledger.day14 (roster_to_user Ledger.rosters)
    Snapshots.example_weeks (Some 2024) (Ledger.claim "c1" "complete") ("P", 1)
  ∈ waivers (parse_sleeper_transactions Ledger.users Ledger.plain_name Ledger.day14
               Ledger.plain_name ascending
               [Ledger.claim "c1" "complete"] Ledger.rosters
               Snapshots.example_weeks (Some 2024))
    ++ add_drops (parse_sleeper_transactions Ledger.users Ledger.plain_name
                    Ledger.day14 Ledger.plain_name ascending
                    [Ledger.claim "c1" "complete"] Ledger.rosters
                    Snapshots.example_weeks (Some 2024))
  ∧ ∃ w, wd_week (parse_add Ledger.users Ledger.plain_name Ledger.day14
                    (roster_to_user Ledger.rosters) Snapshots.example_weeks
                    (Some 2024) (Ledger.claim "c1" "complete") ("P", 1)) = Some w
         ∧ w ≤ 17 ∧ 0 ≤ 28 ∧ 0 ≤ 1 ≤ 18 - w ∧ (0 < 28 ∨ 0 < 1).
Proof.
  assert (parse_add Ledger.users Ledger.plain_name Ledger.day14 (roster_to_user Ledger.rosters)
            Snapshots.example_weeks (Some 2024) (Ledger.claim "c1" "complete") ("P", 1)
          ∈ waivers (parse_sleeper_transactions Ledger.users Ledger.plain_name
                       Ledger.day14 Ledger.plain_name ascending
                       [Ledger.claim "c1" "complete"] Ledger.rosters
                       Snapshots.example_weeks (Some 2024))
            ++ add_drops (parse_sleeper_transactions Ledger.users Ledger.plain_name
                            Ledger.day14 Ledger.plain_name ascending
                            [Ledger.claim "c1" "complete"] Ledger.rosters
                            Snapshots.example_weeks (Some 2024))) as Hin.
  { vm_compute. left. }
  split; [exact Hin|].
  apply (pickup_numbers_are_bounded Ledger.users Ledger.plain_name Ledger.day14
           Ledger.plain_name ascending [Ledger.claim "c1" "complete"] Ledger.rosters
           Snapshots.example_weeks
           (Some 2024) _ Hin).
  vm_compute. reflexivity.
Defined.


Lemma sum3_app l1 l2 : sum3 (l1 ++ l2) = add3 (sum3 l1) (sum3 l2).
Proof.
  induction l1 as [|a l1 IH]; simpl.
  - by rewrite AttributionFacts.add3_0_l.
  - by rewrite IH, AttributionFacts.add3_assoc.
Qed.

Lemma trade_player_step_add md mapping rid w acc name :
  trade_player_step md mapping rid w acc name
  = add3 acc (player_total md mapping rid w name).
Proof.
  unfold trade_player_step, player_total.
  destruct (mapping !! name) as [pid|]; [|by rewrite AttributionFacts.add3_0_r].
  case_bool_decide; [by rewrite AttributionFacts.add3_0_r|].
  apply AttributionFacts.trade_weeks_sum.
Qed.

(** The trade attribution of a list of players is the sum over the players. *)
Lemma calc_as_sum md mapping players rid w :
  calc_player_stats_after_trade md mapping players rid w
  = sum3 (player_total md mapping rid w <$> players).
Proof.
  unfold calc_player_stats_after_trade.
  enough (∀ acc, foldl (trade_player_step md mapping rid w) acc players
                 = add3 acc (sum3 (player_total md mapping rid w <$> players))) as H
    by by rewrite H, AttributionFacts.add3_0_l.
  induction players as [|p ps IH]; intros acc; simpl.
  - by rewrite AttributionFacts.add3_0_r.
  - by rewrite IH, trade_player_step_add, AttributionFacts.add3_assoc.
Qed.

(** The loop over the names is the loop over the identifiers they resolve
    to: the same weekly steps, in the same order. *)
Lemma calc_over_resolved_ids md mapping players rid w acc :
  foldl (trade_player_step md mapping rid w) acc players
  = foldl (λ acc' pid, foldl (trade_week_step md rid pid) acc' (weeks_from w)) acc
          (omap (resolved_id mapping) players).
Proof.
  revert acc. induction players as [|p ps IH]; intros acc; [done|].
  cbn [foldl omap list_omap]. rewrite IH. unfold trade_player_step, resolved_id.
  destruct (mapping !! p) as [pid|]; [|done]. by case_bool_decide.
Qed.

(** X10. The trade attribution reads the players received through their
    identifiers only: two lists of names that resolve to the same
    identifiers in the same order get the same numbers, whatever the names
    are; in particular a name that does not resolve (no entry in the
    mapping, or an empty identifier) counts as nothing, wherever it stands
    in the list.  The running sums go through the same values in the same
    order on both sides, so that nothing here depends on how the sums are
    rounded. *)
Theorem trade_attribution_reads_resolved_players
    (matchup_data : matchup_data_t) (player_id_mapping : gmap string string)
    (roster_id trade_week : Z) :
  (∀ names1 names2,
     omap (resolved_id player_id_mapping) names1
     = omap (resolved_id player_id_mapping) names2 →
     calc_player_stats_after_trade matchup_data player_id_mapping names1
       roster_id trade_week
     = calc_player_stats_after_trade matchup_data player_id_mapping names2
         roster_id trade_week)
  ∧ (∀ some name others,
       player_id_mapping !! name = None ∨ player_id_mapping !! name = Some "" →
       calc_player_stats_after_trade matchup_data player_id_mapping
         (some ++ name :: others) roster_id trade_week
       = calc_player_stats_after_trade matchup_data player_id_mapping
           (some ++ others) roster_id trade_week).
Proof.
  assert (∀ names1 names2,
            omap (resolved_id player_id_mapping) names1
            = omap (resolved_id player_id_mapping) names2 →
            calc_player_stats_after_trade matchup_data player_id_mapping names1
              roster_id trade_week
            = calc_player_stats_after_trade matchup_data player_id_mapping names2
                roster_id trade_week) as Hsame.
  { intros names1 names2 Hids. unfold calc_player_stats_after_trade.
    by rewrite !calc_over_resolved_ids, Hids. }
  split; [exact Hsame|]. intros some name others Hname. apply Hsame.
  rewrite !omap_app. f_equal. cbn [omap list_omap].
  assert (resolved_id player_id_mapping name = None) as ->; [|done].
  unfold resolved_id. by destruct Hname as [-> | ->].
Qed.

(** A second name of the same player and a name nobody carries change
    nothing. *)
Example attribution_by_identifier :
  calc_player_stats_after_trade Snapshots.example_weeks
    {[ "Pat P" := "P"; "P. Pat" := "P"; "Nobody" := "" ]} ["Ghost"; "P. Pat"; "Nobody"] 1 3
  = calc_player_stats_after_trade Snapshots.example_weeks
      {[ "Pat P" := "P"; "P. Pat" := "P"; "Nobody" := "" ]} ["Pat P"] 1 3.
Proof. by vm_compute. Qed.

(** X11. The numbers of the trade attribution are never negative, and the
    players count a start exactly when they count lineup points: starts are
    positive if and only if lineup points are. *)
Theorem trade_attribution_is_sound
    (matchup_data : matchup_data_t) (player_id_mapping : gmap string string)
    (players_list : list string) (roster_id trade_week : Z) :
  let stats := calc_player_stats_after_trade matchup_data player_id_mapping
                 players_list roster_id trade_week in
  0 ≤ stats.1.1 ∧ 0 ≤ stats.1.2 ∧ 0 ≤ stats.2 ∧ (0 < stats.2 ↔ 0 < stats.1.1).
Proof.
  intros stats. subst stats. rewrite calc_as_sum.
  apply sum3_sound, Forall_fmap, Forall_forall. intros name _.
  apply player_total_sound.
Qed.

Lemma weeks_from_split w w' :
  w ≤ w' ≤ 19 → weeks_from w = seqZ w (w' - w) ++ weeks_from w'.
Proof.
  intros Hw. unfold weeks_from.
  replace (19 - w) with ((w' - w) + (19 - w')) by lia.
  rewrite seqZ_app by lia. do 2 f_equal; lia.
Qed.

Lemma player_total_antitone md mapping rid w w' name :
  w ≤ w' → le3 (player_total md mapping rid w' name) (player_total md mapping rid w name).
Proof.
  intros Hw. unfold player_total.
  destruct (mapping !! name) as [pid|]; [|unfold le3; simpl; lia].
  case_bool_decide; [unfold le3; simpl; lia|].
  destruct (Z.le_gt_cases w' 19) as [Hle|Hgt].
  - rewrite (weeks_from_split w w') by lia. rewrite fmap_app, sum3_app.
    pose proof (weeks_sound md rid pid (seqZ w (w' - w))) as (? & ? & ? & _).
    unfold le3, add3. simpl. lia.
  - rewrite (AttributionFacts.weeks_from_nil w') by lia. simpl.
    pose proof (weeks_sound md rid pid (weeks_from w)) as (? & ? & ? & _).
    unfold le3. simpl. lia.
Qed.

Lemma le3_add3 a b c d : le3 a b → le3 c d → le3 (add3 a c) (add3 b d).
Proof. unfold le3, add3. simpl. lia. Qed.

(** X12. A later trade week never raises a number of the attribution:
    lineup points, bench points and starts computed from week w' are at
    most those computed from an earlier week w. *)
Theorem trade_attribution_shrinks_with_week
    (matchup_data : matchup_data_t) (player_id_mapping : gmap string string)
    (players_list : list string) (roster_id w w' : Z) :
  w ≤ w' →
  le3 (calc_player_stats_after_trade matchup_data player_id_mapping players_list
         roster_id w')
      (calc_player_stats_after_trade matchup_data player_id_mapping players_list
         roster_id w).
Proof.
  intros Hw. rewrite !calc_as_sum.
  induction players_list as [|p ps IH]; [unfold le3; simpl; lia|].
  rewrite !fmap_cons. unfold sum3 in *. cbn [foldr].
  by apply le3_add3; [apply player_total_antitone|].
Qed.

(** The example of weeks 4 and 5: from week 3 the player counts (20, 8, 1),
    from week 5 only the bench points of week 5. *)
Lemma trade_attribution_shrinks_witness :
  3 ≤ 5
  ∧ calc_player_stats_after_trade Snapshots.example_weeks Snapshots.names ["Pat P"] 1 3
    = (20, 8, 1)
  ∧ calc_player_stats_after_trade Snapshots.example_weeks Snapshots.names ["Pat P"] 1 5
    = (0, 8, 0)
  ∧ le3 (calc_player_stats_after_trade Snapshots.example_weeks Snapshots.names
           ["Pat P"] 1 5)
        (calc_player_stats_after_trade Snapshots.example_weeks Snapshots.names
           ["Pat P"] 1 3).
Proof.
  assert (3 ≤ 5) as H by lia.
  split_and!; [exact H|by vm_compute..|].
  exact (trade_attribution_shrinks_with_week Snapshots.example_weeks Snapshots.names
           ["Pat P"] 1 3 5 H).
Defined.

End ValueFacts.

(** ** Reports over the parsed transactions *)

Module ReportFacts.

Import Seeds Attribution Transactions Reports.

(** *** Moves per team *)

Lemma bump_lookup f t d team :
  bump f t d !! team
  = if bool_decide (t = team)
    then Some (f (default (TeamCounts 0 0 0) (d !! team)))
    else d !! team.
Proof.
  unfold bump. case_bool_decide as Ht.
  - subst t. by rewrite lookup_insert_eq.
  - by rewrite lookup_insert_ne.
Qed.

Lemma tally_eq d team nt nf nw nt' nf' nw' :
  tally d team nt nf nw → nt = nt' → nf = nf' → nw = nw' → tally d team nt' nf' nw'.
Proof. by intros ? -> -> ->. Qed.

Lemma tally_bump f t d team nt nf nw :
  t ≠ team → tally d team nt nf nw → tally (bump f t d) team nt nf nw.
Proof.
  intros Ht (? & ? & ? & Hd). unfold tally. rewrite bump_lookup.
  by rewrite (bool_decide_eq_false_2 (t = team)).
Qed.

Lemma tally_trade d team nt nf nw :
  tally d team nt nf nw → tally (bump add_trade team d) team (nt + 1) nf nw.
Proof.
  intros (? & ? & ? & Hd). unfold tally. rewrite bump_lookup, Hd.
  rewrite (bool_decide_eq_true_2 (team = team)) by done.
  rewrite (bool_decide_eq_false_2 (nt + 1 + nf + nw = 0)) by lia.
  split_and!; try lia. unfold add_trade.
  case_bool_decide; simpl; do 2 f_equal; lia.
Qed.

Lemma tally_fa_pickup d team nt nf nw :
  tally d team nt nf nw → tally (bump add_fa_pickup team d) team nt (nf + 1) nw.
Proof.
  intros (? & ? & ? & Hd). unfold tally. rewrite bump_lookup, Hd.
  rewrite (bool_decide_eq_true_2 (team = team)) by done.
  rewrite (bool_decide_eq_false_2 (nt + (nf + 1) + nw = 0)) by lia.
  split_and!; try lia. unfold add_fa_pickup.
  case_bool_decide; simpl; do 2 f_equal; lia.
Qed.

Lemma tally_move d team nt nf nw :
  tally d team nt nf nw → tally (bump add_move team d) team nt nf (nw + 1).
Proof.
  intros (? & ? & ? & Hd). unfold tally. rewrite bump_lookup, Hd.
  rewrite (bool_decide_eq_true_2 (team = team)) by done.
  rewrite (bool_decide_eq_false_2 (nt + nf + (nw + 1) = 0)) by lia.
  split_and!; try lia. unfold add_move.
  case_bool_decide; simpl; do 2 f_equal; lia.
Qed.

Lemma tally_teams d team teams nt nf nw :
  tally d team nt nf nw →
  tally (foldl (λ d' t, bump add_trade t d') d teams) team
        (nt + Z.of_nat (length (filter (λ t, t = team) teams))) nf nw.
Proof.
  revert d nt. induction teams as [|t ts IH]; intros d nt Hd; cbn [foldl].
  - eapply tally_eq; [done|simpl; lia|done..].
  - rewrite filter_cons. destruct (decide (t = team)) as [->|Hne].
    + eapply tally_eq; [apply IH, tally_trade, Hd|cbn [length]; lia|done..].
    + by apply IH, tally_bump.
Qed.

Lemma count_trades_concat trades d :
  count_trades trades d
  = foldl (λ d' t, bump add_trade t d') d (concat (td_teams <$> trades)).
Proof.
  unfold count_trades. revert d. induction trades as [|tr trs IH]; intros d; [done|].
  rewrite fmap_cons. cbn [foldl concat]. by rewrite foldl_app, IH.
Qed.

Lemma tally_fa_pickups d team add_drops nt nf nw :
  tally d team nt nf nw →
  tally (count_fa_pickups add_drops d) team nt (nf + fa_pickups_of team add_drops) nw.
Proof.
  unfold count_fa_pickups, fa_pickups_of.
  revert d nf. induction add_drops as [|ad ads IH]; intros d nf Hd; cbn [foldl].
  - eapply tally_eq; [done|done|simpl; lia|done].
  - rewrite filter_cons. case_bool_decide as Hty.
    + destruct (decide (wd_team ad = team)) as [Hteam|Hne].
      * rewrite decide_True by done. subst team.
        eapply tally_eq; [apply IH, tally_fa_pickup, Hd|done|cbn [length]; lia|done].
      * rewrite decide_False by tauto. by apply IH, tally_bump.
    + rewrite decide_False by tauto. by apply IH.
Qed.

Lemma tally_waivers d team waivers nt nf nw :
  tally d team nt nf nw →
  tally (count_waivers waivers d) team nt nf (nw + waivers_of team waivers).
Proof.
  unfold count_waivers, waivers_of.
  revert d nw. induction waivers as [|w ws IH]; intros d nw Hd; cbn [foldl].
  - eapply tally_eq; [done|done|done|simpl; lia].
  - rewrite filter_cons. destruct (decide (wd_team w = team)) as [Hteam|Hne].
    + subst team.
      eapply tally_eq; [apply IH, tally_move, Hd|done|done|cbn [length]; lia].
    + by apply IH, tally_bump.
Qed.

(** X13. The team table counts listings: a team has a row exactly when it
    is listed in a trade, has a pickup of type 'free_agent' among the
    add/drops, or has a waiver claim; its trades are the number of times it
    is listed in the trades, its free-agent pickups the number of such
    add/drops, and its total moves the sum of the two and of its waiver
    claims.  Add/drops of another type ('waiver' without a bid,
    'commissioner') are counted nowhere. *)
Theorem team_stats_count_listings
    (trades : list trade_data) (waivers add_drops : list waiver_data)
    (team : string) :
  get_team_transaction_stats trades waivers add_drops !! team
  = if bool_decide (trades_of team trades + fa_pickups_of team add_drops
                    + waivers_of team waivers = 0)
    then None
    else Some (TeamCounts (trades_of team trades) (fa_pickups_of team add_drops)
                 (trades_of team trades + fa_pickups_of team add_drops
                  + waivers_of team waivers)).
Proof.
  assert (tally (∅ : gmap string team_counts) team 0 0 0) as H0.
  { unfold tally. split_and!; try lia. by rewrite lookup_empty. }
  apply (tally_teams _ _ (concat (td_teams <$> trades))) in H0.
  rewrite <- count_trades_concat in H0.
  apply (tally_fa_pickups _ _ add_drops) in H0.
  apply (tally_waivers _ _ waivers) in H0.
  destruct H0 as (_ & _ & _ & H0). exact H0.
Qed.

(** *** The highest bids *)

Lemma insert_bid_split x l :
  ∃ l1 l2, l = l1 ++ l2 ∧ insert_bid x l = l1 ++ x :: l2
           ∧ Forall (λ y, wd_faab_bid x < wd_faab_bid y) l1
           ∧ (∀ y, head l2 = Some y → wd_faab_bid y ≤ wd_faab_bid x).
Proof.
  induction l as [|y l IH]; simpl.
  - exists [], []. by split_and!.
  - destruct (Z.ltb_spec (wd_faab_bid x) (wd_faab_bid y)) as [Hxy|Hxy].
    + destruct IH as (l1 & l2 & -> & -> & Hall & Hhd).
      exists (y :: l1), l2. split_and!; [done..|by constructor|done].
    + exists [], (y :: l). split_and!; [done..|]. by intros ? [= <-].
Qed.

Lemma insert_bid_perm x l : insert_bid x l ≡ₚ x :: l.
Proof.
  destruct (insert_bid_split x l) as (l1 & l2 & -> & -> & _).
  by rewrite Permutation_middle.
Qed.

Lemma sorted_waivers_perm l : sorted_waivers l ≡ₚ l.
Proof.
  induction l as [|x l IH]; [done|]. unfold sorted_waivers in *. cbn [foldr].
  by rewrite insert_bid_perm, IH.
Qed.

Lemma insert_bid_sorted x l :
  StronglySorted (λ a b, wd_faab_bid b ≤ wd_faab_bid a) l →
  StronglySorted (λ a b, wd_faab_bid b ≤ wd_faab_bid a) (insert_bid x l).
Proof.
  induction 1 as [|y l Hl IH Hy]; simpl; [by repeat constructor|].
  destruct (Z.ltb_spec (wd_faab_bid x) (wd_faab_bid y)) as [Hxy|Hxy].
  - constructor; [done|]. rewrite insert_bid_perm. constructor; [lia|done].
  - constructor; [by constructor|]. constructor; [done|].
    eapply Forall_impl; [exact Hy|]. simpl. intros z Hz. lia.
Qed.

Lemma sorted_waivers_sorted l :
  StronglySorted (λ a b, wd_faab_bid b ≤ wd_faab_bid a) (sorted_waivers l).
Proof.
  induction l as [|x l IH]; [constructor|]. by apply insert_bid_sorted.
Qed.

(** Equal bids keep the order of the input. *)
Lemma sorted_waivers_stable bid l :
  filter (λ w, wd_faab_bid w = bid) (sorted_waivers l)
  = filter (λ w, wd_faab_bid w = bid) l.
Proof.
  induction l as [|x l IH]; [done|]. unfold sorted_waivers in *. cbn [foldr].
  destruct (insert_bid_split x (foldr insert_bid [] l)) as (l1 & l2 & E & -> & Hall & _).
  rewrite filter_cons, <- IH, E, !filter_app, filter_cons.
  destruct (decide (wd_faab_bid x = bid)) as [Hx|Hx]; [|done].
  assert (filter (λ w, wd_faab_bid w = bid) l1 = []) as ->; [|done].
  clear E. induction Hall as [|y l1 Hy _ IH1]; [done|].
  rewrite filter_cons_False by lia. exact IH1.
Qed.

(** X14. The FAAB table lists the highest bids: the rows are a prefix of
    the waivers sorted by bid, highest first, so that no waiver left out has
    a higher bid than a listed one, and waivers of equal bid stay in the
    order of the input.  With a limit of zero or more the table has
    min(limit, number of waivers) rows; a negative limit leaves the last
    -limit waivers of the sorted list out. *)
Theorem top_faab_pickups_are_highest_bids
    (waivers : list waiver_data) (limit : Z) :
  ∃ rest,
    get_top_faab_pickups waivers limit ++ rest ≡ₚ waivers
    ∧ StronglySorted (λ a b, wd_faab_bid b ≤ wd_faab_bid a)
        (get_top_faab_pickups waivers limit)
    ∧ (∀ x y, x ∈ get_top_faab_pickups waivers limit → y ∈ rest →
              wd_faab_bid y ≤ wd_faab_bid x)
    ∧ (∀ bid, filter (λ w, wd_faab_bid w = bid)
                (get_top_faab_pickups waivers limit ++ rest)
              = filter (λ w, wd_faab_bid w = bid) waivers)
    ∧ length (get_top_faab_pickups waivers limit)
      = if 0 <=? limit then Nat.min (Z.to_nat limit) (length waivers)
        else (length waivers - Z.to_nat (- limit))%nat.
Proof.
  unfold get_top_faab_pickups, py_prefix.
  pose proof (sorted_waivers_sorted waivers) as Hs.
  pose proof (sorted_waivers_perm waivers) as Hp.
  assert (length (sorted_waivers waivers) = length waivers) as Hlen by by rewrite Hp.
  set (n := if 0 <=? limit then Z.to_nat limit
            else (length (sorted_waivers waivers) - Z.to_nat (- limit))%nat).
  assert ((if 0 <=? limit then take (Z.to_nat limit) (sorted_waivers waivers)
           else take (length (sorted_waivers waivers) - Z.to_nat (- limit))
                  (sorted_waivers waivers))
          = take n (sorted_waivers waivers)) as -> by (subst n; by destruct (0 <=? limit)).
  exists (drop n (sorted_waivers waivers)).
  rewrite take_drop. rewrite <- (take_drop n (sorted_waivers waivers)) in Hs.
  split_and!.
  - done.
  - by eapply StronglySorted_app_1_l.
  - intros x y Hx Hy.
    exact (StronglySorted_app_1_elem_of _ _ _ _ _ Hs Hx Hy).
  - intros bid. apply sorted_waivers_stable.
  - rewrite length_take, Hlen. subst n. destruct (0 <=? limit); lia.
Qed.

(** *** The Yahoo feed *)

Lemma yahoo_step_snoc txs tl trans :
  parse_yahoo_transactions (txs ++ [trans]) tl
  = yahoo_step tl (parse_yahoo_transactions txs tl) trans.
Proof. unfold parse_yahoo_transactions. by rewrite foldl_app. Qed.

(** X15. The Yahoo parser sorts the successful transactions by kind and
    keeps the order of the feed: [trades] are the successful transactions of
    type 'trade', [waivers] the successful 'add', 'drop' and 'add/drop'
    transactions with a positive bid, [add_drops] those without one; every
    such transaction gives one entry, and a transaction of another status
    or type gives none. *)
Theorem yahoo_feed_sorted_by_kind
    (transactions : list yahoo_transaction) (team_lookup : gmap string string) :
  let out := parse_yahoo_transactions transactions team_lookup in
  y_trades out
  = yahoo_trade_of
    <$> filter (λ t, y_status t = "successful" ∧ y_type t = "trade") transactions
  ∧ y_waivers out
    = yahoo_waiver_of team_lookup
      <$> filter (λ t, yahoo_move t ∧ 0 < y_faab_bid t) transactions
  ∧ y_add_drops out
    = yahoo_waiver_of team_lookup
      <$> filter (λ t, yahoo_move t ∧ y_faab_bid t ≤ 0) transactions.
Proof.
  cbv zeta. induction transactions as [|trans txs IH] using rev_ind; [done|].
  destruct IH as (IHt & IHw & IHa).
  rewrite yahoo_step_snoc, !filter_app, !fmap_app, <- IHt, <- IHw, <- IHa.
  unfold yahoo_step, yahoo_move.
  rewrite !filter_cons, !filter_nil.
  destruct (decide (y_status trans = "successful")) as [Hs|Hs].
  - rewrite (bool_decide_eq_false_2 (y_status trans ≠ "successful")) by tauto.
    destruct (decide (y_type trans = "trade")) as [Ht|Ht].
    + rewrite (bool_decide_eq_true_2 (y_type trans = "trade")) by done.
      rewrite decide_True by done. rewrite !decide_False by tauto.
      simpl. by rewrite !app_nil_r.
    + rewrite (bool_decide_eq_false_2 (y_type trans = "trade")) by done.
      rewrite (decide_False (P := _ ∧ y_type trans = "trade")) by tauto.
      case_bool_decide as Hk.
      * destruct (Z.ltb_spec 0 (y_faab_bid trans)).
        -- rewrite decide_True by tauto. rewrite decide_False by lia.
           simpl. by rewrite !app_nil_r.
        -- rewrite decide_False by lia. rewrite decide_True by (split; [tauto|lia]).
           simpl. by rewrite !app_nil_r.
      * rewrite !decide_False by tauto. simpl. by rewrite !app_nil_r.
  - rewrite (bool_decide_eq_true_2 (y_status trans ≠ "successful")) by done.
    rewrite !decide_False by tauto. simpl. by rewrite !app_nil_r.
Qed.

(** *** Several seasons *)

Lemma combine_snoc all yp :
  combine_transactions_across_years (all ++ [yp])
  = combine_step (combine_transactions_across_years all) yp.
Proof. unfold combine_transactions_across_years. by rewrite foldl_app. Qed.

Lemma filter_with_year y y' ws :
  filter (λ w, wd_year w = Some y) (with_year y' <$> ws)
  = if decide (y' = y) then with_year y' <$> ws else [].
Proof.
  induction ws as [|w ws IH]; [by destruct (decide _)|].
  rewrite fmap_cons, filter_cons, IH. simpl.
  destruct (decide (y' = y)) as [->|Hne].
  - by rewrite decide_True.
  - rewrite decide_False; [done|]. by intros [= ?].
Qed.

Lemma filter_year_trades y y' (ts : list trade_data) :
  filter (λ t : Z * trade_data, t.1 = y) ((λ t, (y', t)) <$> ts)
  = if decide (y' = y) then (λ t, (y', t)) <$> ts else [].
Proof.
  induction ts as [|t ts IH]; [by destruct (decide _)|].
  rewrite fmap_cons, filter_cons, IH. simpl.
  by destruct (decide (y' = y)).
Qed.

(** The lists of a year that is not in the dictionary are empty. *)
Lemma combined_other_year all y :
  y ∉ all.*1 →
  let c := combine_transactions_across_years all in
  filter (λ t, t.1 = y) (all_trades c) = []
  ∧ filter (λ w, wd_year w = Some y) (all_waivers c) = []
  ∧ filter (λ w, wd_year w = Some y) (all_add_drops c) = [].
Proof.
  cbv zeta. induction all as [|[y' p'] all IH] using rev_ind; [done|].
  rewrite fmap_app, not_elem_of_app. intros [Hall Hy'].
  destruct (IH Hall) as (IHt & IHw & IHa).
  rewrite combine_snoc. unfold combine_step. cbn [all_trades all_waivers all_add_drops fst snd].
  rewrite !filter_app, IHt, IHw, IHa, !filter_with_year, filter_year_trades.
  destruct (decide (y' = y)) as [->|]; [|done]. destruct Hy'. simpl. left.
Qed.

(** X16. Combining the seasons loses nothing: when the years of the
    dictionary are pairwise different, the entries of the combined lists
    that carry a year are that year's trades, waivers and add/drops, in
    their order. *)
Theorem combined_lists_split_by_year
    (all_transactions : list (Z * parsed)) (year : Z) (p : parsed) :
  NoDup all_transactions.*1 →
  (year, p) ∈ all_transactions →
  let c := combine_transactions_across_years all_transactions in
  filter (λ t, t.1 = year) (all_trades c) = (λ t, (year, t)) <$> trades p
  ∧ filter (λ w, wd_year w = Some year) (all_waivers c) = with_year year <$> waivers p
  ∧ filter (λ w, wd_year w = Some year) (all_add_drops c)
    = with_year year <$> add_drops p.
Proof.
  cbv zeta. induction all_transactions as [|[y' p'] all IH] using rev_ind;
    [by intros _ ?%elem_of_nil|].
  rewrite fmap_app. intros [Hnd [Hdisj _]]%NoDup_app. simpl in Hdisj.
  rewrite combine_snoc. unfold combine_step. cbn [all_trades all_waivers all_add_drops fst snd].
  rewrite !filter_app, !filter_with_year, filter_year_trades.
  intros [Hin|Hin%list_elem_of_singleton]%elem_of_app.
  - destruct (IH Hnd Hin) as (-> & -> & ->).
    destruct (decide (y' = year)) as [->|]; [|by rewrite !app_nil_r].
    destruct (Hdisj year); [|left].
    by apply (list_elem_of_fmap_2 fst) in Hin.
  - injection Hin as <- <-.
    assert (year ∉ all.*1) as Hno by (intros ?; apply (Hdisj year); [done|left]).
    destruct (combined_other_year all year Hno) as (-> & -> & ->).
    by destruct (decide (year = year)).
Qed.

(** Two seasons: the claim of the sample ledger in 2023, nothing in 2024. *)
Lemma combined_lists_witness :
  NoDup [(2023, Parsed [] [parse_add Ledger.users Ledger.plain_name Ledger.day14
                              (roster_to_user Ledger.rosters) Snapshots.example_weeks
                              (Some 2023) (Ledger.claim "c1" "complete") ("P", 1)] []);
         (2024, Parsed [] [] [])].*1
  ∧ length (filter (λ w, wd_year w = Some 2023)
              (all_waivers
                 (combine_transactions_across_years
                    [(2023, Parsed [] [parse_add Ledger.users Ledger.plain_name
                                         Ledger.day14 (roster_to_user Ledger.rosters)
                                         Snapshots.example_weeks (Some 2023)
                                         (Ledger.claim "c1" "complete") ("P", 1)] []);
                     (2024, Parsed [] [] [])]))) = 1%nat.
Proof.
  assert (NoDup [(2023, Parsed [] [parse_add Ledger.users Ledger.plain_name Ledger.day14
                              (roster_to_user Ledger.rosters) Snapshots.example_weeks
                              (Some 2023) (Ledger.claim "c1" "complete") ("P", 1)] []);
                 (2024, Parsed [] [] [])].*1) as Hnd.
  { apply (bool_decide_unpack _). vm_compute. exact I. }
  split; [exact Hnd|].
  destruct (combined_lists_split_by_year _ 2023 _ Hnd ltac:(left)) as (_ & -> & _).
  reflexivity.
Defined.

End ReportFacts.

(** ** Team names and rosters *)

Module NameFacts.

Import Seeds Attribution Transactions Reports.

(** A dictionary filled by a loop of guarded assignments holds, under a
    key, the value every guarded assignment to that key writes. *)
Lemma guarded_inserts_lookup `{Countable K} {V A : Type}
    (step : gmap K V → A → gmap K V) (ok : A → bool) (k : A → K) (v : A → V)
    (l : list A) (key : K) (val : V) :
  (∀ d x, step d x = if ok x then <[k x := v x]> d else d) →
  (∀ x, x ∈ l → ok x = true → k x = key → v x = val) →
  (∃ x, x ∈ l ∧ ok x = true ∧ k x = key) →
  foldl step ∅ l !! key = Some val.
Proof.
  intros Hstep. induction l as [|x l IH] using rev_ind.
  - by intros _ (? & ?%elem_of_nil & _).
  - intros Hall Hex. rewrite foldl_app. cbn [foldl]. rewrite Hstep.
    destruct (ok x) eqn:Hok.
    + destruct (decide (k x = key)) as [Hk|Hk].
      * rewrite <- Hk, lookup_insert_eq. f_equal.
        apply Hall; [apply elem_of_app; right; left|done..].
      * rewrite lookup_insert_ne by done. apply IH.
        -- intros y Hy. apply Hall, elem_of_app. by left.
        -- destruct Hex as (y & [Hy|Hy%list_elem_of_singleton]%elem_of_app & Hoky & Hky).
           ++ by exists y.
           ++ by subst y.
    + apply IH.
      * intros y Hy. apply Hall, elem_of_app. by left.
      * destruct Hex as (y & [Hy|Hy%list_elem_of_singleton]%elem_of_app & Hoky & Hky).
        -- by exists y.
        -- subst y. congruence.
Qed.

Lemma roster_to_user_step (d : gmap Z string) ro :
  match owner_id ro with
  | Some owner =>
      if negb (roster_id ro =? 0) && nonempty owner
      then <[roster_id ro := owner]> d else d
  | None => d
  end
  = if owned ro then <[roster_id ro := default "" (owner_id ro)]> d else d.
Proof. unfold owned. by destruct (owner_id ro). Qed.

Lemma team_to_roster_step user_lookup (d : gmap string Z) ro :
  match owner_id ro with
  | Some owner =>
      if negb (roster_id ro =? 0) && nonempty owner
      then <[default (fallback_name (roster_id ro)) (user_lookup !! owner)
             := roster_id ro]> d
      else d
  | None => d
  end
  = if owned ro then <[listed_name user_lookup ro := roster_id ro]> d else d.
Proof. unfold owned, listed_name. by destruct (owner_id ro). Qed.

Lemma same_id_same_roster (rosters : list roster) ro1 ro2 :
  NoDup (roster_id <$> rosters) → ro1 ∈ rosters → ro2 ∈ rosters →
  roster_id ro1 = roster_id ro2 → ro1 = ro2.
Proof.
  intros Hnd (i & Hi)%list_elem_of_lookup (j & Hj)%list_elem_of_lookup Hid.
  assert (i = j) as -> by exact (SeedFacts.NoDup_fmap_lookup_inj _ _ _ _ _ _ Hnd Hi Hj Hid).
  congruence.
Qed.

(** X17. Team names resolve back to their rosters: when the roster ids are
    pairwise different and no two rosters with an owner are listed under
    the same name, the name the parser gives a roster with an owner is the
    owner's display name (or "Team <id>" for an unknown owner), and the
    trade analysis finds that very roster under this name. *)
Theorem team_names_resolve_back
    (user_lookup : gmap string string) (rosters : list roster) (ro : roster) :
  NoDup (roster_id <$> rosters) →
  (∀ ro1 ro2, ro1 ∈ rosters → ro2 ∈ rosters → owned ro1 = true → owned ro2 = true →
     listed_name user_lookup ro1 = listed_name user_lookup ro2 →
     roster_id ro1 = roster_id ro2) →
  ro ∈ rosters → owned ro = true →
  team_name user_lookup (roster_to_user rosters) (roster_id ro)
  = listed_name user_lookup ro
  ∧ team_to_roster user_lookup rosters
    !! team_name user_lookup (roster_to_user rosters) (roster_id ro)
    = Some (roster_id ro).
Proof.
  intros Hnd Hnames Hro Hok.
  assert (team_name user_lookup (roster_to_user rosters) (roster_id ro)
          = listed_name user_lookup ro) as Hname.
  { unfold team_name, roster_to_user.
    rewrite (guarded_inserts_lookup _ owned roster_id (λ r, default "" (owner_id r))
               rosters (roster_id ro) (default "" (owner_id ro))).
    - unfold listed_name. unfold owned in Hok.
      destruct (owner_id ro) as [o|]; [|done]. simpl.
      by apply andb_prop in Hok as [_ ->].
    - intros d x. apply roster_to_user_step.
    - intros x Hx _ Hid. by rewrite (same_id_same_roster rosters x ro).
    - by exists ro. }
  split; [exact Hname|]. rewrite Hname. unfold team_to_roster.
  apply (guarded_inserts_lookup _ owned (listed_name user_lookup) roster_id).
  - intros d x. apply team_to_roster_step.
  - intros x Hx Hokx Hn. by apply Hnames.
  - by exists ro.
Qed.

(** The three rosters of the sample ledger: Ann, Bob and Cy. *)
Lemma team_names_resolve_back_witness :
  NoDup (roster_id <$> Ledger.rosters)
  ∧ team_name Ledger.users (roster_to_user Ledger.rosters) 2 = "Bob"
  ∧ team_to_roster Ledger.users Ledger.rosters
    !! team_name Ledger.users (roster_to_user Ledger.rosters) 2 = Some 2.
Proof.
  assert (NoDup (roster_id <$> Ledger.rosters)) as Hnd.
  { apply (bool_decide_unpack _). vm_compute. exact I. }
  assert (∀ ro1 ro2, ro1 ∈ Ledger.rosters → ro2 ∈ Ledger.rosters →
            owned ro1 = true → owned ro2 = true →
            listed_name Ledger.users ro1 = listed_name Ledger.users ro2 →
            roster_id ro1 = roster_id ro2) as Hnames.
  { intros ro1 ro2 H1 H2 _ _. unfold Ledger.rosters in H1, H2.
    repeat (apply elem_of_cons in H1 as [-> | H1]);
      repeat (apply elem_of_cons in H2 as [-> | H2]);
      try (by apply elem_of_nil in H1); try (by apply elem_of_nil in H2);
      vm_compute; congruence. }
  destruct (team_names_resolve_back Ledger.users Ledger.rosters
              (Roster 2 (Some "u2") 0 0 0) Hnd Hnames) as [H1 H2].
  - right. left.
  - reflexivity.
  - cbn [roster_id] in H1, H2. split; [exact Hnd|]. split; [|exact H2].
    rewrite H1. vm_compute. reflexivity.
Defined.

(** Without the second condition the way back can end at another roster:
    when two owners have the same display name, the name of the first
    roster leads to the second. *)
Example shared_name_resolves_to_later_roster :
  team_name {[ "u1" := "Ann"; "u2" := "Ann" ]}
    (roster_to_user [Roster 1 (Some "u1") 0 0 0; Roster 2 (Some "u2") 0 0 0]) 1
  = "Ann"
  ∧ team_to_roster {[ "u1" := "Ann"; "u2" := "Ann" ]}
      [Roster 1 (Some "u1") 0 0 0; Roster 2 (Some "u2") 0 0 0] !! "Ann" = Some 2.
Proof. split; vm_compute; reflexivity. Qed.

End NameFacts.
